(** * Tachometer: benchmark selection, version flags and server plans

    A shallow embedding of [server/src/specs.ts] and [src/versions.ts]:
    the version-flag parser, the spec expander, the plan grouper and the
    install materializer, with the properties stated about them.

    Conventions.  A JavaScript string is a [string]: a sequence of code
    units below 256.  Exceptions are values of [Error] carried by
    [Result].  A [Map] or [Set] is an association list in insertion
    order.  The file system, Node's [path] module and SHA-256 are
    modelled beside the program. *)

From Stdlib Require Import List Bool Arith ZArith Lia Ascii String.
From Stdlib Require Import DecimalString ListDec Permutation.
Import ListNotations.

Local Open Scope string_scope.
Local Open Scope list_scope.

Set Implicit Arguments.
Set Warnings "-register-all".

(** String concatenation, [a + b] of the source. *)
Infix "^^" := String.append (at level 60, right associativity) : string_scope.

(* ================================================================== *)
(** * Run-time values, exceptions *)

(** The values an object read from JSON or built by the program can hold. *)
Inductive JsVal : Type :=
| JUndefined
| JNull
| JBool (b : bool)
| JNum (z : Z)
| JStr (s : string)
| JArr (items : list JsVal)
| JObj (fields : list (string * JsVal)).

(** What a rejected file-system promise carries: Node's error with its
    [code], or the error of a JSON file that does not parse, which has
    no [code]. *)
Inductive IoError : Type :=
| Errno (code : string)
| Malformed.

Inductive Io (A : Type) : Type :=
| Done (a : A)
| Failed (e : IoError).

Arguments Done {A} a.
Arguments Failed {A} e.

(** The exceptions of the two files, one constructor per [throw] site,
    and those of the platform calls. *)
Inductive Error : Type :=
| InvalidFlag (flag : string)
    (* Invalid package-version format: "<flag>" *)
| DuplicateLabel (implLabel : string)
    (* package-version label "<implLabel>" was used more than once *)
| InvalidDependencyVersion (pv : string)
    (* "<pv>" is not a valid dependency version *)
| ReservedImplementation (badNames : list string)
| ReservedBenchmark (badNames : list string)
| NoSuchFile (diskPath : string)
| NoPackageJson (diskPath : string)
| InternalNoDeps (key : string)
| TypeError (what : string)
| SyntaxError (text : string)
| IoFailure (e : IoError)
| NpmFailed (cwd : string)
| OutsideDeclaredType (what : string).

Inductive Result (A : Type) : Type :=
| Ok (a : A)
| Throw (e : Error).

Arguments Ok {A} a.
Arguments Throw {A} e.

Definition bind {A B : Type} (m : Result A) (k : A -> Result B) : Result B :=
  match m with
  | Ok a => k a
  | Throw e => Throw e
  end.

Notation "x <- m ;; k" := (bind m (fun x => k))
  (at level 61, m at next level, right associativity).

(** [await p] outside a [try]: a rejection is thrown on. *)
Definition await {A : Type} (p : Io A) : Result A :=
  match p with
  | Done a => Ok a
  | Failed e => Throw (IoFailure e)
  end.

(** [try { x = await p } catch (e) { if (e.code !== 'ENOENT') throw e }] *)
Definition awaitUnlessMissing {A : Type} (p : Io A) : Result (option A) :=
  match p with
  | Done a => Ok (Some a)
  | Failed (Errno code) =>
      if String.eqb code "ENOENT" then Ok None else Throw (IoFailure (Errno code))
  | Failed e => Throw (IoFailure e)
  end.

(** The two error classes the specification names for the parser. *)
Definition isParseError (e : Error) : bool :=
  match e with
  | InvalidFlag _ | InvalidDependencyVersion _ => true
  | _ => false
  end.

Definition isDuplicateLabelError (e : Error) : bool :=
  match e with
  | DuplicateLabel _ => true
  | _ => false
  end.

(* ================================================================== *)
(** * Strings *)

Fixpoint strMem (x : string) (l : list string) : bool :=
  match l with
  | [] => false
  | y :: l' => if String.eqb x y then true else strMem x l'
  end.

(** [s.split(sep)] for a one-character separator: never empty. *)
Fixpoint splitOn (sep : ascii) (s : string) : list string :=
  match s with
  | EmptyString => [EmptyString]
  | String c s' =>
      if Ascii.eqb c sep then EmptyString :: splitOn sep s'
      else match splitOn sep s' with
           | h :: t => String c h :: t
           | [] => [String c EmptyString]
           end
  end.

(** [l.join(sep)] *)
Fixpoint joinWith (sep : string) (l : list string) : string :=
  match l with
  | [] => EmptyString
  | [x] => x
  | x :: l' => x ^^ sep ^^ joinWith sep l'
  end.

(** White space and line terminators among the code units below 256. *)
Definition isWhiteSpace (c : ascii) : bool :=
  let n := nat_of_ascii c in
  (Nat.eqb n 9 || Nat.eqb n 10 || Nat.eqb n 11 || Nat.eqb n 12
   || Nat.eqb n 13 || Nat.eqb n 32 || Nat.eqb n 160)%bool.

Definition isLineTerminator (c : ascii) : bool :=
  let n := nat_of_ascii c in (Nat.eqb n 10 || Nat.eqb n 13)%bool.

Fixpoint trimStart (s : string) : string :=
  match s with
  | EmptyString => EmptyString
  | String c s' => if isWhiteSpace c then trimStart s' else s
  end.

Fixpoint trimEnd (s : string) : string :=
  match s with
  | EmptyString => EmptyString
  | String c s' =>
      match trimEnd s' with
      | EmptyString => if isWhiteSpace c then EmptyString else String c EmptyString
      | t => String c t
      end
  end.

(** [s.trim()] *)
Definition trim (s : string) : string := trimEnd (trimStart s).

(** [String(v)] inside a template literal, for a capture that may be absent. *)
Definition templ (o : option string) : string :=
  match o with
  | Some s => s
  | None => "undefined"
  end.

(* ================================================================== *)
(** * Maps, sets and objects in insertion order *)

Section Assoc.
Variable V : Type.

(** [m.get(k)] *)
Fixpoint mapGet (k : string) (m : list (string * V)) : option V :=
  match m with
  | [] => None
  | (k', v) :: m' => if String.eqb k k' then Some v else mapGet k m'
  end.

(** [m.set(k, v)]: a present key keeps its place. *)
Fixpoint mapSet (k : string) (v : V) (m : list (string * V)) : list (string * V) :=
  match m with
  | [] => [(k, v)]
  | (k', v') :: m' =>
      if String.eqb k k' then (k, v) :: m' else (k', v') :: mapSet k v m'
  end.

(** [o[k] = v] on an object created by a literal: the name [__proto__]
    reaches the prototype setter, which ignores a string. *)
Definition objSet (k : string) (v : V) (o : list (string * V)) : list (string * V) :=
  if String.eqb k "__proto__" then o else mapSet k v o.

(** [{...a, ...b}] *)
Definition spread (a b : list (string * V)) : list (string * V) :=
  fold_left (fun o kv => mapSet (fst kv) (snd kv) o) b a.
End Assoc.

(* ================================================================== *)
(** * Regular expressions

    The fragment of ECMAScript regular expressions the parser uses,
    matched by backtracking in the order the language prescribes. *)

Inductive Regex : Type :=
| Eps
| Chr (c : ascii)
| Seq (r1 r2 : Regex)
| Alt (r1 r2 : Regex)
| Group (i : nat) (r : Regex)
| DotPlusLazy                (* .+? *)
| DotPlusGreedy.             (* .+  *)

Definition Caps := list (nat * string).

Fixpoint cap (caps : Caps) (i : nat) : option string :=
  match caps with
  | [] => None
  | (j, s) :: caps' => if Nat.eqb i j then Some s else cap caps' i
  end.

(** The text consumed between the input [s] and its suffix [rest]. *)
Definition consumed (s rest : string) : string :=
  substring 0 (String.length s - String.length rest) s.

Fixpoint dotPlusLazy (k : string -> option Caps) (s : string) : option Caps :=
  match s with
  | EmptyString => None
  | String c s' =>
      if isLineTerminator c then None
      else match k s' with
           | Some r => Some r
           | None => dotPlusLazy k s'
           end
  end.

Fixpoint dotPlusGreedy (k : string -> option Caps) (s : string) : option Caps :=
  match s with
  | EmptyString => None
  | String c s' =>
      if isLineTerminator c then None
      else match dotPlusGreedy k s' with
           | Some r => Some r
           | None => k s'
           end
  end.

Fixpoint matchRe (r : Regex) (s : string) (caps : Caps)
         (k : string -> Caps -> option Caps) : option Caps :=
  match r with
  | Eps => k s caps
  | Chr c =>
      match s with
      | String c' s' => if Ascii.eqb c c' then k s' caps else None
      | EmptyString => None
      end
  | Seq r1 r2 => matchRe r1 s caps (fun s' caps' => matchRe r2 s' caps' k)
  | Alt r1 r2 =>
      match matchRe r1 s caps k with
      | Some res => Some res
      | None => matchRe r2 s caps k
      end
  | Group i r1 =>
      matchRe r1 s caps (fun s' caps' => k s' ((i, consumed s s') :: caps'))
  | DotPlusLazy => dotPlusLazy (fun s' => k s' caps) s
  | DotPlusGreedy => dotPlusGreedy (fun s' => k s' caps) s
  end.

Definition matchHere (r : Regex) (s : string) : option Caps :=
  matchRe r s [] (fun _ caps => Some caps).

(** [s.match(r)] without the [g] flag: the first start index that matches. *)
Fixpoint strMatch (r : Regex) (s : string) : option Caps :=
  match matchHere r s with
  | Some caps => Some caps
  | None =>
      match s with
      | EmptyString => None
      | String _ s' => strMatch r s'
      end
  end.

Fixpoint lit (s : string) : Regex :=
  match s with
  | EmptyString => Eps
  | String c s' => Seq (Chr c) (lit s')
  end.

(** [/(.+?)\/(?:(default)|(?:(.+?)=(.+)))/] *)
Definition flagRe : Regex :=
  Seq (Group 1 DotPlusLazy)
      (Seq (Chr "/")
           (Alt (Group 2 (lit "default"))
                (Seq (Group 3 DotPlusLazy) (Seq (Chr "=") (Group 4 DotPlusGreedy))))).

(** [/(.+)@(.+)/] *)
Definition pvRe : Regex :=
  Seq (Group 1 DotPlusGreedy) (Seq (Chr "@") (Group 2 DotPlusGreedy)).

(* ================================================================== *)
(** * versions.ts: parsePackageVersions *)

Definition PackageDependencyMap := list (string * string).

Record PackageVersion : Type := mkPackageVersion {
  label : string;
  dependencyOverrides : PackageDependencyMap
}.

Definition VersionMap := list (string * list PackageVersion).

(** The inner loop over [packageVersions.split(',')]. *)
Fixpoint parseOverrides (pvs : list string) (deps : PackageDependencyMap)
  : Result PackageDependencyMap :=
  match pvs with
  | [] => Ok deps
  | pv :: rest =>
      match strMatch pvRe pv with
      | None => Throw (InvalidDependencyVersion pv)
      | Some m =>
          let pkg := templ (cap m 1) in
          let version := templ (cap m 2) in
          parseOverrides rest (objSet pkg version deps)
      end
  end.

Record ParseState : Type := mkParseState {
  versions : VersionMap;
  uniqueImplLabels : list string
}.

(** One iteration of [for (const flag of flags)]. *)
Definition parseFlag (flag : string) (st : ParseState) : Result ParseState :=
  match strMatch flagRe flag with
  | None => Throw (InvalidFlag flag)
  | Some m =>
      let implementation := templ (cap m 1) in
      let isDefault := cap m 2 in
      let label := cap m 3 in
      let packageVersions := cap m 4 in
      r <- match isDefault with
           | Some _ => Ok (uniqueImplLabels st, [])
           | None =>
               let implLabel := implementation ^^ "/" ^^ templ label in
               if strMem implLabel (uniqueImplLabels st)
               then Throw (DuplicateLabel implLabel)
               else
                 match packageVersions with
                 | None => Throw (TypeError "split of undefined")
                 | Some pvs =>
                     deps <- parseOverrides (splitOn "," pvs) [] ;;
                     Ok (uniqueImplLabels st ++ [implLabel], deps)
                 end
           end ;;
      let '(labels, deps) := r in
      let arr := match mapGet implementation (versions st) with
                 | Some arr => arr
                 | None => []
                 end in
      let pv := {| label := match isDefault with
                            | Some _ => "default"
                            | None => templ label
                            end;
                   dependencyOverrides := deps |} in
      Ok {| versions := mapSet implementation (arr ++ [pv]) (versions st);
            uniqueImplLabels := labels |}
  end.

Fixpoint parseFlags (flags : list string) (st : ParseState) : Result ParseState :=
  match flags with
  | [] => Ok st
  | flag :: rest => st' <- parseFlag flag st ;; parseFlags rest st'
  end.

Definition parsePackageVersions (flags : list string) : Result VersionMap :=
  st <- parseFlags flags {| versions := []; uniqueImplLabels := [] |} ;;
  Ok (versions st).

(* ================================================================== *)
(** * Node's [path] module, POSIX flavour

    [normalizeString] of lib/path.js walks the path one character at a
    time; its effect on the segments between slashes is what is written
    here: empty segments and [.] are dropped, [..] removes the segment
    before it, or stays when nothing can be removed and the path is
    relative. *)

Definition isAbsolute (p : string) : bool :=
  match p with
  | String c _ => Ascii.eqb c "/"
  | EmptyString => false
  end.

Fixpoint endsWithSlash (p : string) : bool :=
  match p with
  | EmptyString => false
  | String c EmptyString => Ascii.eqb c "/"
  | String _ p' => endsWithSlash p'
  end.

(** The stack holds the segments kept so far, the last one first. *)
Definition normStep (allowAboveRoot : bool) (stack : list string) (seg : string)
  : list string :=
  if String.eqb seg EmptyString then stack
  else if String.eqb seg "." then stack
  else if String.eqb seg ".." then
    match stack with
    | top :: below =>
        if String.eqb top ".."
        then (if allowAboveRoot then ".." :: stack else stack)
        else below
    | [] => if allowAboveRoot then [".."] else []
    end
  else seg :: stack.

Definition normalizeString (path : string) (allowAboveRoot : bool) : string :=
  joinWith "/" (rev (fold_left (normStep allowAboveRoot) (splitOn "/" path) [])).

(** [path.normalize] *)
Definition path_normalize (path : string) : string :=
  if String.eqb path EmptyString then "."
  else
    let abs := isAbsolute path in
    let trailing := endsWithSlash path in
    let p := normalizeString path (negb abs) in
    if String.eqb p EmptyString then
      (if abs then "/" else if trailing then "./" else ".")
    else
      let p' := if trailing then p ^^ "/" else p in
      if abs then "/" ^^ p' else p'.

(** [path.join(...args)] *)
Definition path_join (args : list string) : string :=
  match filter (fun a => negb (String.eqb a EmptyString)) args with
  | [] => "."
  | parts => path_normalize (joinWith "/" parts)
  end.

(** The right-to-left loop of [path.resolve]; [rargs] is the argument
    list reversed, followed by the working directory. *)
Fixpoint resolveAcc (rargs : list string) (acc : string) : string * bool :=
  match rargs with
  | [] => (acc, false)
  | p :: rest =>
      if String.eqb p EmptyString then resolveAcc rest acc
      else
        let acc' := p ^^ "/" ^^ acc in
        if isAbsolute p then (acc', true) else resolveAcc rest acc'
  end.

(** [path.resolve(...args)] in a process whose working directory is [cwd]. *)
Definition path_resolve (cwd : string) (args : list string) : string :=
  let '(p, abs) := resolveAcc (rev args ++ [cwd]) EmptyString in
  let n := normalizeString p (negb abs) in
  if abs then "/" ^^ n
  else if String.eqb n EmptyString then "." else n.

Fixpoint dropWhile {A : Type} (f : A -> bool) (l : list A) : list A :=
  match l with
  | [] => []
  | x :: l' => if f x then dropWhile f l' else l
  end.

Definition isSlash (c : ascii) : bool := Ascii.eqb c "/".

(** [path.dirname(path)]: scanning from the end down to index 1,
    trailing slashes are passed, then the last segment, and the path is
    cut at the slash before it. *)
Definition path_dirname (path : string) : string :=
  match path with
  | EmptyString => "."
  | String c0 rest =>
      let hasRoot := isSlash c0 in
      let r := dropWhile (fun c => negb (isSlash c))
                 (dropWhile isSlash (rev (list_ascii_of_string rest))) in
      match r with
      | [] => if hasRoot then "/" else "."
      | _ :: before =>
          match before with
          | [] => if hasRoot then "//" else String c0 EmptyString
          | _ => String c0 (string_of_list_ascii (rev before))
          end
      end
  end.

Fixpoint dropCommon (a b : list string) : list string * list string :=
  match a, b with
  | x :: a', y :: b' => if String.eqb x y then dropCommon a' b' else (a, b)
  | _, _ => (a, b)
  end.

Definition absSegments (p : string) : list string :=
  filter (fun seg => negb (String.eqb seg EmptyString)) (splitOn "/" p).

(** [path.relative(from, to)]: one [..] for each segment of [from] under
    the common ancestor, then the segments of [to] under it. *)
Definition path_relative (cwd : string) (from to : string) : string :=
  if String.eqb from to then EmptyString
  else
    let '(f, t) := dropCommon (absSegments (path_resolve cwd [from]))
                              (absSegments (path_resolve cwd [to])) in
    joinWith "/" (map (fun _ => "..") f ++ t).

(* ================================================================== *)
(** * The file system as the two modules read it *)

Inductive StatKind : Type := IsDirectory | IsFile | IsOther.

Record Variant : Type := mkVariant {
  vname : option string;      (* name?: string *)
  vconfig : option JsVal      (* config?: {} *)
}.

Record ConfigFormat : Type := mkConfigFormat {
  variants : option (list Variant)   (* variants?: Array<...> *)
}.

(** The disk is not written during expansion and grouping: each call
    is a function of its path. *)
Record Disk : Type := mkDisk {
  cwd : string;
  readdir : string -> Io (list string);
  pathExists : string -> bool;
  stat : string -> Io StatKind;
  readJson : string -> Io JsVal;
  (** [fsExtra.readJson] where the caller declares the result a [ConfigFormat] *)
  readConfigJson : string -> Io ConfigFormat
}.

Definition truthy (v : JsVal) : bool :=
  match v with
  | JUndefined | JNull => false
  | JBool b => b
  | JNum z => negb (Z.eqb z 0)
  | JStr s => negb (String.eqb s EmptyString)
  | JArr _ | JObj _ => true
  end.

(* ================================================================== *)
(** * server/src/specs.ts: specsFromOpts *)

Definition ignoreFiles : list string :=
  ["node_modules"; "package.json"; "package-lock.json"; "common"; "versions"].

Module Opts.
Record t : Type := mk {
  name : string;
  implementation : string;
  variant : string;
  packageVersion : list string      (* 'package-version' *)
}.
End Opts.

(** The objects pushed by the expander:
    [{...partialSpec, version, variant, config}]. *)
Module Spec.
Record t : Type := mk {
  name : string;
  implementation : string;
  version : PackageVersion;
  variant : string;
  config : JsVal
}.
End Spec.

Definition BenchmarkSpec := Spec.t.

Definition defaultVersion : PackageVersion :=
  {| label := "default"; dependencyOverrides := [] |}.

(** [arr.sort(cmp)]: elements are inserted one after the other, each
    behind the elements that do not compare greater; for a consistent
    comparator this is the stable order the language prescribes. *)
Section Sort.
Variable A : Type.
Variable cmp : A -> A -> Z.

Fixpoint insertSorted (x : A) (l : list A) : list A :=
  match l with
  | [] => [x]
  | y :: l' => if (cmp x y <? 0)%Z then x :: l else y :: insertSorted x l'
  end.

Definition arraySort (l : list A) : list A :=
  fold_left (fun acc x => insertSorted x acc) l [].
End Sort.

Section Expander.
(** [String.prototype.localeCompare] of the host, with default locale. *)
Variable localeCompare : string -> string -> Z.
Variable disk : Disk.

(** The comparator passed to [specs.sort]. *)
Definition compareSpecs (a b : BenchmarkSpec) : Z :=
  if negb (String.eqb (Spec.name a) (Spec.name b)) then
    localeCompare (Spec.name a) (Spec.name b)
  else if negb (String.eqb (Spec.variant a) (Spec.variant b)) then
    localeCompare (Spec.variant a) (Spec.variant b)
  else if negb (String.eqb (Spec.implementation a) (Spec.implementation b)) then
    localeCompare (Spec.implementation a) (Spec.implementation b)
  else if negb (String.eqb (label (Spec.version a)) (label (Spec.version b))) then
    localeCompare (label (Spec.version a)) (label (Spec.version b))
  else 0%Z.

(** [versions.get(implementation) || [{label: 'default', dependencyOverrides: {}}]];
    an array is truthy, also when empty. *)
Definition implVersionsOf (versions : VersionMap) (implementation : string)
  : list PackageVersion :=
  match mapGet implementation versions with
  | Some arr => arr
  | None => [defaultVersion]
  end.

(** [for (const version of implVersions) specs.push({...})] *)
Definition pushVersions (name implementation variant : string) (config : JsVal)
           (implVersions : list PackageVersion) (specs : list BenchmarkSpec)
  : list BenchmarkSpec :=
  specs ++ map (fun version =>
                  Spec.mk name implementation version variant config)
               implVersions.

(** [for (const variant of config.variants)] *)
Fixpoint pushVariants (name implementation : string) (requested : list string)
         (implVersions : list PackageVersion) (declared : list Variant)
         (specs : list BenchmarkSpec) : list BenchmarkSpec :=
  match declared with
  | [] => specs
  | v :: rest =>
      let specs' :=
        match vname v with
        | Some n =>
            if (negb (String.eqb n EmptyString)
                && (strMem "*" requested || strMem n requested))%bool
            then pushVersions name implementation n
                   (match vconfig v with
                    | Some c => if truthy c then c else JObj []
                    | None => JObj []
                    end)
                   implVersions specs
            else specs
        | None => specs
        end in
      pushVariants name implementation requested implVersions rest specs'
  end.

(** The body of [for (const name of benchmarks)]. *)
Definition expandBenchmark (versions : VersionMap) (opts : Opts.t)
           (requested : list string) (implementation implDir name : string)
           (specs : list BenchmarkSpec) : Result (list BenchmarkSpec) :=
  let benchDir := path_join [implDir; name] in
  if negb (pathExists disk benchDir) then Ok specs
  else
    config <- awaitUnlessMissing
                (readConfigJson disk (path_join [benchDir; "benchmarks.json"])) ;;
    let implVersions := implVersionsOf versions implementation in
    match config with
    | Some {| variants := Some (v :: vs) |} =>
        Ok (pushVariants name implementation requested implVersions (v :: vs) specs)
    | _ =>
        if String.eqb (Opts.variant opts) "*"
        then Ok (pushVersions name implementation EmptyString (JObj []) implVersions specs)
        else Ok specs
    end.

Fixpoint expandBenchmarks (versions : VersionMap) (opts : Opts.t)
         (requested : list string) (implementation implDir : string)
         (benchmarks : list string) (specs : list BenchmarkSpec)
  : Result (list BenchmarkSpec) :=
  match benchmarks with
  | [] => Ok specs
  | name :: rest =>
      specs' <- expandBenchmark versions opts requested implementation implDir
                  name specs ;;
      expandBenchmarks versions opts requested implementation implDir rest specs'
  end.

(** The body of [for (const implementation of impls)]. *)
Definition expandImplementation (repoRoot : string) (versions : VersionMap)
           (opts : Opts.t) (requested : list string) (implementation : string)
           (specs : list BenchmarkSpec) : Result (list BenchmarkSpec) :=
  let implDir := path_join [repoRoot; "benchmarks"; implementation] in
  benchmarks <-
    (if String.eqb (Opts.name opts) "*" then
       found <- await (readdir disk implDir) ;;
       Ok (filter (fun d => negb (strMem d ignoreFiles)) found)
     else
       let benchmarks := splitOn "," (Opts.name opts) in
       let badNames := filter (fun d => strMem d ignoreFiles) benchmarks in
       if (0 <? List.length badNames)%nat
       then Throw (ReservedBenchmark badNames)
       else Ok benchmarks) ;;
  expandBenchmarks versions opts requested implementation implDir benchmarks specs.

Fixpoint expandImplementations (repoRoot : string) (versions : VersionMap)
         (opts : Opts.t) (requested : list string) (impls : list string)
         (specs : list BenchmarkSpec) : Result (list BenchmarkSpec) :=
  match impls with
  | [] => Ok specs
  | implementation :: rest =>
      specs' <- expandImplementation repoRoot versions opts requested
                  implementation specs ;;
      expandImplementations repoRoot versions opts requested rest specs'
  end.

(** [new Set(opts.variant.split(',').map(v => v.trim()).filter(v => v !== ''))] *)
Definition requestedVariants (opts : Opts.t) : list string :=
  filter (fun v => negb (String.eqb v EmptyString))
         (map trim (splitOn "," (Opts.variant opts))).

(** The specs collected by the loops, before [specs.sort].  [specs.ts]
    imports [parsePackageVersions] from the module [./versions] beside
    it; the parser of [src/versions.ts], above, is taken for it. *)
Definition collectSpecs (repoRoot : string) (opts : Opts.t)
  : Result (list BenchmarkSpec) :=
  versions <- parsePackageVersions (Opts.packageVersion opts) ;;
  impls <-
    (if String.eqb (Opts.implementation opts) "*" then
       found <- await (readdir disk (path_join [repoRoot; "benchmarks"])) ;;
       Ok (filter (fun d => negb (strMem d ignoreFiles)) found)
     else
       let impls := splitOn "," (Opts.implementation opts) in
       let badNames := filter (fun d => strMem d ignoreFiles) impls in
       if (0 <? List.length badNames)%nat
       then Throw (ReservedImplementation badNames)
       else Ok impls) ;;
  expandImplementations repoRoot versions opts (requestedVariants opts) impls [].

Definition specsFromOpts (repoRoot : string) (opts : Opts.t)
  : Result (list BenchmarkSpec) :=
  specs <- collectSpecs repoRoot opts ;;
  Ok (arraySort compareSpecs specs).
End Expander.

(* ================================================================== *)
(** * JSON texts of string arrays *)

Definition hexDigit (n : nat) : ascii :=
  nth n (list_ascii_of_string "0123456789abcdef") "0"%char.

Definition dquote : ascii := ascii_of_nat 34.

(** The escape [JSON.stringify] writes for one code unit of a string. *)
Definition escapeChar (c : ascii) : string :=
  let n := nat_of_ascii c in
  if Nat.eqb n 34 then String "\" (String dquote EmptyString)
  else if Nat.eqb n 92 then "\\"
  else if Nat.eqb n 8 then "\b"
  else if Nat.eqb n 12 then "\f"
  else if Nat.eqb n 10 then "\n"
  else if Nat.eqb n 13 then "\r"
  else if Nat.eqb n 9 then "\t"
  else if (n <? 32)%nat then
    "\u00" ^^ String (hexDigit (n / 16)) (String (hexDigit (n mod 16)) EmptyString)
  else String c EmptyString.

Fixpoint escapeString (s : string) : string :=
  match s with
  | EmptyString => EmptyString
  | String c s' => escapeChar c ^^ escapeString s'
  end.

Definition quoteString (s : string) : string :=
  String dquote (escapeString s ^^ String dquote EmptyString).

(** [JSON.stringify(strings)] for an array of strings. *)
Definition JSON_stringify (strings : list string) : string :=
  "[" ^^ joinWith "," (map quoteString strings) ^^ "]".

Definition hexValue (c : ascii) : option nat :=
  let n := nat_of_ascii c in
  if ((48 <=? n) && (n <=? 57))%nat then Some (n - 48)
  else if ((97 <=? n) && (n <=? 102))%nat then Some (n - 87)
  else if ((65 <=? n) && (n <=? 70))%nat then Some (n - 55)
  else None.

(** A string literal from behind its opening quote: the text it denotes
    and what follows the closing quote.  A [\u] escape above 00ff
    denotes no code unit of the model. *)
Fixpoint parseStringBody (s : string) : option (string * string) :=
  match s with
  | EmptyString => None
  | String c s' =>
      if Ascii.eqb c dquote then Some (EmptyString, s')
      else if Ascii.eqb c "\" then
        match s' with
        | String e s'' =>
            let simple (d : ascii) :=
              match parseStringBody s'' with
              | Some (t, rest) => Some (String d t, rest)
              | None => None
              end in
            if Ascii.eqb e dquote then simple dquote
            else if Ascii.eqb e "\" then simple "\"%char
            else if Ascii.eqb e "/" then simple "/"%char
            else if Ascii.eqb e "b" then simple (ascii_of_nat 8)
            else if Ascii.eqb e "f" then simple (ascii_of_nat 12)
            else if Ascii.eqb e "n" then simple (ascii_of_nat 10)
            else if Ascii.eqb e "r" then simple (ascii_of_nat 13)
            else if Ascii.eqb e "t" then simple (ascii_of_nat 9)
            else if Ascii.eqb e "u" then
              match s'' with
              | String h1 (String h2 (String h3 (String h4 s5))) =>
                  match hexValue h1, hexValue h2, hexValue h3, hexValue h4 with
                  | Some 0, Some 0, Some a, Some b =>
                      match parseStringBody s5 with
                      | Some (t, rest) => Some (String (ascii_of_nat (16 * a + b)) t, rest)
                      | None => None
                      end
                  | _, _, _, _ => None
                  end
              | _ => None
              end
            else None
        | EmptyString => None
        end
      else if (nat_of_ascii c <? 32)%nat then None
      else
        match parseStringBody s' with
        | Some (t, rest) => Some (String c t, rest)
        | None => None
        end
  end.

Definition parseStringLit (s : string) : option (string * string) :=
  match s with
  | String c s' => if Ascii.eqb c dquote then parseStringBody s' else None
  | EmptyString => None
  end.

(** The elements of an array from its first element to the closing bracket. *)
Fixpoint parseElems (fuel : nat) (s : string) : option (list string) :=
  match fuel with
  | O => None
  | S fuel' =>
      match parseStringLit s with
      | Some (x, String c rest) =>
          if Ascii.eqb c "," then
            match parseElems fuel' rest with
            | Some l => Some (x :: l)
            | None => None
            end
          else if Ascii.eqb c "]" then
            match rest with
            | EmptyString => Some [x]
            | _ => None
            end
          else None
      | _ => None
      end
  end.

(** [JSON.parse(text)] on the texts it is given here: an array of string
    literals, written without white space.  Any other text is a
    [SyntaxError] of the model. *)
Definition JSON_parse (text : string) : Result (list string) :=
  match text with
  | String c s =>
      if Ascii.eqb c "[" then
        match s with
        | String c' EmptyString =>
            if Ascii.eqb c' "]" then Ok [] else Throw (SyntaxError text)
        | _ =>
            match parseElems (String.length s) s with
            | Some l => Ok l
            | None => Throw (SyntaxError text)
            end
        end
      else Throw (SyntaxError text)
  | EmptyString => Throw (SyntaxError text)
  end.

(* ================================================================== *)
(** * SHA-256 (FIPS 180-4) on 32-bit words held in [Z] *)

Module SHA256.
Local Open Scope Z_scope.

Definition w32 (x : Z) : Z := Z.land x 4294967295.
Definition add32 (x y : Z) : Z := w32 (x + y).
Definition rotr (n x : Z) : Z :=
  w32 (Z.lor (Z.shiftr x n) (Z.shiftl x (32 - n))).
Definition shr (n x : Z) : Z := Z.shiftr x n.
Definition xor3 (x y z : Z) : Z := Z.lxor (Z.lxor x y) z.

Definition Ch (x y z : Z) : Z :=
  Z.lxor (Z.land x y) (Z.land (Z.lxor x 4294967295) z).
Definition Maj (x y z : Z) : Z := xor3 (Z.land x y) (Z.land x z) (Z.land y z).
Definition bsig0 (x : Z) : Z := xor3 (rotr 2 x) (rotr 13 x) (rotr 22 x).
Definition bsig1 (x : Z) : Z := xor3 (rotr 6 x) (rotr 11 x) (rotr 25 x).
Definition ssig0 (x : Z) : Z := xor3 (rotr 7 x) (rotr 18 x) (shr 3 x).
Definition ssig1 (x : Z) : Z := xor3 (rotr 17 x) (rotr 19 x) (shr 10 x).

(** Integer roots: the largest [r] with [r * r * r <= x]. *)
Fixpoint cubeRootBelow (bits : nat) (r x : Z) : Z :=
match bits with
| O => r
| S bits' =>
    let r' := r + Z.shiftl 1 (Z.of_nat bits') in
    cubeRootBelow bits' (if r' * r' * r' <=? x then r' else r) x
end.

Definition isPrime (n : nat) : bool :=
forallb (fun d => negb (Nat.eqb (n mod d) 0)) (seq 2 (n - 2)).

Definition primes (count : nat) : list Z :=
map Z.of_nat (firstn count (filter isPrime (seq 2 400))).

(** The round constants: the first 32 bits of the fractional parts of
    the cube roots of the first 64 primes. *)
Definition K : list Z :=
Eval vm_compute in
  map (fun p => w32 (cubeRootBelow 40 0 (p * Z.shiftl 1 96))) (primes 64).

Record State : Type := mkState {
  ha : Z; hb : Z; hc : Z; hd : Z; he : Z; hf : Z; hg : Z; hh : Z
}.

(** The initial hash value: the first 32 bits of the fractional parts
    of the square roots of the first 8 primes. *)
Definition H0 : State :=
Eval vm_compute in
  match map (fun p => w32 (Z.sqrt (p * Z.shiftl 1 64))) (primes 8) with
  | [a; b; c; d; e; f; g; h] => mkState a b c d e f g h
  | _ => mkState 0 0 0 0 0 0 0 0
  end.

(** The message schedule, latest word first: [rw] holds W[t-1], W[t-2], ... *)
Fixpoint extend (n : nat) (rw : list Z) : list Z :=
  match n with
  | O => rw
  | S n' =>
      let w := add32 (add32 (ssig1 (nth 1 rw 0)) (nth 6 rw 0))
                     (add32 (ssig0 (nth 14 rw 0)) (nth 15 rw 0)) in
      extend n' (w :: rw)
  end.

Definition round (s : State) (kw : Z * Z) : State :=
  let t1 := add32 (add32 (add32 (hh s) (bsig1 (he s)))
                         (add32 (Ch (he s) (hf s) (hg s)) (fst kw)))
                  (snd kw) in
  let t2 := add32 (bsig0 (ha s)) (Maj (ha s) (hb s) (hc s)) in
  mkState (add32 t1 t2) (ha s) (hb s) (hc s) (add32 (hd s) t1) (he s) (hf s) (hg s).

(** One 64-byte block, given as its sixteen big-endian words. *)
Definition compress (h : State) (block : list Z) : State :=
  let w := rev (extend 48 (rev block)) in
  let s := fold_left round (combine K w) h in
  mkState (add32 (ha h) (ha s)) (add32 (hb h) (hb s)) (add32 (hc h) (hc s))
          (add32 (hd h) (hd s)) (add32 (he h) (he s)) (add32 (hf h) (hf s))
          (add32 (hg h) (hg s)) (add32 (hh h) (hh s)).

Fixpoint bigEndian (n : nat) (x : Z) : list Z :=
  match n with
  | O => []
  | S n' => Z.land (Z.shiftr x (8 * Z.of_nat n')) 255 :: bigEndian n' x
  end.

(** The message, one 0x80, zeros up to 56 modulo 64, the bit length on 8 bytes. *)
Definition pad (msg : list Z) : list Z :=
  let len := Z.of_nat (List.length msg) in
  let zeros := Z.to_nat ((55 - len) mod 64) in
  msg ++ 128 :: repeat 0 zeros ++ bigEndian 8 (8 * len).

Fixpoint words (fuel : nat) (bytes : list Z) : list Z :=
  match fuel, bytes with
  | S fuel', b0 :: b1 :: b2 :: b3 :: rest =>
      (b0 * 16777216 + b1 * 65536 + b2 * 256 + b3) :: words fuel' rest
  | _, _ => []
  end.

Fixpoint blocks (fuel : nat) (h : State) (ws : list Z) : State :=
  match fuel, ws with
  | S fuel', _ :: _ => blocks fuel' (compress h (firstn 16 ws)) (skipn 16 ws)
  | _, _ => h
  end.

Definition digest (msg : list Z) : State :=
  let bytes := pad msg in
  let ws := words (List.length bytes) bytes in
  blocks (List.length ws) H0 ws.

Definition hexNibble (x : Z) : ascii := hexDigit (Z.to_nat (Z.land x 15)).

Definition hexWord (x : Z) (tail : string) : string :=
  String (hexNibble (shr 28 x)) (String (hexNibble (shr 24 x))
  (String (hexNibble (shr 20 x)) (String (hexNibble (shr 16 x))
  (String (hexNibble (shr 12 x)) (String (hexNibble (shr 8 x))
  (String (hexNibble (shr 4 x)) (String (hexNibble x) tail))))))).

Definition hex (s : State) : string :=
  hexWord (ha s) (hexWord (hb s) (hexWord (hc s) (hexWord (hd s)
  (hexWord (he s) (hexWord (hf s) (hexWord (hg s) (hexWord (hh s) EmptyString))))))).

(** UTF-8 of a string whose code units are below 256. *)
Fixpoint utf8 (s : string) : list Z :=
  match s with
  | EmptyString => []
  | String c s' =>
      let n := Z.of_nat (nat_of_ascii c) in
      if n <? 128 then n :: utf8 s'
      else Z.lor 192 (Z.shiftr n 6) :: Z.lor 128 (Z.land n 63) :: utf8 s'
  end.
End SHA256.

(** [crypto.createHash('sha256').update(text).digest('hex')] *)
Definition sha256Hex (text : string) : string :=
  SHA256.hex (SHA256.digest (SHA256.utf8 text)).

(** [hashStrings(...strings)] *)
Definition hashStrings (strings : list string) : string :=
  sha256Hex (JSON_stringify strings).

(* ================================================================== *)
(** * src/versions.ts: makeServerPlans

    The planner receives the spec objects as they are at run time: its
    reads are property reads on [JsVal], so that what happens on an
    object of another shape is part of the model. *)

(** [v[k]] for the property names read here: none of them is defined
    on a string, array, number or boolean, nor inherited by an object. *)
Definition getProp (v : JsVal) (k : string) : Result JsVal :=
  match v with
  | JUndefined => Throw (TypeError ("Cannot read property '" ^^ k ^^ "' of undefined"))
  | JNull => Throw (TypeError ("Cannot read property '" ^^ k ^^ "' of null"))
  | JObj fields =>
      Ok (match mapGet k fields with
          | Some x => x
          | None => JUndefined
          end)
  | _ => Ok JUndefined
  end.

(** [v === 'text'] *)
Definition isStr (v : JsVal) (text : string) : bool :=
  match v with
  | JStr s => String.eqb s text
  | _ => false
  end.

(** [validateString(arg, 'path')] of [path.join] *)
Definition pathArg (v : JsVal) : Result string :=
  match v with
  | JStr s => Ok s
  | _ => Throw (TypeError "The path argument must be of type string")
  end.

Definition decimal (n : nat) : string :=
  DecimalString.NilZero.string_of_uint (Nat.to_uint n).

(** The own enumerable properties copied by [...v]. *)
Definition ownProps (v : JsVal) : list (string * JsVal) :=
  match v with
  | JObj fields => fields
  | JArr items => combine (map decimal (seq 0 (List.length items))) items
  | JStr s =>
      let chars := list_ascii_of_string s in
      combine (map decimal (seq 0 (List.length chars)))
              (map (fun c => JStr (String c EmptyString)) chars)
  | _ => []
  end.

Record NpmPackageJson : Type := mkNpmPackageJson {
  private : bool;
  dependencies : list (string * JsVal)
}.

Record NpmInstall : Type := mkNpmInstall {
  installDir : string;
  packageJson : NpmPackageJson
}.

Record MountPoint : Type := mkMountPoint {
  urlPath : string;
  diskPath : string
}.

Record ServerPlan : Type := mkServerPlan {
  specs : list JsVal;
  npmInstalls : list NpmInstall;
  mountPoints : list MountPoint
}.

Inductive FileKind : Type := KFile | KDir.

Record GroupState : Type := mkGroupState {
  keySpecs : list (string * list JsVal);
  keyDeps : list (string * list (string * JsVal));
  defaultSpecs : list JsVal
}.

Section Planner.
Variable disk : Disk.

Definition fileKind (path : string) : Result (option FileKind) :=
  st <- awaitUnlessMissing (stat disk path) ;;
  match st with
  | Some IsDirectory => Ok (Some KDir)
  | Some IsFile => Ok (Some KFile)
  | Some IsOther | None => Ok None
  end.

(** The [while (true)] of [findPackageJsonPath]; [None] when the
    turns allowed are used up. *)
Fixpoint climb (turns : nat) (cur : string) : option (option string) :=
  match turns with
  | O => None
  | S turns' =>
      let possibleLocation := path_join [cur; "package.json"] in
      if pathExists disk possibleLocation then Some (Some possibleLocation)
      else
        let parentDir := path_resolve (cwd disk) [cur; ".."] in
        if String.eqb parentDir cur then Some None
        else climb turns' parentDir
  end.

(** Each turn of the loop removes a segment of [cur]: in a process,
    whose working directory is absolute, one turn more than [cur] has
    characters is never used up ([findPackageJsonPath_returns]). *)
Definition findPackageJsonPath (startDir : string) : Result (option string) :=
  let cur := path_resolve (cwd disk) [startDir] in
  match climb (S (String.length cur)) cur with
  | Some found => Ok found
  | None => Throw (OutsideDeclaredType "findPackageJsonPath does not return")
  end.

(** What one iteration of the first loop finds out about its spec. *)
Inductive Resolved : Type :=
| Remote
| DefaultVersion
| Versioned (packageDir implementation label : string)
            (newDeps : list (string * JsVal)).

Definition resolveSpec (benchmarkRoot : string) (spec : JsVal) : Result Resolved :=
  url <- getProp spec "url" ;;
  kind <- getProp url "kind" ;;
  if isStr kind "remote" then Ok Remote
  else
    version <- getProp url "version" ;;
    lbl <- getProp version "label" ;;
    if isStr lbl "default" then Ok DefaultVersion
    else
      implV <- getProp url "implementation" ;;
      nameV <- getProp spec "name" ;;
      implementation <- pathArg implV ;;
      name <- pathArg nameV ;;
      let diskPath := path_join [benchmarkRoot; implementation; name] in
      kind <- fileKind diskPath ;;
      match kind with
      | None => Throw (NoSuchFile diskPath)
      | Some k =>
          found <- findPackageJsonPath
                     (match k with
                      | KFile => path_dirname diskPath
                      | KDir => diskPath
                      end) ;;
          match found with
          | None => Throw (NoPackageJson diskPath)
          | Some originalPackageJsonPath =>
              originalPackageJson <- await (readJson disk originalPackageJsonPath) ;;
              (* the declared type of [label] is [string]; the model
                 follows no other value into the key *)
              match lbl with
              | JStr label =>
                  deps <- getProp originalPackageJson "dependencies" ;;
                  overrides <- getProp version "dependencyOverrides" ;;
                  Ok (Versioned (path_dirname originalPackageJsonPath)
                                implementation label
                                (spread (spread [] (ownProps deps))
                                        (ownProps overrides)))
              | _ => Throw (OutsideDeclaredType "version.label")
              end
          end
      end.

(** The body of [for (const spec of specs)]. *)
Definition groupSpec (benchmarkRoot : string) (spec : JsVal) (st : GroupState)
  : Result GroupState :=
  r <- resolveSpec benchmarkRoot spec ;;
  match r with
  | Remote => Ok st
  | DefaultVersion =>
      Ok (mkGroupState (keySpecs st) (keyDeps st) (defaultSpecs st ++ [spec]))
  | Versioned packageDir implementation label newDeps =>
      let key := JSON_stringify [packageDir; implementation; label] in
      let arr := match mapGet key (keySpecs st) with
                 | Some arr => arr
                 | None => []
                 end in
      Ok (mkGroupState (mapSet key (arr ++ [spec]) (keySpecs st))
                       (mapSet key newDeps (keyDeps st))
                       (defaultSpecs st))
  end.

Fixpoint groupSpecs (benchmarkRoot : string) (specs : list JsVal) (st : GroupState)
  : Result GroupState :=
  match specs with
  | [] => Ok st
  | spec :: rest =>
      st' <- groupSpec benchmarkRoot spec st ;;
      groupSpecs benchmarkRoot rest st'
  end.

(** The body of [for (const [key, specs] of keySpecs.entries())]. *)
Definition emitPlan (benchmarkRoot npmInstallRoot : string)
           (keyDeps : list (string * list (string * JsVal)))
           (entry : string * list JsVal) : Result ServerPlan :=
  let '(key, specs) := entry in
  parts <- JSON_parse key ;;
  match parts with
  | [packageDir; _; label] =>
      match mapGet key keyDeps with
      | None => Throw (InternalNoDeps key)
      | Some dependencies =>
          let installDir :=
            path_join [npmInstallRoot; hashStrings [packageDir; label]] in
          Ok {| specs := specs;
                npmInstalls :=
                  [ {| installDir := installDir;
                       packageJson := {| private := true;
                                         dependencies := dependencies |} |} ];
                mountPoints :=
                  [ {| urlPath := "/" ^^ path_relative (cwd disk) benchmarkRoot packageDir
                                      ^^ "/node_modules";
                       diskPath := path_join [installDir; "node_modules"] |};
                    {| urlPath := "/"; diskPath := benchmarkRoot |} ] |}
      end
  | _ => Throw (OutsideDeclaredType "install key")
  end.

Fixpoint emitPlans (benchmarkRoot npmInstallRoot : string)
         (keyDeps : list (string * list (string * JsVal)))
         (entries : list (string * list JsVal)) (plans : list ServerPlan)
  : Result (list ServerPlan) :=
  match entries with
  | [] => Ok plans
  | entry :: rest =>
      plan <- emitPlan benchmarkRoot npmInstallRoot keyDeps entry ;;
      emitPlans benchmarkRoot npmInstallRoot keyDeps rest (plans ++ [plan])
  end.

Definition makeServerPlans (benchmarkRoot npmInstallRoot : string)
           (specs : list JsVal) : Result (list ServerPlan) :=
  st <- groupSpecs benchmarkRoot specs (mkGroupState [] [] []) ;;
  let plans :=
    if (0 <? List.length (defaultSpecs st))%nat
    then [ {| specs := defaultSpecs st;
              npmInstalls := [];
              mountPoints := [ {| urlPath := "/"; diskPath := benchmarkRoot |} ] |} ]
    else [] in
  emitPlans benchmarkRoot npmInstallRoot (keyDeps st) (keySpecs st) plans.
End Planner.

(** The object a spec of the expander is at run time. *)
Definition versionToJs (v : PackageVersion) : JsVal :=
  JObj [ ("label", JStr (label v));
         ("dependencyOverrides",
          JObj (map (fun kv => (fst kv, JStr (snd kv))) (dependencyOverrides v))) ].

Definition specToJs (s : BenchmarkSpec) : JsVal :=
  JObj [ ("name", JStr (Spec.name s));
         ("implementation", JStr (Spec.implementation s));
         ("version", versionToJs (Spec.version s));
         ("variant", JStr (Spec.variant s));
         ("config", Spec.config s) ].

(** A spec of the planner's own kind, with a local URL. *)
Definition localSpec (name implementation : string) (v : PackageVersion) : JsVal :=
  JObj [ ("name", JStr name);
         ("url", JObj [ ("kind", JStr "local");
                        ("implementation", JStr implementation);
                        ("version", versionToJs v) ]) ].

(* ================================================================== *)
(** * src/versions.ts: prepareVersionDirectory

    The materializer writes to the disk and starts a process.  The
    world holds the paths that exist and the calls made so far; the host
    decides which calls fail and what [npm install] leaves behind.  No
    call of the three removes a path. *)

Inductive Event : Type :=
| Logged (line : string)
| EnsuredDir (dir : string)
| WroteJson (file : string) (content : NpmPackageJson)
| RanNpmInstall (dir : string).

Record World : Type := mkWorld {
  existing : list string;
  events : list Event
}.

Record Host : Type := mkHost {
  ensureDirError : string -> World -> option IoError;
  writeJsonError : string -> World -> option IoError;
  npmInstallFails : string -> World -> bool;
  npmInstallCreates : string -> World -> list string
}.

Definition worldPathExists (w : World) (path : string) : bool :=
  strMem path (existing w).

Definition record (e : Event) (created : list string) (w : World) : World :=
  {| existing := created ++ existing w; events := events w ++ [e] |}.

Section Materializer.
Variable host : Host.

(** [npmInstall(cwd)]: the process is started, then its outcome read. *)
Definition npmInstall (dir : string) (w : World) : World * Result unit :=
  let w' := record (RanNpmInstall dir) (npmInstallCreates host dir w) w in
  if npmInstallFails host dir w then (w', Throw (NpmFailed dir)) else (w', Ok tt).

Definition prepareVersionDirectory (install : NpmInstall) (w : World)
  : World * Result unit :=
  if worldPathExists w (installDir install) then (w, Ok tt)
  else
    let w1 := record (Logged (String (ascii_of_nat 10)
                                ("Installing " ^^ installDir install ^^ " ...")))
                     [] w in
    match ensureDirError host (installDir install) w1 with
    | Some e => (w1, Throw (IoFailure e))
    | None =>
        let w2 := record (EnsuredDir (installDir install)) [installDir install] w1 in
        let file := path_join [installDir install; "package.json"] in
        match writeJsonError host file w2 with
        | Some e => (w2, Throw (IoFailure e))
        | None =>
            let w3 := record (WroteJson file (packageJson install)) [file] w2 in
            npmInstall (installDir install) w3
        end
    end.
End Materializer.

Definition isNpmRun (e : Event) : bool :=
  match e with
  | RanNpmInstall _ => true
  | _ => false
  end.

Definition npmRuns (w : World) : nat := List.length (filter isNpmRun (events w)).

(* ================================================================== *)
(** * A host for running the model

    A comparison that orders strings of ASCII letters and digits as the
    root collation of ICU does (letters compare without case first, and
    a lower-case letter goes before its capital), and a small benchmark
    tree. *)

Definition foldCase (c : ascii) : nat :=
  let n := nat_of_ascii c in
  if ((65 <=? n) && (n <=? 90))%nat then n + 32 else n.

Fixpoint comparePrimary (a b : string) : comparison :=
  match a, b with
  | EmptyString, EmptyString => Eq
  | EmptyString, String _ _ => Lt
  | String _ _, EmptyString => Gt
  | String x a', String y b' =>
      match Nat.compare (foldCase x) (foldCase y) with
      | Eq => comparePrimary a' b'
      | c => c
      end
  end.

(** Among strings equal without case: at the first difference the
    lower-case letter, which has the larger code, goes first. *)
Fixpoint compareCase (a b : string) : comparison :=
  match a, b with
  | String x a', String y b' =>
      match Nat.compare (nat_of_ascii y) (nat_of_ascii x) with
      | Eq => compareCase a' b'
      | c => c
      end
  | _, _ => Eq
  end.

Definition localeCompareAscii (a b : string) : Z :=
  match comparePrimary a b with
  | Lt => (-1)%Z
  | Gt => 1%Z
  | Eq =>
      match compareCase a b with
      | Lt => (-1)%Z
      | Gt => 1%Z
      | Eq => 0%Z
      end
  end.

Module Fixture.
Definition benchmarksJson : ConfigFormat :=
  {| variants :=
       Some [ {| vname := Some "v1"; vconfig := Some (JObj [("size", JNum 10)]) |};
              {| vname := Some "v2"; vconfig := None |} ] |}.

Definition packageJsonFile : JsVal :=
  JObj [ ("name", JStr "lit-benchmarks");
         ("dependencies", JObj [ ("lit-html", JStr "^1.0.0") ]) ].

Definition directories : list string :=
  [ "/repo"; "/repo/benchmarks"; "/repo/benchmarks/lit";
    "/repo/benchmarks/lit/bench"; "/repo/benchmarks/lit/Zeta";
    "/repo/benchmarks/lit/node_modules" ].

Definition files : list string :=
  [ "/repo/benchmarks/lit/package.json";
    "/repo/benchmarks/lit/bench/benchmarks.json" ].

Definition disk : Disk :=
  {| cwd := "/repo";
     readdir := fun p =>
       if String.eqb p "/repo/benchmarks" then Done ["common"; "lit"]
       else if String.eqb p "/repo/benchmarks/lit"
            then Done ["Zeta"; "bench"; "node_modules"; "package.json"]
            else Failed (Errno "ENOENT");
     pathExists := fun p => strMem p (directories ++ files);
     stat := fun p =>
       if strMem p directories then Done IsDirectory
       else if strMem p files then Done IsFile
       else Failed (Errno "ENOENT");
     readJson := fun p =>
       if String.eqb p "/repo/benchmarks/lit/package.json" then Done packageJsonFile
       else Failed (Errno "ENOENT");
     readConfigJson := fun p =>
       if String.eqb p "/repo/benchmarks/lit/bench/benchmarks.json"
       then Done benchmarksJson
       else Failed (Errno "ENOENT") |}.

Definition allOpts : Opts.t :=
  {| Opts.name := "*"; Opts.implementation := "*"; Opts.variant := "*";
     Opts.packageVersion := [] |}.

Definition absentVariantOpts : Opts.t :=
{| Opts.name := "*"; Opts.implementation := "*"; Opts.variant := "v3";
   Opts.packageVersion := [] |}.

Definition versionOpts : Opts.t :=
  {| Opts.name := "bench"; Opts.implementation := "lit"; Opts.variant := "v1";
     Opts.packageVersion := ["lit/old=lit-html@0.9.0"; "lit/new=lit-html@1.1.0"] |}.

Definition v : string -> string -> PackageVersion :=
  fun l version => {| label := l; dependencyOverrides := [("lit-html", version)] |}.

(** A host on which every call succeeds. *)
Definition host : Host :=
  {| ensureDirError := fun _ _ => None;
     writeJsonError := fun _ _ => None;
     npmInstallFails := fun _ _ => false;
     npmInstallCreates := fun dir _ => [path_join [dir; "node_modules"]] |}.

Definition emptyWorld : World := {| existing := ["/repo"]; events := [] |}.
End Fixture.

(* ================================================================== *)
(** * The order the specification asks for

    The sort key of a spec, the comparison of two keys field by field
    under a comparison of strings, and the ordinal comparison of
    strings, by code unit. *)





(* ================================================================== *)
(** * The grammar of version flags

    The two forms of a flag as the documentation writes them,
    [<implementation>/default] and
    [<implementation>/<label>=<pkg>@<version>[,<pkg>@<version>]*],
    as data, with the text of each. *)

Inductive Flag : Type :=
| DefaultFlag (implementation : string)
| OverrideFlag (implementation label : string) (entries : list (string * string)).

Definition entryText (e : string * string) : string := fst e ^^ "@" ^^ snd e.

Definition flagText (f : Flag) : string :=
match f with
| DefaultFlag implementation => implementation ^^ "/default"
| OverrideFlag implementation label entries =>
    implementation ^^ "/" ^^ label ^^ "=" ^^ joinWith "," (map entryText entries)
end.

Fixpoint allChars (ok : ascii -> bool) (s : string) : bool :=
match s with
| EmptyString => true
| String c s' => (ok c && allChars ok s')%bool
end.

Definition nonEmpty (s : string) : bool := negb (String.eqb s EmptyString).

(** A character of a component: no line terminator, none of [stops]. *)
Definition plainChar (stops : list ascii) (c : ascii) : bool :=
(negb (isLineTerminator c) && negb (existsb (Ascii.eqb c) stops))%bool.

Fixpoint startsWith (p s : string) : bool :=
match p, s with
| EmptyString, _ => true
| String a p', String b s' => (Ascii.eqb a b && startsWith p' s')%bool
| String _ _, EmptyString => false
end.

(** The components a flag can be read back from: none is empty, none
    holds a line terminator or the delimiter that ends it; the label
    does not begin with [default]. *)
Definition wellFormedEntry (e : string * string) : bool :=
(nonEmpty (fst e) && allChars (plainChar [","%char]) (fst e)
 && nonEmpty (snd e) && allChars (plainChar ["@"%char; ","%char]) (snd e))%bool.

Definition wellFormedFlag (f : Flag) : bool :=
match f with
| DefaultFlag implementation =>
    (nonEmpty implementation && allChars (plainChar ["/"%char]) implementation)%bool
| OverrideFlag implementation label entries =>
    (nonEmpty implementation && allChars (plainChar ["/"%char]) implementation
     && nonEmpty label && allChars (plainChar ["="%char]) label
     && negb (startsWith "default" label)
     && negb (Nat.eqb (List.length entries) 0) && forallb wellFormedEntry entries)%bool
end.

(** The object filled by [dependencyOverrides[pkg] = version], entry by entry. *)
Definition overridesOf (entries : list (string * string)) : PackageDependencyMap :=
fold_left (fun o e => objSet (fst e) (snd e) o) entries [].

Definition flagImplementation (f : Flag) : string :=
match f with
| DefaultFlag implementation => implementation
| OverrideFlag implementation _ _ => implementation
end.

Definition flagVersion (f : Flag) : PackageVersion :=
match f with
| DefaultFlag _ => defaultVersion
| OverrideFlag _ label entries =>
    {| label := label; dependencyOverrides := overridesOf entries |}
end.

(** The (implementation, label) pairs of the flags that are not [default]. *)
Fixpoint labelPairs (fs : list Flag) : list (string * string) :=
match fs with
| [] => []
| DefaultFlag _ :: rest => labelPairs rest
| OverrideFlag implementation label _ :: rest =>
    (implementation, label) :: labelPairs rest
end.

(** The version of the last entry for [pkg]. *)
Fixpoint lastVersion (pkg : string) (entries : list (string * string)) : option string :=
match entries with
| [] => None
| (p, v) :: rest =>
    match lastVersion pkg rest with
    | Some v' => Some v'
    | None => if String.eqb pkg p then Some v else None
    end
end.

Definition keyText (p : string * string) : string := fst p ^^ "/" ^^ snd p.

(** What the parser throws, read as the error class of the documentation. *)
Definition throwsDuplicateLabel {A : Type} (r : Result A) : Prop :=
match r with
| Throw e => isDuplicateLabelError e = true
| Ok _ => False
end.

(** The key under which the loop remembers a flag, and the state after
    the turn of the loop for a flag that is accepted. *)
Definition flagKey (f : Flag) : option string :=
match f with
| DefaultFlag _ => None
| OverrideFlag implementation label _ => Some (implementation ^^ "/" ^^ label)
end.

Definition addVersion (f : Flag) (st : ParseState) : ParseState :=
{| versions :=
     mapSet (flagImplementation f)
            (match mapGet (flagImplementation f) (versions st) with
             | Some arr => arr
             | None => []
             end ++ [flagVersion f])
            (versions st);
   uniqueImplLabels :=
     match flagKey f with
     | Some key => uniqueImplLabels st ++ [key]
     | None => uniqueImplLabels st
     end |}.

(** The keys of a list of flags, in order. *)
Fixpoint keyTexts (fs : list Flag) : list string :=
match fs with
| [] => []
| f :: rest =>
    match flagKey f with
    | Some key => key :: keyTexts rest
    | None => keyTexts rest
    end
end.

Definition addVersions (fs : list Flag) (st : ParseState) : ParseState :=
fold_left (fun s f => addVersion f s) fs st.

Definition holdsVersion (m : VersionMap) (implementation : string)
           (v : PackageVersion) : Prop :=
exists arr, mapGet implementation m = Some arr /\ In v arr.

(* ================================================================== *)
(** * Plans and digests, for the statements *)

Definition isHexChar (c : ascii) : bool :=
existsb (Ascii.eqb c) (list_ascii_of_string "0123456789abcdef").

(** The plan emitted for the bucket of an install key. *)
Definition installPlan (disk : Disk) (benchmarkRoot npmInstallRoot : string)
           (packageDir label : string) (specs : list JsVal)
           (deps : list (string * JsVal)) : ServerPlan :=
let dir := path_join [npmInstallRoot; hashStrings [packageDir; label]] in
{| specs := specs;
   npmInstalls := [ {| installDir := dir;
                       packageJson := {| private := true; dependencies := deps |} |} ];
   mountPoints :=
     [ {| urlPath := "/" ^^ path_relative (cwd disk) benchmarkRoot packageDir
                         ^^ "/node_modules";
          diskPath := path_join [dir; "node_modules"] |};
       {| urlPath := "/"; diskPath := benchmarkRoot |} ] |}.

(** A segment that [normalizeString] keeps, and the absolute path of a
    list of segments. *)
Definition keptSegment (s : string) : bool :=
(negb (String.eqb s EmptyString) && negb (String.eqb s ".")
 && negb (String.eqb s "..") && allChars (fun a => negb (Ascii.eqb a "/")) s)%bool.

Definition rootedPath (segs : list string) : string := "/" ^^ joinWith "/" segs.

(** The text of the install key of a spec that the first loop files. *)
Definition installKey (packageDir implementation label : string) : string :=
JSON_stringify [packageDir; implementation; label].

(** What the first loop has done when the specs [done] are behind it. *)
Record Grouped (disk : Disk) (benchmarkRoot : string) (done : list JsVal)
       (st : GroupState) : Prop := mkGrouped {
  grouped_filed :
    forall s d i l deps,
      In s done ->
      resolveSpec disk benchmarkRoot s = Ok (Versioned d i l deps) ->
      exists arr, mapGet (installKey d i l) (keySpecs st) = Some arr /\ In s arr;
  grouped_bucket :
    forall k arr s,
      In (k, arr) (keySpecs st) -> In s arr ->
      exists d i l deps,
        resolveSpec disk benchmarkRoot s = Ok (Versioned d i l deps)
        /\ k = installKey d i l;
  grouped_keys : NoDup (map fst (keySpecs st));
  grouped_default :
    forall s, In s (defaultSpecs st) ->
              resolveSpec disk benchmarkRoot s = Ok DefaultVersion
}.

(* ================================================================== *)
(** * Predicates of the statements *)

(** Every key of [keySpecs] is a key of [keyDeps]. *)
Definition keysCovered (st : GroupState) : Prop :=
  forall key, mapGet key (keySpecs st) <> None -> mapGet key (keyDeps st) <> None.


(** A spec at another version. *)
Definition withVersion (s : BenchmarkSpec) (v : PackageVersion) : BenchmarkSpec :=
Spec.mk (Spec.name s) (Spec.implementation s) v (Spec.variant s) (Spec.config s).

(** Each spec has a version of the list of its implementation, and stands
    beside its copies at the other versions of that list. *)
Definition usesVersions (versions : VersionMap) (l : list BenchmarkSpec) : Prop :=
forall s, In s l ->
  In (Spec.version s) (implVersionsOf versions (Spec.implementation s))
  /\ forall v, In v (implVersionsOf versions (Spec.implementation s)) ->
               In (withVersion s v) l.

Definition arraysNonEmpty (m : VersionMap) : Prop :=
forall k arr, mapGet k m = Some arr -> arr <> [].

(** No config file, no [variants], or an empty list. *)
Definition declaresNoVariants (config : option ConfigFormat) : Prop :=
match config with
| None => True
| Some c => variants c = None \/ variants c = Some []
end.

(* ================================================================== *)
(** * Further notions of the statements *)

(** [p] occurs in [s]. *)
Fixpoint occurs (p s : string) : bool :=
match s with
| EmptyString => startsWith p EmptyString
| String _ s' => (startsWith p s || occurs p s')%bool
end.

(** The implementation and the label of a flag that is not [default],
    as [wellFormedFlag] asks for them. *)
Definition wellFormedLabel (implementation label : string) : bool :=
(nonEmpty implementation && allChars (plainChar ["/"%char]) implementation
 && nonEmpty label && allChars (plainChar ["="%char]) label
 && negb (startsWith "default" label))%bool.

(** The versions the flags give an implementation, in the order of the flags. *)
Definition versionsOf (implementation : string) (fs : list Flag) : list PackageVersion :=
map flagVersion
    (filter (fun f => String.eqb (flagImplementation f) implementation) fs).

(** The distinct strings of a list, each at its first place. *)
Definition firstSeen (keys : list string) : list string :=
fold_left (fun seen k => if strMem k seen then seen else seen ++ [k]) keys [].

(** No version of the map has [key] among its overrides. *)
Definition ownKeyFree (key : string) (m : VersionMap) : Prop :=
forall implementation arr v,
  mapGet implementation m = Some arr -> In v arr ->
  mapGet key (dependencyOverrides v) = None.

(** [spec.url.kind === 'remote'], and [spec.url.version.label === 'default'];
    [false] where the read throws. *)
Definition isRemoteSpec (spec : JsVal) : bool :=
match (url <- getProp spec "url" ;;
       kind <- getProp url "kind" ;;
       Ok (isStr kind "remote")) with
| Ok b => b
| Throw _ => false
end.

Definition hasDefaultLabel (spec : JsVal) : bool :=
match (url <- getProp spec "url" ;;
       version <- getProp url "version" ;;
       lbl <- getProp version "label" ;;
       Ok (isStr lbl "default")) with
| Ok b => b
| Throw _ => false
end.

(** The plan pushed for [defaultSpecs]. *)
Definition defaultPlan (benchmarkRoot : string) (specs : list JsVal) : ServerPlan :=
{| specs := specs;
   npmInstalls := [];
   mountPoints := [ {| urlPath := "/"; diskPath := benchmarkRoot |} ] |}.

(** Every bucket of [keySpecs] holds a spec, under an install key that
    [keyDeps] knows. *)
Definition bucketsFiled (st : GroupState) : Prop :=
forall k arr,
  In (k, arr) (keySpecs st) ->
  arr <> []
  /\ exists d i l deps, k = installKey d i l /\ mapGet k (keyDeps st) = Some deps.

(** The install key under which the first loop files a spec, if it
    files it; whether a spec is filed under [key]; the keys of a list of
    specs, in order. *)
Definition keyOf (disk : Disk) (benchmarkRoot : string) (spec : JsVal) : option string :=
match resolveSpec disk benchmarkRoot spec with
| Ok (Versioned packageDir implementation label _) =>
    Some (installKey packageDir implementation label)
| _ => None
end.

Definition filedUnder (disk : Disk) (benchmarkRoot key : string) (spec : JsVal) : bool :=
match keyOf disk benchmarkRoot spec with
| Some k => String.eqb k key
| None => false
end.

Fixpoint keysOf (disk : Disk) (benchmarkRoot : string) (given : list JsVal)
  : list string :=
match given with
| [] => []
| spec :: rest =>
    match keyOf disk benchmarkRoot spec with
    | Some k => k :: keysOf disk benchmarkRoot rest
    | None => keysOf disk benchmarkRoot rest
    end
end.

(** The directories searched for a manifest, the deepest first; the
    argument holds the segments of the start directory, the last first. *)
Fixpoint nearestManifest (disk : Disk) (upward : list string) : option string :=
let here := path_join [rootedPath (rev upward); "package.json"] in
if pathExists disk here then Some here
else match upward with
     | [] => None
     | _ :: above => nearestManifest disk above
     end.

(** The [package.json] of the directory [j] levels above the directory
    whose segments, the last first, are [upward]. *)
Definition manifestAbove (upward : list string) (j : nat) : string :=
rootedPath (rev (skipn j upward) ++ ["package.json"]).

(** [{...originalPackageJson.dependencies, ...dependencyOverrides}] for a
    version of the parser. *)
Definition mergedDependencies (manifest : JsVal) (v : PackageVersion)
  : Result (list (string * JsVal)) :=
deps <- getProp manifest "dependencies" ;;
Ok (spread (spread [] (ownProps deps))
           (map (fun kv => (fst kv, JStr (snd kv))) (dependencyOverrides v))).

(** What [prepareVersionDirectory] does to a directory that is not
    there, step by step. *)
Definition installEvents (install : NpmInstall) : list Event :=
[ Logged (String (ascii_of_nat 10) ("Installing " ^^ installDir install ^^ " ..."));
  EnsuredDir (installDir install);
  WroteJson (path_join [installDir install; "package.json"]) (packageJson install);
  RanNpmInstall (installDir install) ].

(** An entry a loop takes from the option [wanted] or, for [*], from the
    listing of [dir]; a reserved name is never taken. *)
Definition listedIn (disk : Disk) (dir wanted entry : string) : Prop :=
strMem entry ignoreFiles = false
/\ if String.eqb wanted "*"
   then exists found, readdir disk dir = Done found /\ In entry found
   else In entry (splitOn "," wanted).

(** [variant.config || {}] *)
Definition variantConfig (d : Variant) : JsVal :=
match vconfig d with
| Some c => if truthy c then c else JObj []
| None => JObj []
end.

(** Where the variant and the config of a spec come from: no declared
    variant and the option [*], or a declared variant that is requested. *)
Definition variantOf (disk : Disk) (opts : Opts.t) (benchDir : string)
           (s : BenchmarkSpec) : Prop :=
let configFile := path_join [benchDir; "benchmarks.json"] in
(Spec.variant s = EmptyString /\ Spec.config s = JObj []
 /\ Opts.variant opts = "*"
 /\ exists config,
      awaitUnlessMissing (readConfigJson disk configFile) = Ok config
      /\ declaresNoVariants config)
\/ (Spec.variant s <> EmptyString
    /\ (strMem "*" (requestedVariants opts)
        || strMem (Spec.variant s) (requestedVariants opts))%bool = true
    /\ exists declared d,
         readConfigJson disk configFile = Done {| variants := Some declared |}
         /\ In d declared
         /\ vname d = Some (Spec.variant s)
         /\ Spec.config s = variantConfig d).

(** What the loops know of a spec they push. *)
Definition selected (disk : Disk) (repoRoot : string) (opts : Opts.t)
           (versions : VersionMap) (s : BenchmarkSpec) : Prop :=
let implDir := path_join [repoRoot; "benchmarks"; Spec.implementation s] in
let benchDir := path_join [implDir; Spec.name s] in
listedIn disk (path_join [repoRoot; "benchmarks"]) (Opts.implementation opts)
         (Spec.implementation s)
/\ listedIn disk implDir (Opts.name opts) (Spec.name s)
/\ pathExists disk benchDir = true
/\ In (Spec.version s) (implVersionsOf versions (Spec.implementation s))
/\ variantOf disk opts benchDir s.

(** A spec with a remote URL. *)
Definition remoteSpec (name url : string) : JsVal :=
JObj [ ("name", JStr name);
       ("url", JObj [ ("kind", JStr "remote"); ("url", JStr url) ]) ].

(** Two more trees and a host, for running the model. *)
Module Trees.
(** Two implementations under one manifest, in the benchmark root. *)
Definition sharedDirectories : list string :=
[ "/repo"; "/repo/benchmarks"; "/repo/benchmarks/lit"; "/repo/benchmarks/preact";
  "/repo/benchmarks/lit/bench"; "/repo/benchmarks/preact/bench" ].

Definition shared : Disk :=
{| cwd := "/repo";
   readdir := fun _ => Failed (Errno "ENOENT");
   pathExists := fun p =>
     strMem p ("/repo/benchmarks/package.json" :: sharedDirectories);
   stat := fun p =>
     if strMem p sharedDirectories then Done IsDirectory
     else if String.eqb p "/repo/benchmarks/package.json" then Done IsFile
     else Failed (Errno "ENOENT");
   readJson := fun p =>
     if String.eqb p "/repo/benchmarks/package.json"
     then Done (JObj [ ("dependencies", JObj [ ("lit-html", JStr "^1.0.0");
                                               ("preact", JStr "^10.0.0") ]) ])
     else Failed (Errno "ENOENT");
   readConfigJson := fun _ => Failed (Errno "ENOENT") |}.

(** The same directories and no manifest. *)
Definition bare : Disk :=
{| cwd := "/repo";
   readdir := fun _ => Failed (Errno "ENOENT");
   pathExists := fun p => strMem p sharedDirectories;
   stat := fun p =>
     if strMem p sharedDirectories then Done IsDirectory
     else Failed (Errno "ENOENT");
   readJson := fun _ => Failed (Errno "ENOENT");
   readConfigJson := fun _ => Failed (Errno "ENOENT") |}.

(** A host without network: [npm install] fails and leaves nothing. *)
Definition offline : Host :=
{| ensureDirError := fun _ _ => None;
   writeJsonError := fun _ _ => None;
   npmInstallFails := fun _ _ => true;
   npmInstallCreates := fun _ _ => [] |}.

(** Both implementations asked for, and a flag for one of them. *)
Definition oneFlagOpts : Opts.t :=
{| Opts.name := "bench"; Opts.implementation := "lit,preact"; Opts.variant := "*";
   Opts.packageVersion := ["lit/old=lit-html@0.9.0"] |}.
End Trees.

(** How often [x] stands in [l]. *)
Definition timesIn (x : string) (l : list string) : nat :=
List.length (filter (String.eqb x) l).

(** An entry a loop takes exactly once. *)
Definition listedOnce (disk : Disk) (dir wanted entry : string) : Prop :=
strMem entry ignoreFiles = false
/\ if String.eqb wanted "*"
   then exists found, readdir disk dir = Done found /\ timesIn entry found = 1
   else timesIn entry (splitOn "," wanted) = 1.

(** The specs of one benchmark of one implementation, and those of one
    variant of it. *)
Definition isBenchmark (name implementation : string) (s : BenchmarkSpec) : bool :=
(String.eqb (Spec.name s) name
 && String.eqb (Spec.implementation s) implementation)%bool.

Definition isSelection (name implementation variant : string) (s : BenchmarkSpec)
  : bool :=
(isBenchmark name implementation s && String.eqb (Spec.variant s) variant)%bool.

Definition namedVariant (variant : string) (d : Variant) : bool :=
match vname d with
| Some n => String.eqb n variant
| None => false
end.

(** No two variants declared in [configFile] have the name [variant]. *)
Definition declaredAtMostOnce (disk : Disk) (configFile variant : string) : Prop :=
forall declared,
  readConfigJson disk configFile = Done {| variants := Some declared |} ->
  List.length (filter (namedVariant variant) declared) <= 1.

(* ================================================================== *)
(** * Properties *)

(** ** The models on known values *)

(** The test vectors of FIPS 180-4 for one block, no byte, and two blocks. *)
Example sha256Hex_abc :
  sha256Hex "abc"
  = "ba7816bf8f01cfea414140de5dae2223b00361a396177a9cb410ff61f20015ad".
Proof. vm_compute. reflexivity. Qed.

Example sha256Hex_empty :
  sha256Hex EmptyString
  = "e3b0c44298fc1c149afbf4c8996fb92427ae41e4649b934ca495991b7852b855".
Proof. vm_compute. reflexivity. Qed.

Example sha256Hex_two_blocks :
  sha256Hex "abcdbcdecdefdefgefghfghighijhijkijkljklmklmnlmnomnopnopq"
  = "248d6a61d20638b8e5c026930c3e6039a33ce45964ff2167f6ecedd419db06c1".
Proof. vm_compute. reflexivity. Qed.

(** The examples of Node's documentation of [path]. *)
Example path_join_documented :
  path_join ["/foo"; "bar"; "baz/asdf"; "quux"; ".."] = "/foo/bar/baz/asdf".
Proof. vm_compute. reflexivity. Qed.

Example path_resolve_documented :
  path_resolve "/home/myself/node" ["/foo/bar"; "./baz"] = "/foo/bar/baz"
  /\ path_resolve "/home/myself/node" ["/foo/bar"; "/tmp/file/"] = "/tmp/file"
  /\ path_resolve "/home/myself/node" ["wwwroot"; "static_files/png/"; "../gif/image.gif"]
     = "/home/myself/node/wwwroot/static_files/gif/image.gif".
Proof. vm_compute. repeat split. Qed.

Example path_dirname_documented :
  path_dirname "/foo/bar/baz/asdf/quux" = "/foo/bar/baz/asdf".
Proof. vm_compute. reflexivity. Qed.

Example path_relative_documented :
  path_relative "/home/myself/node" "/data/orandea/test/aaa" "/data/orandea/impl/bbb"
  = "../../impl/bbb".
Proof. vm_compute. reflexivity. Qed.

(** The flags and the failing flag of the specification's tests. *)
Example parsePackageVersions_two_labels :
  parsePackageVersions ["impl/one=a@1.0"; "impl/two=a@2.0"]
  = Ok [ ("impl", [ {| label := "one"; dependencyOverrides := [("a", "1.0")] |};
                    {| label := "two"; dependencyOverrides := [("a", "2.0")] |} ]) ].
Proof. vm_compute. reflexivity. Qed.

Example parsePackageVersions_scoped_package :
  parsePackageVersions ["lit/next=@polymer/lit-element@2.0.0"]
  = Ok [ ("lit", [ {| label := "next";
                      dependencyOverrides := [("@polymer/lit-element", "2.0.0")] |} ]) ].
Proof. vm_compute. reflexivity. Qed.

Example specsFromOpts_fixture :
  specsFromOpts localeCompareAscii Fixture.disk "/repo" Fixture.allOpts
  = Ok [ Spec.mk "bench" "lit" defaultVersion "v1" (JObj [("size", JNum 10)]);
         Spec.mk "bench" "lit" defaultVersion "v2" (JObj []);
         Spec.mk "Zeta" "lit" defaultVersion EmptyString (JObj []) ].
Proof. vm_compute. reflexivity. Qed.

Example makeServerPlans_default_only :
  makeServerPlans Fixture.disk "/repo/benchmarks" "/repo/installs"
    [ localSpec "bench" "lit" defaultVersion; localSpec "Zeta" "lit" defaultVersion ]
  = Ok [ {| specs := [ localSpec "bench" "lit" defaultVersion;
                       localSpec "Zeta" "lit" defaultVersion ];
            npmInstalls := [];
            mountPoints := [ {| urlPath := "/"; diskPath := "/repo/benchmarks" |} ] |} ].
Proof. vm_compute. reflexivity. Qed.

(** Case analysis on the innermost scrutinee of the goal. *)
Ltac break_match :=
  match goal with
  | |- context [match ?x with _ => _ end] =>
      lazymatch x with
      | context [match _ with _ => _ end] => fail
      | _ => destruct x
      end
  end.

(** ** Maps *)

Section AssocFacts.
Variable V : Type.

Lemma mapGet_mapSet (k k' : string) (v : V) (m : list (string * V)) :
  mapGet k (mapSet k' v m) = if String.eqb k k' then Some v else mapGet k m.
Proof.
  induction m as [|[k0 v0] m IH]; simpl.
  - destruct (String.eqb k k'); reflexivity.
  - destruct (String.eqb k' k0) eqn:E0; simpl.
    + apply String.eqb_eq in E0; subst k0.
      destruct (String.eqb k k'); reflexivity.
    + rewrite IH.
      destruct (String.eqb k k') eqn:E1; [|reflexivity].
      apply String.eqb_eq in E1; subst k'.
      rewrite E0; reflexivity.
Qed.

Lemma mapGet_mapSet_same (k : string) (v : V) (m : list (string * V)) :
  mapGet k (mapSet k v m) = Some v.
Proof. rewrite mapGet_mapSet, String.eqb_refl; reflexivity. Qed.

Lemma mapGet_of_In (k : string) (v : V) (m : list (string * V)) :
  In (k, v) m -> mapGet k m <> None.
Proof.
  induction m as [|[k0 v0] m IH]; simpl; [tauto|].
  intros [E|H].
  - inversion E; subst. rewrite String.eqb_refl; discriminate.
  - destruct (String.eqb k k0); [discriminate|auto].
Qed.
End AssocFacts.

(** ** The install materializer *)

Section MaterializerFacts.
Variable host : Host.

Lemma npmRuns_record (e : Event) (created : list string) (w : World) :
  npmRuns (record e created w) = npmRuns w + (if isNpmRun e then 1 else 0).
Proof.
  unfold npmRuns, record; simpl.
  rewrite filter_app, length_app; simpl.
  destruct (isNpmRun e); reflexivity.
Qed.

Lemma worldPathExists_record (e : Event) (created : list string) (w : World)
      (p : string) :
  worldPathExists w p = true -> worldPathExists (record e created w) p = true.
Proof.
  unfold worldPathExists, record; simpl.
  induction created as [|c cs IH]; simpl; [tauto|].
  intro H. destruct (String.eqb p c); auto.
Qed.

Lemma worldPathExists_created (e : Event) (w : World) (p : string) :
  worldPathExists (record e [p] w) p = true.
Proof. unfold worldPathExists, record; simpl. rewrite String.eqb_refl; reflexivity. Qed.

(** A call leaves a world in which the directory exists, unless it
    stopped before creating it, and then it started no process. *)
Lemma prepare_outcome (install : NpmInstall) (w : World) :
  let w' := fst (prepareVersionDirectory host install w) in
  (worldPathExists w' (installDir install) = true /\ npmRuns w' <= npmRuns w + 1)
  \/ npmRuns w' = npmRuns w.
Proof.
  unfold prepareVersionDirectory.
  destruct (worldPathExists w (installDir install)) eqn:Hex; simpl.
  - left; split; [assumption|lia].
  - destruct (ensureDirError host _ _); simpl.
    + right. rewrite npmRuns_record; simpl; lia.
    + left.
      destruct (writeJsonError host _ _); simpl.
      * split; [apply worldPathExists_created|].
        rewrite !npmRuns_record; simpl; lia.
      * unfold npmInstall.
        destruct (npmInstallFails host _ _); simpl;
          (split; [do 2 apply worldPathExists_record; apply worldPathExists_created|
                   rewrite !npmRuns_record; simpl; lia]).
Qed.
End MaterializerFacts.

(** C9.  If the install directory exists, [prepareVersionDirectory]
    returns at once and the world is the one it was given: no directory
    is made, no manifest written, no process started.  Hence two calls
    in a row with the same install start [npm install] at most once. *)
Theorem prepareVersionDirectory_idempotent (host : Host) (install : NpmInstall)
        (w : World) :
  (worldPathExists w (installDir install) = true ->
   prepareVersionDirectory host install w = (w, Ok tt))
  /\ (let w1 := fst (prepareVersionDirectory host install w) in
      let w2 := fst (prepareVersionDirectory host install w1) in
      npmRuns w2 <= npmRuns w + 1).
Proof.
  split.
  - intro H. unfold prepareVersionDirectory. rewrite H. reflexivity.
  - cbv zeta.
    destruct (prepare_outcome host install w) as [[Hex Hn]|Hn].
    + unfold prepareVersionDirectory at 1. rewrite Hex. simpl. exact Hn.
    + pose proof (prepare_outcome host install
                    (fst (prepareVersionDirectory host install w))) as H2.
      cbv zeta in H2. destruct H2 as [[_ H2]|H2]; lia.
Qed.

Lemma prepareVersionDirectory_idempotent_witness :
  let install := {| installDir := "/repo/installs/abc";
                    packageJson := {| private := true; dependencies := [] |} |} in
  let w1 := fst (prepareVersionDirectory Fixture.host install Fixture.emptyWorld) in
  prepareVersionDirectory Fixture.host install w1 = (w1, Ok tt)
  /\ npmRuns w1 = 1.
Proof.
  cbv zeta. split.
  - apply (proj1 (prepareVersionDirectory_idempotent Fixture.host
                    {| installDir := "/repo/installs/abc";
                       packageJson := {| private := true; dependencies := [] |} |}
                    (fst (prepareVersionDirectory Fixture.host
                            {| installDir := "/repo/installs/abc";
                               packageJson := {| private := true; dependencies := [] |} |}
                            Fixture.emptyWorld)))).
    vm_compute. reflexivity.
  - vm_compute. reflexivity.
Defined.

(** ** The plan grouper: both maps hold the same keys *)

Section PlannerFacts.
Variable disk : Disk.

Lemma groupSpec_keysCovered (benchmarkRoot : string) (spec : JsVal)
      (st st' : GroupState) :
  groupSpec disk benchmarkRoot spec st = Ok st' ->
  keysCovered st -> keysCovered st'.
Proof.
  unfold groupSpec, keysCovered.
  destruct (resolveSpec disk benchmarkRoot spec) as [[| |dir impl lbl deps]|e];
    simpl; intros H Hcov; inversion H; subst; clear H; simpl; auto.
  intro key. rewrite !mapGet_mapSet.
  destruct (String.eqb key _); [discriminate|auto].
Qed.

Lemma groupSpecs_keysCovered (benchmarkRoot : string) (specs : list JsVal) :
  forall st st',
    groupSpecs disk benchmarkRoot specs st = Ok st' ->
    keysCovered st -> keysCovered st'.
Proof.
  induction specs as [|spec rest IH]; simpl; intros st st' H Hcov.
  - inversion H; subst; assumption.
  - destruct (groupSpec disk benchmarkRoot spec st) as [st1|e] eqn:E; simpl in H;
      [|discriminate].
    eapply IH; eauto using groupSpec_keysCovered.
Qed.

Lemma resolveSpec_not_internal (benchmarkRoot : string) (spec : JsVal) (key : string) :
  resolveSpec disk benchmarkRoot spec <> Throw (InternalNoDeps key).
Proof.
  unfold resolveSpec, getProp, pathArg, fileKind, findPackageJsonPath, await,
    awaitUnlessMissing, bind.
  repeat break_match; discriminate.
Qed.

Lemma groupSpecs_not_internal (benchmarkRoot : string) (specs : list JsVal)
      (key : string) :
  forall st, groupSpecs disk benchmarkRoot specs st <> Throw (InternalNoDeps key).
Proof.
  induction specs as [|spec rest IH]; simpl; intro st; [discriminate|].
  unfold groupSpec at 1.
  pose proof (@resolveSpec_not_internal benchmarkRoot spec key) as Hr.
  destruct (resolveSpec disk benchmarkRoot spec) as [[| |dir impl lbl deps]|e];
    simpl; try apply IH.
  intro H; inversion H; subst; apply Hr; reflexivity.
Qed.

Lemma JSON_parse_throws (text : string) (e : Error) :
  JSON_parse text = Throw e -> e = SyntaxError text.
Proof.
  unfold JSON_parse.
  repeat break_match; intro H; inversion H; reflexivity.
Qed.

Lemma emitPlans_not_internal (benchmarkRoot npmInstallRoot : string)
      (deps : list (string * list (string * JsVal))) (key : string) :
  forall entries plans,
    (forall k v, In (k, v) entries -> mapGet k deps <> None) ->
    emitPlans disk benchmarkRoot npmInstallRoot deps entries plans
    <> Throw (InternalNoDeps key).
Proof.
  induction entries as [|[k v] rest IH]; intros plans Hcov; [discriminate|].
  cbn [emitPlans]. unfold emitPlan.
  destruct (JSON_parse k) as [parts|e] eqn:Ep; simpl;
    [|apply JSON_parse_throws in Ep; subst e; discriminate].
  assert (Hk : mapGet k deps <> None) by (apply (Hcov k v); left; reflexivity).
  destruct parts as [|p0 [|p1 [|p2 [|p3 ps]]]]; simpl; try discriminate.
  destruct (mapGet k deps) as [d|]; [|congruence].
  simpl. apply IH. intros k' v' Hin. apply (Hcov k' v'). right; assumption.
Qed.
End PlannerFacts.

(** C10.  When the first loop of [makeServerPlans] ends, every key of
    [keySpecs] is a key of [keyDeps], whatever the specs and the disk;
    so the plans are emitted without reaching
    [throw new Error(`Internal error: no deps for key ...`)]. *)
Theorem makeServerPlans_keys_have_deps (disk : Disk)
        (benchmarkRoot npmInstallRoot : string) (specs : list JsVal) :
  (forall st,
      groupSpecs disk benchmarkRoot specs (mkGroupState [] [] []) = Ok st ->
      forall key, mapGet key (keySpecs st) <> None -> mapGet key (keyDeps st) <> None)
  /\ (forall key,
         makeServerPlans disk benchmarkRoot npmInstallRoot specs
         <> Throw (InternalNoDeps key)).
Proof.
  assert (Hcov : forall st,
             groupSpecs disk benchmarkRoot specs (mkGroupState [] [] []) = Ok st ->
             keysCovered st).
  { intros st H. eapply groupSpecs_keysCovered; [exact H|].
    intros key Hk; simpl in Hk; congruence. }
  split; [exact Hcov|].
  intro key. unfold makeServerPlans.
  pose proof (@groupSpecs_not_internal disk benchmarkRoot specs key
                (mkGroupState [] [] [])) as Hg.
  destruct (groupSpecs disk benchmarkRoot specs (mkGroupState [] [] [])) as [st|e] eqn:E;
    simpl; [|congruence].
  apply emitPlans_not_internal.
  intros k v Hin. apply (Hcov st eq_refl). eapply mapGet_of_In; eassumption.
Qed.

Lemma makeServerPlans_keys_have_deps_witness :
  exists st,
    groupSpecs Fixture.disk "/repo/benchmarks"
      [ localSpec "bench" "lit" (Fixture.v "old" "0.9.0");
        localSpec "Zeta" "lit" (Fixture.v "new" "1.1.0") ]
      (mkGroupState [] [] []) = Ok st
    /\ forall key, mapGet key (keySpecs st) <> None -> mapGet key (keyDeps st) <> None.
Proof.
  eexists. split.
  - vm_compute. reflexivity.
  - apply (proj1 (makeServerPlans_keys_have_deps Fixture.disk "/repo/benchmarks"
                    "/repo/installs"
                    [ localSpec "bench" "lit" (Fixture.v "old" "0.9.0");
                      localSpec "Zeta" "lit" (Fixture.v "new" "1.1.0") ])).
    vm_compute. reflexivity.
Defined.

(** ** The planner on the objects of the expander *)

Lemma makeServerPlans_on_expander_specs (disk : Disk)
      (benchmarkRoot npmInstallRoot : string) (specs : list BenchmarkSpec) :
  makeServerPlans disk benchmarkRoot npmInstallRoot (map specToJs specs)
  = match specs with
    | [] => Ok []
    | _ :: _ => Throw (TypeError "Cannot read property 'kind' of undefined")
    end.
Proof.
  destruct specs as [|s rest]; reflexivity.
Qed.

(** C1, as the code has it.  The specs returned by [specsFromOpts] hold
    [name], [implementation], [version] (with [label] and
    [dependencyOverrides]), [variant] and [config], and no [url]; the
    planner reads the kind, the implementation and the version under
    [spec.url].  So [makeServerPlans] on the output of [specsFromOpts]
    returns, with no plan, when that output is empty, and otherwise
    stops at its first spec with the TypeError of reading [kind] of
    [undefined]. *)
Theorem expander_specs_in_planner (localeCompare : string -> string -> Z)
        (disk : Disk) (repoRoot : string) (opts : Opts.t)
        (benchmarkRoot npmInstallRoot : string) (specs : list BenchmarkSpec) :
  specsFromOpts localeCompare disk repoRoot opts = Ok specs ->
  (forall s, In s specs ->
     getProp (specToJs s) "url" = Ok JUndefined
     /\ getProp (specToJs s) "name" = Ok (JStr (Spec.name s))
     /\ getProp (specToJs s) "implementation" = Ok (JStr (Spec.implementation s))
     /\ getProp (specToJs s) "version" = Ok (versionToJs (Spec.version s))
     /\ getProp (versionToJs (Spec.version s)) "label"
        = Ok (JStr (label (Spec.version s))))
  /\ makeServerPlans disk benchmarkRoot npmInstallRoot (map specToJs specs)
     = match specs with
       | [] => Ok []
       | _ :: _ => Throw (TypeError "Cannot read property 'kind' of undefined")
       end.
Proof.
  intros _. split.
  - intros s _. repeat split; reflexivity.
  - apply makeServerPlans_on_expander_specs.
Qed.

Lemma expander_specs_in_planner_witness :
  exists specs,
    specsFromOpts localeCompareAscii Fixture.disk "/repo" Fixture.versionOpts = Ok specs
    /\ makeServerPlans Fixture.disk "/repo/benchmarks" "/repo/installs"
         (map specToJs specs)
       = match specs with
         | [] => Ok []
         | _ :: _ => Throw (TypeError "Cannot read property 'kind' of undefined")
         end.
Proof.
  eexists. split.
  - vm_compute. reflexivity.
  - apply (expander_specs_in_planner localeCompareAscii Fixture.disk "/repo"
             Fixture.versionOpts "/repo/benchmarks" "/repo/installs").
    vm_compute. reflexivity.
Defined.

(** C1 as stated fails: the expander returns two specs for the options
    [lit/old], [lit/new], and the planner throws on them. *)
Lemma expander_specs_rejected_by_planner :
  exists s1 s2,
    specsFromOpts localeCompareAscii Fixture.disk "/repo" Fixture.versionOpts
    = Ok [s1; s2]
    /\ makeServerPlans Fixture.disk "/repo/benchmarks" "/repo/installs"
         (map specToJs [s1; s2])
       = Throw (TypeError "Cannot read property 'kind' of undefined").
Proof.
  do 2 eexists. split; vm_compute; reflexivity.
Qed.

(** ** Sorting *)

Section SortFacts.
Variable A : Type.
Variable cmp : A -> A -> Z.

Lemma In_insertSorted (x y : A) (l : list A) :
  In y (insertSorted cmp x l) <-> y = x \/ In y l.
Proof.
  induction l as [|z l IH]; simpl.
  - intuition.
  - destruct (cmp x z <? 0)%Z; simpl; [intuition|].
    rewrite IH. intuition.
Qed.

Lemma In_arraySort_acc (y : A) (l : list A) :
  forall acc,
    In y (fold_left (fun acc x => insertSorted cmp x acc) l acc) <-> In y acc \/ In y l.
Proof.
  induction l as [|x l IH]; simpl; intro acc.
  - intuition.
  - rewrite IH, In_insertSorted. intuition.
Qed.

Lemma In_arraySort (y : A) (l : list A) : In y (arraySort cmp l) <-> In y l.
Proof. unfold arraySort. rewrite In_arraySort_acc. simpl. intuition. Qed.

Hypothesis cmp_sign : forall x y, (0 <= cmp x y)%Z -> (cmp y x <= 0)%Z.




End SortFacts.

(** ** The expander: order of the result *)









(** ** The expander: what every emission preserves *)

Section ExpanderFacts.
Variable disk : Disk.
Variable versions : VersionMap.
Variable P : list BenchmarkSpec -> Prop.

Hypothesis P_push :
  forall name implementation variant config specs,
    P specs ->
    P (pushVersions name implementation variant config
         (implVersionsOf versions implementation) specs).

Lemma pushVariants_preserves (name implementation : string) (requested : list string)
      (declared : list Variant) :
  forall specs,
    P specs ->
    P (pushVariants name implementation requested
         (implVersionsOf versions implementation) declared specs).
Proof.
  induction declared as [|v rest IH]; simpl; intros specs H; [assumption|].
  apply IH. destruct (vname v) as [n|]; [|assumption].
  destruct (_ && _)%bool; [apply P_push|]; assumption.
Qed.

Lemma expandBenchmark_preserves (opts : Opts.t) (requested : list string)
      (implementation implDir name : string) (specs specs' : list BenchmarkSpec) :
  expandBenchmark disk versions opts requested implementation implDir name specs
  = Ok specs' ->
  P specs -> P specs'.
Proof.
  unfold expandBenchmark. intros H Hp.
  destruct (negb _); [inversion H; subst; assumption|].
  destruct (awaitUnlessMissing _) as [cfg|e]; simpl in H; [|discriminate].
  destruct cfg as [[[[|v vs]|]]|];
    try (destruct (String.eqb (Opts.variant opts) "*");
         inversion H; subst; [apply P_push|]; assumption).
  inversion H; subst.
  exact (@pushVariants_preserves name implementation requested (v :: vs) specs Hp).
Qed.

Lemma expandBenchmarks_preserves (opts : Opts.t) (requested : list string)
      (implementation implDir : string) (benchmarks : list string) :
  forall specs specs',
    expandBenchmarks disk versions opts requested implementation implDir
      benchmarks specs = Ok specs' ->
    P specs -> P specs'.
Proof.
  induction benchmarks as [|name rest IH]; simpl; intros specs specs' H Hp.
  - inversion H; subst; assumption.
  - destruct (expandBenchmark _ _ _ _ _ _ _ _) as [s1|e] eqn:E; simpl in H;
      [|discriminate].
    eapply IH; [exact H|]. eapply expandBenchmark_preserves; eauto.
Qed.

Lemma expandImplementations_preserves (repoRoot : string) (opts : Opts.t)
      (requested : list string) (impls : list string) :
  forall specs specs',
    expandImplementations disk repoRoot versions opts requested impls specs
    = Ok specs' ->
    P specs -> P specs'.
Proof.
  induction impls as [|implementation rest IH]; simpl; intros specs specs' H Hp.
  - inversion H; subst; assumption.
  - destruct (expandImplementation _ _ _ _ _ _ _) as [s1|e] eqn:E; simpl in H;
      [|discriminate].
    eapply IH; [exact H|].
    unfold expandImplementation in E.
    destruct (if String.eqb (Opts.name opts) "*" then _ else _) as [bs|e];
      simpl in E; [|discriminate].
    eapply expandBenchmarks_preserves; eauto.
Qed.
End ExpanderFacts.

Lemma collectSpecs_preserves (disk : Disk) (repoRoot : string) (opts : Opts.t)
      (versions : VersionMap) (specs : list BenchmarkSpec)
      (P : list BenchmarkSpec -> Prop) :
  (forall name implementation variant config l,
      P l ->
      P (pushVersions name implementation variant config
           (implVersionsOf versions implementation) l)) ->
  parsePackageVersions (Opts.packageVersion opts) = Ok versions ->
  collectSpecs disk repoRoot opts = Ok specs ->
  P [] -> P specs.
Proof.
  intros Hpush Hv H H0. unfold collectSpecs in H. rewrite Hv in H. simpl in H.
  destruct (if String.eqb (Opts.implementation opts) "*" then _ else _) as [impls|e];
    simpl in H; [|discriminate].
  eapply expandImplementations_preserves; eauto.
Qed.

(** ** The expander: the versions of an implementation *)

Lemma pushVersions_usesVersions (versions : VersionMap)
      (name implementation variant : string) (config : JsVal)
      (l : list BenchmarkSpec) :
  usesVersions versions l ->
  usesVersions versions
    (pushVersions name implementation variant config
       (implVersionsOf versions implementation) l).
Proof.
  unfold usesVersions, pushVersions. intros H s Hin.
  apply in_app_or in Hin. destruct Hin as [Hin|Hin].
  - destruct (H s Hin) as [H1 H2]. split; [assumption|].
    intros v Hv. apply in_or_app. left. auto.
  - apply in_map_iff in Hin. destruct Hin as [v0 [E Hv0]]. subst s. simpl.
    split; [assumption|].
    intros v Hv. apply in_or_app. right. unfold withVersion; simpl.
    apply in_map_iff. exists v. split; [reflexivity|assumption].
Qed.

(** ** The parser never stores an empty version list *)

Lemma parseFlag_arraysNonEmpty (flag : string) (st st' : ParseState) :
  parseFlag flag st = Ok st' ->
  arraysNonEmpty (versions st) -> arraysNonEmpty (versions st').
Proof.
  unfold parseFlag. intros H Hne.
  destruct (strMatch flagRe flag) as [m|]; [|discriminate].
  cbv zeta in H.
  match type of H with
  | bind ?r _ = _ => destruct r as [[labels deps]|e]; simpl in H; [|discriminate]
  end.
  inversion H; subst; clear H. simpl.
  intros k arr. rewrite mapGet_mapSet.
  destruct (String.eqb k _).
  - intro E; inversion E. destruct (mapGet _ (versions st)) as [a|]; [destruct a|];
      discriminate.
  - apply Hne.
Qed.

Lemma parseFlags_arraysNonEmpty (flags : list string) :
  forall st st',
    parseFlags flags st = Ok st' ->
    arraysNonEmpty (versions st) -> arraysNonEmpty (versions st').
Proof.
  induction flags as [|flag rest IH]; simpl; intros st st' H Hne.
  - inversion H; subst; assumption.
  - destruct (parseFlag flag st) as [st1|e] eqn:E; simpl in H; [|discriminate].
    eapply IH; eauto using parseFlag_arraysNonEmpty.
Qed.

Lemma parsePackageVersions_arraysNonEmpty (flags : list string) (m : VersionMap) :
  parsePackageVersions flags = Ok m -> arraysNonEmpty m.
Proof.
  unfold parsePackageVersions. intro H.
  destruct (parseFlags flags _) as [st|e] eqn:E; simpl in H; [|discriminate].
  inversion H; subst.
  eapply parseFlags_arraysNonEmpty; [exact E|].
  intros k arr Hk; discriminate.
Qed.

Lemma implVersionsOf_nonEmpty (flags : list string) (m : VersionMap)
      (implementation : string) :
  parsePackageVersions flags = Ok m -> implVersionsOf m implementation <> [].
Proof.
  intro H. unfold implVersionsOf.
  destruct (mapGet implementation m) as [arr|] eqn:E; [|discriminate].
  eapply parsePackageVersions_arraysNonEmpty; eauto.
Qed.

(** ** The expander: variants of one benchmark *)

Lemma pushVariants_none_requested (name implementation : string)
      (requested : list string) (implVersions : list PackageVersion)
      (declared : list Variant) :
  strMem "*" requested = false ->
  (forall d n, In d declared -> vname d = Some n -> strMem n requested = false) ->
  forall specs,
    pushVariants name implementation requested implVersions declared specs = specs.
Proof.
  intros Hstar. induction declared as [|d rest IH]; simpl; intros Habs specs;
    [reflexivity|].
  rewrite IH by (intros; eapply Habs; eauto).
  destruct (vname d) as [n|] eqn:E; [|reflexivity].
  rewrite Hstar, (Habs d n (or_introl eq_refl) E), andb_false_r. reflexivity.
Qed.

(** ** The expander: the specs of one benchmark in the result *)

Section ExpanderSteps.
Variable disk : Disk.
Variable repoRoot : string.
Variable versions : VersionMap.
Variable opts : Opts.t.
Variable P : list BenchmarkSpec -> Prop.

Hypothesis P_step :
  forall implementation name specs specs',
    expandBenchmark disk versions opts (requestedVariants opts) implementation
      (path_join [repoRoot; "benchmarks"; implementation]) name specs = Ok specs' ->
    P specs -> P specs'.

Lemma expandBenchmarks_steps (implementation : string) (benchmarks : list string) :
  forall specs specs',
    expandBenchmarks disk versions opts (requestedVariants opts) implementation
      (path_join [repoRoot; "benchmarks"; implementation]) benchmarks specs = Ok specs' ->
    P specs -> P specs'.
Proof.
  induction benchmarks as [|name rest IH]; simpl; intros specs specs' H Hp.
  - inversion H; subst; assumption.
  - destruct (expandBenchmark _ _ _ _ _ _ _ _) as [s1|e] eqn:E; simpl in H;
      [|discriminate].
    eapply IH; [exact H|]. eapply P_step; eauto.
Qed.

Lemma expandImplementations_steps (impls : list string) :
  forall specs specs',
    expandImplementations disk repoRoot versions opts (requestedVariants opts)
      impls specs = Ok specs' ->
    P specs -> P specs'.
Proof.
  induction impls as [|implementation rest IH]; simpl; intros specs specs' H Hp.
  - inversion H; subst; assumption.
  - destruct (expandImplementation _ _ _ _ _ _ _) as [s1|e] eqn:E; simpl in H;
      [|discriminate].
    eapply IH; [exact H|].
    unfold expandImplementation in E.
    destruct (if String.eqb (Opts.name opts) "*" then _ else _) as [bs|e];
      simpl in E; [|discriminate].
    eapply expandBenchmarks_steps; eauto.
Qed.
End ExpanderSteps.

Lemma collectSpecs_steps (disk : Disk) (repoRoot : string) (opts : Opts.t)
      (specs : list BenchmarkSpec) (P : list BenchmarkSpec -> Prop) :
  (forall versions implementation name l l',
      expandBenchmark disk versions opts (requestedVariants opts) implementation
        (path_join [repoRoot; "benchmarks"; implementation]) name l = Ok l' ->
      P l -> P l') ->
  collectSpecs disk repoRoot opts = Ok specs ->
  P [] -> P specs.
Proof.
  intros Hstep H H0. unfold collectSpecs in H.
  destruct (parsePackageVersions (Opts.packageVersion opts)) as [versions|e];
    simpl in H; [|discriminate].
  destruct (if String.eqb (Opts.implementation opts) "*" then _ else _) as [impls|e];
    simpl in H; [|discriminate].
  eapply expandImplementations_steps; eauto.
Qed.

Lemma pushVariants_adds (name implementation : string) (requested : list string)
      (implVersions : list PackageVersion) (declared : list Variant) :
  forall specs,
    exists added,
      pushVariants name implementation requested implVersions declared specs
      = specs ++ added
      /\ Forall (fun s => Spec.name s = name /\ Spec.implementation s = implementation)
                added.
Proof.
  induction declared as [|v rest IH]; simpl; intro specs.
  - exists []. rewrite app_nil_r. split; constructor.
  - destruct (vname v) as [n|]; [|apply IH].
    destruct (_ && _)%bool; [|apply IH].
    unfold pushVersions.
    destruct (IH (specs ++ map (fun version =>
                                  Spec.mk name implementation version n
                                    match vconfig v with
                                    | Some c => if truthy c then c else JObj []
                                    | None => JObj []
                                    end) implVersions)) as [added [E Hall]].
    eexists. rewrite E, <- app_assoc. split; [reflexivity|].
    apply Forall_app. split; [|assumption].
    apply Forall_forall. intros s Hs. apply in_map_iff in Hs.
    destruct Hs as [ver [Es _]]. subst s. split; reflexivity.
Qed.

(** What one benchmark adds carries its name and its implementation. *)
Lemma expandBenchmark_adds (disk : Disk) (versions : VersionMap) (opts : Opts.t)
      (requested : list string) (implementation implDir name : string)
      (specs specs' : list BenchmarkSpec) :
  expandBenchmark disk versions opts requested implementation implDir name specs
  = Ok specs' ->
  exists added,
    specs' = specs ++ added
    /\ Forall (fun s => Spec.name s = name /\ Spec.implementation s = implementation)
              added.
Proof.
  unfold expandBenchmark. intro H.
  assert (Hnone : exists added : list BenchmarkSpec,
             specs = specs ++ added
             /\ Forall (fun s => Spec.name s = name
                                 /\ Spec.implementation s = implementation) added)
    by (exists []; rewrite app_nil_r; split; constructor).
  assert (Hall : exists added : list BenchmarkSpec,
             pushVersions name implementation EmptyString (JObj [])
               (implVersionsOf versions implementation) specs = specs ++ added
             /\ Forall (fun s => Spec.name s = name
                                 /\ Spec.implementation s = implementation) added).
  { unfold pushVersions. eexists. split; [reflexivity|].
    apply Forall_forall. intros s Hs. apply in_map_iff in Hs.
    destruct Hs as [ver [Es _]]. subst s. split; reflexivity. }
  destruct (negb _); [inversion H; subst; assumption|].
  destruct (awaitUnlessMissing _) as [cfg|e]; cbn [bind] in H; [|discriminate].
  destruct cfg as [[[[|v vs]|]]|];
    try (destruct (String.eqb (Opts.variant opts) "*");
         inversion H; subst; assumption).
  inversion H; subst.
  exact (pushVariants_adds name implementation requested
           (implVersionsOf versions implementation) (v :: vs) specs).
Qed.

Section OneBenchmark.
Variable disk : Disk.
Variable versions : VersionMap.
Variable opts : Opts.t.
Variables implementation implDir name : string.

Let configFile : string := path_join [path_join [implDir; name]; "benchmarks.json"].

Lemma expandBenchmark_none_requested (v : Variant) (vs : list Variant)
      (specs : list BenchmarkSpec) :
  readConfigJson disk configFile = Done {| variants := Some (v :: vs) |} ->
  strMem "*" (requestedVariants opts) = false ->
  (forall d n, In d (v :: vs) -> vname d = Some n ->
               strMem n (requestedVariants opts) = false) ->
  expandBenchmark disk versions opts (requestedVariants opts) implementation implDir
    name specs
  = Ok specs.
Proof.
  intros Hcfg Hstar Habs. unfold expandBenchmark.
  destruct (negb _); [reflexivity|].
  fold configFile. rewrite Hcfg. cbn [awaitUnlessMissing bind].
  rewrite (@pushVariants_none_requested name implementation _ _ (v :: vs) Hstar Habs).
  reflexivity.
Qed.

Lemma expandBenchmark_no_variants (config : option ConfigFormat)
      (specs : list BenchmarkSpec) :
  awaitUnlessMissing (readConfigJson disk configFile) = Ok config ->
  declaresNoVariants config ->
  expandBenchmark disk versions opts (requestedVariants opts) implementation implDir
    name specs
  = Ok (if (pathExists disk (path_join [implDir; name])
            && String.eqb (Opts.variant opts) "*")%bool
        then pushVersions name implementation EmptyString (JObj [])
               (implVersionsOf versions implementation) specs
        else specs).
Proof.
  intros Hcfg Hno. unfold expandBenchmark.
  destruct (pathExists disk _); [|reflexivity]. cbn [negb andb].
  fold configFile. rewrite Hcfg. cbn [bind].
  destruct config as [[[[|v vs]|]]|];
    try (destruct (String.eqb (Opts.variant opts) "*"); reflexivity).
  destruct Hno as [Hno|Hno]; discriminate.
Qed.
End OneBenchmark.

Lemma sameBenchmark_dec (name implementation name' implementation' : string) :
  (name' = name /\ implementation' = implementation)
  \/ (name' <> name \/ implementation' <> implementation).
Proof.
  destruct (string_dec name' name); destruct (string_dec implementation' implementation);
    auto.
Qed.

(** The specs of one benchmark in the list collected by the loops. *)
Lemma collectSpecs_benchmark (disk : Disk) (repoRoot : string) (opts : Opts.t)
      (implementation name : string) (specs : list BenchmarkSpec)
      (Q : BenchmarkSpec -> Prop) :
  (forall versions l l',
      expandBenchmark disk versions opts (requestedVariants opts) implementation
        (path_join [repoRoot; "benchmarks"; implementation]) name l = Ok l' ->
      forall s, In s l' -> In s l \/ Q s) ->
  collectSpecs disk repoRoot opts = Ok specs ->
  forall s, In s specs ->
            Spec.name s = name -> Spec.implementation s = implementation -> Q s.
Proof.
  intros Hown H.
  apply (@collectSpecs_steps disk repoRoot opts specs
           (fun l => forall s, In s l -> Spec.name s = name ->
                               Spec.implementation s = implementation -> Q s));
    [|assumption|intros s []].
  intros versions implementation' name' l l' Hstep Hl s Hin Hn Hi.
  destruct (sameBenchmark_dec name implementation name' implementation')
    as [[En Ei]|Hother].
  - subst name' implementation'.
    destruct (Hown versions l l' Hstep s Hin); auto.
  - destruct (expandBenchmark_adds _ _ _ _ _ _ _ _ Hstep) as [added [E Hall]].
    subst l'. apply in_app_or in Hin. destruct Hin as [Hin|Hin]; [auto|].
    rewrite Forall_forall in Hall. destruct (Hall s Hin) as [Hn' Hi'].
    exfalso. destruct Hother as [Hne|Hne]; apply Hne; congruence.
Qed.

(** ** Strings *)

Lemma append_nil_r (s : string) : s ^^ EmptyString = s.
Proof. induction s; simpl; congruence. Qed.

Lemma append_assoc (a b c : string) : (a ^^ b) ^^ c = a ^^ b ^^ c.
Proof. induction a; simpl; congruence. Qed.

Lemma length_append (a b : string) :
  String.length (a ^^ b) = String.length a + String.length b.
Proof. induction a; simpl; congruence. Qed.


Lemma substring_prefix (a b : string) :
  substring 0 (String.length a) (a ^^ b) = a.
Proof. induction a; simpl; [destruct b; reflexivity|congruence]. Qed.

Lemma consumed_append (a b : string) : consumed (a ^^ b) b = a.
Proof.
  unfold consumed. rewrite length_append.
  replace (String.length a + String.length b - String.length b)
    with (String.length a) by lia.
  apply substring_prefix.
Qed.

Lemma consumed_all (a : string) : consumed a EmptyString = a.
Proof.
  rewrite <- (append_nil_r a) at 1. apply consumed_append.
Qed.

Lemma allChars_append (ok : ascii -> bool) (a b : string) :
  allChars ok (a ^^ b) = (allChars ok a && allChars ok b)%bool.
Proof. induction a; simpl; [reflexivity|rewrite IHa, andb_assoc; reflexivity]. Qed.

Lemma allChars_weaken (ok ok' : ascii -> bool) (s : string) :
  (forall c, ok c = true -> ok' c = true) ->
  allChars ok s = true -> allChars ok' s = true.
Proof.
  intro H. induction s; simpl; [reflexivity|].
  rewrite !andb_true_iff. intuition.
Qed.

Lemma plainChar_true (stops : list ascii) (c : ascii) :
  plainChar stops c = true ->
  isLineTerminator c = false /\ forall d, In d stops -> Ascii.eqb d c = false.
Proof.
  unfold plainChar. rewrite andb_true_iff, !negb_true_iff. intros [H1 H2].
  split; [assumption|]. intros d Hd.
  destruct (Ascii.eqb d c) eqn:E; [|reflexivity].
  apply Ascii.eqb_eq in E; subst d.
  assert (existsb (Ascii.eqb c) stops = true)
    by (apply existsb_exists; exists c; split; [assumption|apply Ascii.eqb_refl]).
  congruence.
Qed.

Lemma nonEmpty_true (s : string) :
  nonEmpty s = true -> exists c s', s = String c s'.
Proof. destruct s; [discriminate|eauto]. Qed.

Lemma startsWith_append (p : string) (c : ascii) :
  allChars (fun a => negb (Ascii.eqb a c)) p = true ->
  forall l u, startsWith p (l ^^ String c u) = startsWith p l.
Proof.
  induction p as [|a p IH]; simpl; intros Hp l u; [reflexivity|].
  apply andb_true_iff in Hp. destruct Hp as [Ha Hp].
  destruct l as [|b l]; simpl.
  - apply negb_true_iff in Ha. rewrite Ha. reflexivity.
  - rewrite IH by assumption. reflexivity.
Qed.

(** ** Splitting and joining *)

Lemma splitOn_plain (sep : ascii) (x : string) :
  allChars (fun a => negb (Ascii.eqb a sep)) x = true -> splitOn sep x = [x].
Proof.
  induction x as [|c x IH]; simpl; [reflexivity|].
  rewrite andb_true_iff, negb_true_iff. intros [Hc Hx].
  rewrite Hc, IH by assumption. reflexivity.
Qed.

Lemma splitOn_append (sep : ascii) (x rest : string) :
  allChars (fun a => negb (Ascii.eqb a sep)) x = true ->
  splitOn sep (x ^^ String sep rest) = x :: splitOn sep rest.
Proof.
  induction x as [|c x IH]; simpl.
  - rewrite Ascii.eqb_refl. reflexivity.
  - rewrite andb_true_iff, negb_true_iff. intros [Hc Hx].
    rewrite Hc, IH by assumption. reflexivity.
Qed.

Lemma splitOn_joinWith (sep : ascii) (l : list string) :
  l <> [] ->
  Forall (fun x => allChars (fun a => negb (Ascii.eqb a sep)) x = true) l ->
  splitOn sep (joinWith (String sep EmptyString) l) = l.
Proof.
  induction l as [|x l IH]; [congruence|]. intros _ H.
  inversion H as [|? ? Hx Hl]; subst.
  destruct l as [|y l].
  - simpl. apply splitOn_plain; assumption.
  - change (joinWith (String sep EmptyString) (x :: y :: l))
      with (x ^^ String sep EmptyString ^^ joinWith (String sep EmptyString) (y :: l)).
    change (String sep EmptyString ^^ joinWith (String sep EmptyString) (y :: l))
      with (String sep (joinWith (String sep EmptyString) (y :: l))).
    rewrite splitOn_append by assumption.
    f_equal. apply IH; [discriminate|assumption].
Qed.

(** ** The matcher *)

Lemma dotPlusLazy_first (k : string -> option Caps) (sep : ascii) (r : Caps) :
  (forall d u, Ascii.eqb sep d = false -> k (String d u) = None) ->
  forall x c t,
    isLineTerminator c = false ->
    allChars (plainChar [sep]) x = true ->
    k t = Some r ->
    dotPlusLazy k (String c (x ^^ t)) = Some r.
Proof.
  intros Hk. induction x as [|d x IH]; simpl; intros c t Hc Hx Ht.
  - rewrite Hc, Ht. reflexivity.
  - apply andb_true_iff in Hx. destruct Hx as [Hd Hx].
    apply plainChar_true in Hd. destruct Hd as [Hlt Hsep].
    rewrite Hc, Hk by (apply Hsep; left; reflexivity).
    apply IH; assumption.
Qed.

Lemma dotPlusGreedy_all (k : string -> option Caps) (r : Caps) :
  k EmptyString = Some r ->
  forall x c,
    isLineTerminator c = false ->
    allChars (fun a => negb (isLineTerminator a)) x = true ->
    dotPlusGreedy k (String c x) = Some r.
Proof.
  intros Hk. induction x as [|d x IH]; intros c Hc Hx.
  - simpl. rewrite Hc, Hk. reflexivity.
  - simpl in Hx. apply andb_true_iff in Hx. destruct Hx as [Hd Hx].
    apply negb_true_iff in Hd.
    change (dotPlusGreedy k (String c (String d x)))
      with (if isLineTerminator c then None
            else match dotPlusGreedy k (String d x) with
                 | Some res => Some res
                 | None => k (String d x)
                 end).
    rewrite Hc, (IH d Hd Hx). reflexivity.
Qed.

Lemma dotPlusGreedy_none (k : string -> option Caps) (sep : ascii) :
  (forall d u, Ascii.eqb sep d = false -> k (String d u) = None) ->
  k EmptyString = None ->
  forall x,
    allChars (fun a => negb (Ascii.eqb a sep)) x = true ->
    dotPlusGreedy k x = None /\ k x = None.
Proof.
  intros Hk H0. induction x as [|d x IH]; simpl; intro Hx; [auto|].
  apply andb_true_iff in Hx. destruct Hx as [Hd Hx].
  apply negb_true_iff in Hd. rewrite Ascii.eqb_sym in Hd.
  destruct (IH Hx) as [H1 H2]. rewrite H1, H2.
  split; [destruct (isLineTerminator d); reflexivity|apply Hk; assumption].
Qed.

Lemma dotPlusGreedy_last (k : string -> option Caps) (r : Caps) (t : string) :
  dotPlusGreedy k t = None ->
  k t = Some r ->
  forall x c,
    isLineTerminator c = false ->
    allChars (fun a => negb (isLineTerminator a)) x = true ->
    dotPlusGreedy k (String c (x ^^ t)) = Some r.
Proof.
  intros Hn Hk. induction x as [|d x IH]; intros c Hc Hx.
  - simpl. rewrite Hc, Hn, Hk. reflexivity.
  - simpl in Hx. apply andb_true_iff in Hx. destruct Hx as [Hd Hx].
    apply negb_true_iff in Hd.
    change (dotPlusGreedy k (String c (String d x ^^ t)))
      with (if isLineTerminator c then None
            else match dotPlusGreedy k (String d (x ^^ t)) with
                 | Some res => Some res
                 | None => k (String d (x ^^ t))
                 end).
    rewrite Hc, (IH d Hd Hx). reflexivity.
Qed.

Lemma matchRe_lit (p : string) :
  forall s caps k,
    startsWith p s = false -> matchRe (lit p) s caps k = None.
Proof.
  induction p as [|a p IH]; simpl; intros s caps k H; [discriminate|].
  destruct s as [|b s]; [reflexivity|].
  destruct (Ascii.eqb a b); simpl in H; [apply IH; assumption|reflexivity].
Qed.

Lemma matchRe_lit_exact (p : string) :
  forall t caps k, matchRe (lit p) (p ^^ t) caps k = k t caps.
Proof.
  induction p as [|a p IH]; simpl; intros t caps k; [reflexivity|].
  rewrite Ascii.eqb_refl. apply IH.
Qed.

Lemma allChars_joinWith (ok : ascii -> bool) (sep : string) (l : list string) :
  allChars ok sep = true ->
  Forall (fun x => allChars ok x = true) l ->
  allChars ok (joinWith sep l) = true.
Proof.
  intros Hsep. induction l as [|x l IH]; intro H; [reflexivity|].
  inversion H as [|? ? Hx Hl]; subst.
  destruct l as [|y l]; [exact Hx|].
  change (joinWith sep (x :: y :: l)) with (x ^^ sep ^^ joinWith sep (y :: l)).
  rewrite !allChars_append, Hx, Hsep, IH by assumption. reflexivity.
Qed.

Lemma wellFormedEntry_text (e : string * string) :
  wellFormedEntry e = true ->
  allChars (plainChar [","%char]) (entryText e) = true
  /\ exists c s, entryText e = String c s.
Proof.
  unfold wellFormedEntry, entryText. rewrite !andb_true_iff.
  intros [[[Hp Hpc] Hv] Hvc]. split.
  - rewrite !allChars_append, Hpc. simpl.
    eapply allChars_weaken; [|exact Hvc].
    intros c Hc. apply plainChar_true in Hc. destruct Hc as [Hlt Hs].
    unfold plainChar. rewrite Hlt. simpl.
    rewrite Ascii.eqb_sym, (Hs ","%char) by (right; left; reflexivity). reflexivity.
  - destruct (nonEmpty_true _ Hp) as [c [s E]]. rewrite E. simpl. eauto.
Qed.

Lemma entries_text (entries : list (string * string)) :
  Nat.eqb (List.length entries) 0 = false ->
  forallb wellFormedEntry entries = true ->
  allChars (fun a => negb (isLineTerminator a))
           (joinWith "," (map entryText entries)) = true
  /\ (exists c s, joinWith "," (map entryText entries) = String c s)
  /\ splitOn "," (joinWith "," (map entryText entries)) = map entryText entries.
Proof.
  intros Hlen Hwf. rewrite forallb_forall in Hwf.
  assert (Hall : Forall (fun x => allChars (plainChar [","%char]) x = true)
                        (map entryText entries)).
  { apply Forall_forall. intros x Hx. apply in_map_iff in Hx.
    destruct Hx as [e [E He]]. subst x. apply wellFormedEntry_text; auto. }
  split; [|split].
  - apply allChars_joinWith; [reflexivity|].
    eapply Forall_impl; [|exact Hall]. simpl. intros x Hx.
    eapply allChars_weaken; [|exact Hx].
    intros c Hc. apply plainChar_true in Hc. destruct Hc as [Hc _].
    rewrite Hc. reflexivity.
  - destruct entries as [|e es]; [discriminate|].
    destruct (wellFormedEntry_text e (Hwf e (or_introl eq_refl))) as [_ [c [s E]]].
    simpl. rewrite E. destruct (map entryText es); simpl; eauto.
  - apply splitOn_joinWith.
    + destruct entries; [discriminate|discriminate].
    + eapply Forall_impl; [|exact Hall]. simpl. intros x Hx.
      eapply allChars_weaken; [|exact Hx].
      intros c Hc. apply plainChar_true in Hc. destruct Hc as [_ Hc].
      rewrite Ascii.eqb_sym, Hc by (left; reflexivity). reflexivity.
Qed.

(** ** What the two expressions capture on well-formed text *)

Lemma strMatch_here (r : Regex) (s : string) (caps : Caps) :
  matchHere r s = Some caps -> strMatch r s = Some caps.
Proof. intro H. destruct s; simpl; rewrite H; reflexivity. Qed.

Lemma strMatch_pvRe (e : string * string) :
  wellFormedEntry e = true ->
  strMatch pvRe (entryText e) = Some [(2, snd e); (1, fst e)].
Proof.
  destruct e as [p v]. unfold wellFormedEntry, entryText. simpl fst. simpl snd.
  rewrite !andb_true_iff. intros [[[Hp Hpc] Hv] Hvc].
  destruct (nonEmpty_true _ Hp) as [c [p' Ep]].
  destruct (nonEmpty_true _ Hv) as [d [v' Ev]].
  apply strMatch_here. unfold matchHere, pvRe. cbn [matchRe].
  subst p. simpl in Hpc. apply andb_true_iff in Hpc. destruct Hpc as [Hc Hpc].
  apply plainChar_true in Hc. destruct Hc as [Hc _].
  change (String c p' ^^ "@" ^^ v) with (String c (p' ^^ String "@" v)).
  assert (Hv_at : allChars (fun a => negb (Ascii.eqb a "@")) v = true).
  { eapply allChars_weaken; [|exact Hvc].
    intros a Ha. apply plainChar_true in Ha. destruct Ha as [_ Ha].
    rewrite Ascii.eqb_sym, Ha by (left; reflexivity). reflexivity. }
  assert (Hv_lt : allChars (fun a => negb (isLineTerminator a)) v = true).
  { eapply allChars_weaken; [|exact Hvc].
    intros a Ha. apply plainChar_true in Ha. destruct Ha as [Ha _].
    rewrite Ha. reflexivity. }
  apply dotPlusGreedy_last.
  - cbn [dotPlusGreedy].
    replace (isLineTerminator "@") with false by reflexivity.
    match goal with
    | |- context [dotPlusGreedy ?k v] =>
        destruct (@dotPlusGreedy_none k "@"%char) with (x := v) as [H1 H2];
          [ intros a u Ha; cbn [matchRe]; rewrite Ha; reflexivity
          | reflexivity
          | exact Hv_at
          | rewrite H1; exact H2 ]
    end.
  - cbn [matchRe]. rewrite Ascii.eqb_refl. subst v.
    simpl in Hv_lt. apply andb_true_iff in Hv_lt. destruct Hv_lt as [Hd Hv_lt].
    apply negb_true_iff in Hd.
    apply dotPlusGreedy_all; [|assumption|assumption].
    rewrite consumed_all.
    change (String c (p' ^^ String "@" (String d v')))
      with (String c p' ^^ String "@" (String d v')).
    rewrite consumed_append. reflexivity.
  - assumption.
  - eapply allChars_weaken; [|exact Hpc].
    intros a Ha. apply plainChar_true in Ha. destruct Ha as [Ha _].
    rewrite Ha. reflexivity.
Qed.

Lemma noLineTerminator_of_plain (stops : list ascii) (s : string) :
  allChars (plainChar stops) s = true ->
  allChars (fun a => negb (isLineTerminator a)) s = true.
Proof.
  apply allChars_weaken. intros a Ha. apply plainChar_true in Ha.
  destruct Ha as [Ha _]. rewrite Ha. reflexivity.
Qed.

Lemma strMatch_flagRe_override (implementation label : string)
      (entries : list (string * string)) :
  wellFormedFlag (OverrideFlag implementation label entries) = true ->
  strMatch flagRe (flagText (OverrideFlag implementation label entries))
  = Some [ (4, joinWith "," (map entryText entries));
           (3, label); (1, implementation) ].
Proof.
  unfold wellFormedFlag, flagText. rewrite !andb_true_iff, !negb_true_iff.
  intros [[[[[[Hi Hic] Hl] Hlc] Hdef] Hlen] Hes].
  destruct (entries_text entries Hlen Hes) as [Hplt [[e0 [pvs' Epvs]] _]].
  set (pvs := joinWith "," (map entryText entries)) in *.
  destruct (nonEmpty_true _ Hi) as [c [i' Ei]].
  destruct (nonEmpty_true _ Hl) as [d [l' El]].
  apply strMatch_here. unfold matchHere, flagRe. cbn [matchRe].
  subst implementation. simpl in Hic. apply andb_true_iff in Hic.
  destruct Hic as [Hc Hic]. apply plainChar_true in Hc. destruct Hc as [Hc _].
  change (String c i' ^^ "/" ^^ label ^^ "=" ^^ pvs)
    with (String c (i' ^^ String "/" (label ^^ String "=" pvs))).
  apply dotPlusLazy_first with (sep := "/"%char); try assumption.
  - intros a u Ha. cbn [matchRe]. rewrite Ha. reflexivity.
  - cbn [matchRe]. rewrite Ascii.eqb_refl.
    rewrite matchRe_lit
      by (rewrite startsWith_append; [exact Hdef|reflexivity]).
    subst label. simpl in Hlc. apply andb_true_iff in Hlc.
    destruct Hlc as [Hd Hlc]. apply plainChar_true in Hd. destruct Hd as [Hd _].
    change (String d l' ^^ String "=" pvs) with (String d (l' ^^ String "=" pvs)).
    apply dotPlusLazy_first with (sep := "="%char); try assumption.
    + intros a u Ha. cbn [matchRe]. rewrite Ha. reflexivity.
    + cbn [matchRe]. rewrite Ascii.eqb_refl.
      rewrite Epvs in Hplt |- *. simpl in Hplt. apply andb_true_iff in Hplt.
      destruct Hplt as [He0 Hplt]. apply negb_true_iff in He0.
      apply dotPlusGreedy_all; [|assumption|assumption].
      rewrite consumed_all.
      change (String d (l' ^^ String "=" (String e0 pvs')))
        with (String d l' ^^ String "=" (String e0 pvs')).
      rewrite consumed_append.
      change (String c (i' ^^ String "/" (String d l' ^^ String "=" (String e0 pvs'))))
        with (String c i' ^^ String "/" (String d l' ^^ String "=" (String e0 pvs'))).
      rewrite consumed_append. reflexivity.
Qed.

Lemma strMatch_flagRe_default (implementation : string) :
  wellFormedFlag (DefaultFlag implementation) = true ->
  strMatch flagRe (flagText (DefaultFlag implementation))
  = Some [ (2, "default"); (1, implementation) ].
Proof.
  unfold wellFormedFlag, flagText. rewrite !andb_true_iff.
  intros [Hi Hic].
  destruct (nonEmpty_true _ Hi) as [c [i' Ei]].
  apply strMatch_here. unfold matchHere, flagRe. cbn [matchRe].
  subst implementation. simpl in Hic. apply andb_true_iff in Hic.
  destruct Hic as [Hc Hic]. apply plainChar_true in Hc. destruct Hc as [Hc _].
  change (String c i' ^^ "/default") with (String c (i' ^^ String "/" "default")).
  apply dotPlusLazy_first with (sep := "/"%char); try assumption.
  - intros a u Ha. cbn [matchRe]. rewrite Ha. reflexivity.
  - cbn [matchRe]. rewrite Ascii.eqb_refl.
    change (String c (i' ^^ String "/" "default"))
      with (String c i' ^^ String "/" "default").
    rewrite consumed_append. reflexivity.
Qed.

(** ** The parser on well-formed flags *)

Lemma parseOverrides_entries (entries : list (string * string)) :
  forallb wellFormedEntry entries = true ->
  forall deps,
    parseOverrides (map entryText entries) deps
    = Ok (fold_left (fun o e => objSet (fst e) (snd e) o) entries deps).
Proof.
  induction entries as [|e es IH]; simpl; intros H deps; [reflexivity|].
  apply andb_true_iff in H. destruct H as [He Hes].
  rewrite (strMatch_pvRe e He). simpl. apply IH. assumption.
Qed.

Lemma parseFlag_wellFormed (f : Flag) (st : ParseState) :
  wellFormedFlag f = true ->
  parseFlag (flagText f) st
  = match flagKey f with
    | Some key =>
        if strMem key (uniqueImplLabels st) then Throw (DuplicateLabel key)
        else Ok (addVersion f st)
    | None => Ok (addVersion f st)
    end.
Proof.
  intro Hwf. unfold parseFlag. destruct f as [i|i l es].
  - rewrite (strMatch_flagRe_default _ Hwf). reflexivity.
  - rewrite (strMatch_flagRe_override _ _ _ Hwf). cbn [cap Nat.eqb templ flagKey].
    destruct (strMem _ _); [reflexivity|].
    unfold wellFormedFlag in Hwf. rewrite !andb_true_iff, !negb_true_iff in Hwf.
    destruct Hwf as [[[[[[Hi Hic] Hl] Hlc] Hdef] Hlen] Hes].
    destruct (entries_text es Hlen Hes) as [_ [_ Hsplit]].
    rewrite Hsplit, (parseOverrides_entries es Hes). reflexivity.
Qed.

Lemma strMem_In (x : string) (l : list string) : strMem x l = true <-> In x l.
Proof.
  induction l as [|y l IH]; simpl; [intuition discriminate|].
  destruct (String.eqb x y) eqn:E.
  - apply String.eqb_eq in E. intuition.
  - apply String.eqb_neq in E. rewrite IH. intuition congruence.
Qed.

Lemma strMem_not_In (x : string) (l : list string) : strMem x l = false <-> ~ In x l.
Proof.
  rewrite <- strMem_In. destruct (strMem x l); intuition congruence.
Qed.

Lemma keyText_inj (i1 : string) :
  forall i2 l1 l2,
    allChars (plainChar ["/"%char]) i1 = true ->
    allChars (plainChar ["/"%char]) i2 = true ->
    i1 ^^ "/" ^^ l1 = i2 ^^ "/" ^^ l2 -> i1 = i2 /\ l1 = l2.
Proof.
  induction i1 as [|c i1 IH]; intros [|d i2] l1 l2 H1 H2 E; simpl in *.
  - inversion E; auto.
  - inversion E; subst. apply andb_true_iff in H2. destruct H2 as [H2 _].
    apply plainChar_true in H2. destruct H2 as [_ H2].
    specialize (H2 "/"%char (or_introl eq_refl)). rewrite Ascii.eqb_refl in H2.
    discriminate.
  - inversion E; subst. apply andb_true_iff in H1. destruct H1 as [H1 _].
    apply plainChar_true in H1. destruct H1 as [_ H1].
    specialize (H1 "/"%char (or_introl eq_refl)). rewrite Ascii.eqb_refl in H1.
    discriminate.
  - inversion E; subst.
    apply andb_true_iff in H1. apply andb_true_iff in H2.
    destruct (IH i2 l1 l2) as [Ei El]; try tauto. subst; auto.
Qed.

Lemma wellFormedFlag_implementation (f : Flag) :
  wellFormedFlag f = true ->
  allChars (plainChar ["/"%char]) (flagImplementation f) = true.
Proof.
  destruct f; simpl; rewrite !andb_true_iff; tauto.
Qed.

Lemma keyTexts_labelPairs (fs : list Flag) : keyTexts fs = map keyText (labelPairs fs).
Proof.
  induction fs as [|[i|i l es] fs IH]; simpl; [reflexivity|assumption|].
  rewrite IH. reflexivity.
Qed.

Lemma labelPairs_plain (fs : list Flag) :
  forallb wellFormedFlag fs = true ->
  forall p, In p (labelPairs fs) -> allChars (plainChar ["/"%char]) (fst p) = true.
Proof.
  induction fs as [|f fs IH]; simpl; [tauto|].
  rewrite andb_true_iff. intros [Hf Hfs] p Hp.
  destruct f as [i|i l es]; [auto|].
  destruct Hp as [E|Hp]; [subst p; exact (wellFormedFlag_implementation _ Hf)|auto].
Qed.

Lemma NoDup_keyTexts (pairs : list (string * string)) :
  (forall p, In p pairs -> allChars (plainChar ["/"%char]) (fst p) = true) ->
  NoDup (map keyText pairs) <-> NoDup pairs.
Proof.
  induction pairs as [|p pairs IH]; simpl; intro Hplain.
  - split; constructor.
  - assert (Hin : In (keyText p) (map keyText pairs) <-> In p pairs).
    { split; [|apply in_map].
      intro H. apply in_map_iff in H. destruct H as [q [E Hq]].
      destruct p as [i l], q as [i' l']. unfold keyText in E. simpl in E.
      destruct (@keyText_inj i' i l' l) as [E1 E2]; auto.
      - apply (Hplain (i', l')); auto.
      - apply (Hplain (i, l)); auto.
      - subst; assumption. }
    split; intro H; inversion H; subst; constructor;
      try (rewrite Hin in *; assumption); try (rewrite <- Hin in *; assumption);
      apply IH; auto.
Qed.

Lemma parseFlags_wellFormed_unique (fs : list Flag) :
  forallb wellFormedFlag fs = true ->
  forall st,
    NoDup (uniqueImplLabels st ++ keyTexts fs) ->
    parseFlags (map flagText fs) st = Ok (addVersions fs st).
Proof.
  induction fs as [|f fs IH]; simpl; intros Hwf st Hnd; [reflexivity|].
  apply andb_true_iff in Hwf. destruct Hwf as [Hf Hfs].
  rewrite (parseFlag_wellFormed f st Hf).
  destruct (flagKey f) as [key|] eqn:Ek.
  - assert (Hnot : strMem key (uniqueImplLabels st) = false).
    { apply strMem_not_In. intro Hin.
      apply NoDup_remove_2 in Hnd. apply Hnd. apply in_or_app. left; assumption. }
    rewrite Hnot. simpl. apply IH; [assumption|].
    unfold addVersion; simpl. rewrite Ek. rewrite <- app_assoc. exact Hnd.
  - simpl. apply IH; [assumption|].
    unfold addVersion; simpl. rewrite Ek. exact Hnd.
Qed.

Lemma parseFlags_wellFormed_repeated (fs : list Flag) :
  forallb wellFormedFlag fs = true ->
  forall st,
    NoDup (uniqueImplLabels st) ->
    ~ NoDup (uniqueImplLabels st ++ keyTexts fs) ->
    exists key,
      In key (keyTexts fs)
      /\ parseFlags (map flagText fs) st = Throw (DuplicateLabel key).
Proof.
  induction fs as [|f fs IH]; simpl; intros Hwf st Hnd Hdup.
  - rewrite app_nil_r in Hdup. contradiction.
  - apply andb_true_iff in Hwf. destruct Hwf as [Hf Hfs].
    rewrite (parseFlag_wellFormed f st Hf).
    destruct (flagKey f) as [key|] eqn:Ek.
    + destruct (strMem key (uniqueImplLabels st)) eqn:Em.
      * exists key. split; [left; reflexivity|reflexivity].
      * simpl.
        destruct (IH Hfs (addVersion f st)) as [k [Hk Hr]].
        -- unfold addVersion; simpl. rewrite Ek.
           apply NoDup_app; [assumption|repeat constructor; simpl; tauto|].
           intros x Hx [E|[]]. subst x. apply strMem_not_In in Em. contradiction.
        -- unfold addVersion; simpl. rewrite Ek, <- app_assoc. exact Hdup.
        -- exists k. split; [right; assumption|assumption].
    + simpl.
      destruct (IH Hfs (addVersion f st)) as [k [Hk Hr]].
      * unfold addVersion; simpl. rewrite Ek. assumption.
      * unfold addVersion; simpl. rewrite Ek. assumption.
      * exists k. split; assumption.
Qed.

Lemma addVersion_keeps (f : Flag) (st : ParseState) (i : string) (v : PackageVersion) :
  holdsVersion (versions st) i v -> holdsVersion (versions (addVersion f st)) i v.
Proof.
  intros [arr [Hget Hin]]. unfold holdsVersion, addVersion. simpl.
  rewrite mapGet_mapSet.
  destruct (String.eqb i (flagImplementation f)) eqn:E.
  - apply String.eqb_eq in E. subst i. rewrite Hget.
    eexists. split; [reflexivity|]. apply in_or_app. left; assumption.
  - exists arr. split; assumption.
Qed.

Lemma addVersion_holds (f : Flag) (st : ParseState) :
  holdsVersion (versions (addVersion f st)) (flagImplementation f) (flagVersion f).
Proof.
  unfold holdsVersion, addVersion. simpl. rewrite mapGet_mapSet_same.
  eexists. split; [reflexivity|]. apply in_or_app. right. left. reflexivity.
Qed.

Lemma addVersions_keeps (fs : list Flag) :
  forall st i v,
    holdsVersion (versions st) i v ->
    holdsVersion (versions (addVersions fs st)) i v.
Proof.
  induction fs as [|f fs IH]; simpl; intros st i v H; [assumption|].
  apply IH, addVersion_keeps, H.
Qed.

Lemma addVersions_holds (fs : list Flag) :
  forall st f,
    In f fs ->
    holdsVersion (versions (addVersions fs st)) (flagImplementation f) (flagVersion f).
Proof.
  induction fs as [|g fs IH]; simpl; intros st f Hin; [contradiction|].
  destruct Hin as [E|Hin].
  - subst g. apply addVersions_keeps, addVersion_holds.
  - apply IH; assumption.
Qed.

Lemma mapGet_objSet (pkg p v : string) (o : PackageDependencyMap) :
  pkg <> "__proto__" ->
  mapGet pkg (objSet p v o) = if String.eqb pkg p then Some v else mapGet pkg o.
Proof.
  intro Hp. unfold objSet.
  destruct (String.eqb p "__proto__") eqn:E.
  - apply String.eqb_eq in E. subst p.
    apply String.eqb_neq in Hp. rewrite Hp. reflexivity.
  - apply mapGet_mapSet.
Qed.

Lemma mapGet_overrides (pkg : string) (entries : list (string * string)) :
  pkg <> "__proto__" ->
  forall deps,
    mapGet pkg (fold_left (fun o e => objSet (fst e) (snd e) o) entries deps)
    = match lastVersion pkg entries with
      | Some v => Some v
      | None => mapGet pkg deps
      end.
Proof.
  intro Hp. induction entries as [|[p v] es IH]; simpl; intro deps; [reflexivity|].
  rewrite IH. destruct (lastVersion pkg es); [reflexivity|].
  rewrite mapGet_objSet by assumption. destruct (String.eqb pkg p); reflexivity.
Qed.

Lemma parsePackageVersions_wellFormed_unique (fs : list Flag) :
  forallb wellFormedFlag fs = true ->
  NoDup (labelPairs fs) ->
  parsePackageVersions (map flagText fs)
  = Ok (versions (addVersions fs {| versions := []; uniqueImplLabels := [] |})).
Proof.
  intros Hwf Hnd. unfold parsePackageVersions.
  rewrite parseFlags_wellFormed_unique; [reflexivity|assumption|].
  simpl. rewrite keyTexts_labelPairs.
  apply NoDup_keyTexts; [apply labelPairs_plain; assumption|assumption].
Qed.

Lemma parsePackageVersions_wellFormed_repeated (fs : list Flag) :
  forallb wellFormedFlag fs = true ->
  ~ NoDup (labelPairs fs) ->
  exists p,
    In p (labelPairs fs)
    /\ parsePackageVersions (map flagText fs) = Throw (DuplicateLabel (keyText p)).
Proof.
  intros Hwf Hnd. unfold parsePackageVersions.
  destruct (@parseFlags_wellFormed_repeated fs Hwf
              {| versions := []; uniqueImplLabels := [] |}) as [key [Hk Hr]].
  - constructor.
  - simpl. rewrite keyTexts_labelPairs.
    intro H. apply Hnd. apply NoDup_keyTexts in H; [assumption|].
    apply labelPairs_plain; assumption.
  - rewrite keyTexts_labelPairs in Hk. apply in_map_iff in Hk.
    destruct Hk as [p [E Hp]]. exists p. split; [assumption|].
    rewrite Hr, E. reflexivity.
Qed.

(** C5.  On flags of the two documented forms whose components can be
    read back (no component empty or holding its delimiter or a line
    terminator, no label beginning with [default]),
    [parsePackageVersions] throws the duplicate-label error exactly when
    an (implementation, label) pair of the flags that are not [default]
    occurs twice, and names such a pair; it returns a map otherwise, so
    flags [<implementation>/default] may be repeated.  A label that
    begins with [default] is read as [default]: the flags
    [a/default2=p@1] and [a/default2=q@1] repeat the pair (a, default2)
    and no error is raised. *)
Theorem parsePackageVersions_duplicate_labels :
  (forall fs,
      forallb wellFormedFlag fs = true ->
      (throwsDuplicateLabel (parsePackageVersions (map flagText fs))
       <-> ~ NoDup (labelPairs fs))
      /\ (NoDup (labelPairs fs) ->
          exists m, parsePackageVersions (map flagText fs) = Ok m)
      /\ (~ NoDup (labelPairs fs) ->
          exists p, In p (labelPairs fs)
                    /\ parsePackageVersions (map flagText fs)
                       = Throw (DuplicateLabel (fst p ^^ "/" ^^ snd p))))
  /\ (let repeated := [ OverrideFlag "a" "default2" [("p", "1")];
                        OverrideFlag "a" "default2" [("q", "1")] ] in
      map flagText repeated = ["a/default2=p@1"; "a/default2=q@1"]
      /\ ~ NoDup (labelPairs repeated)
      /\ parsePackageVersions (map flagText repeated)
         = Ok [ ("a", [defaultVersion; defaultVersion]) ]).
Proof.
  split.
  - intros fs Hwf. split; [|split].
    + split.
      * intros Ht Hnd.
        rewrite (parsePackageVersions_wellFormed_unique fs Hwf Hnd) in Ht. exact Ht.
      * intro Hnd.
        destruct (parsePackageVersions_wellFormed_repeated fs Hwf Hnd) as [p [_ Hr]].
        rewrite Hr. reflexivity.
    + intro Hnd. eexists. apply parsePackageVersions_wellFormed_unique; assumption.
    + apply parsePackageVersions_wellFormed_repeated; assumption.
  - cbv zeta. split; [reflexivity|]. split; [|vm_compute; reflexivity].
    intro H. inversion H as [|? ? Hnot _]; subst. apply Hnot. left. reflexivity.
Qed.

Lemma parsePackageVersions_duplicate_labels_witness :
  parsePackageVersions ["a/x=p@1"; "a/default"; "a/default"; "a/x=q@2"]
  = Throw (DuplicateLabel "a/x").
Proof.
  assert (Hrep : ~ NoDup [("a", "x"); ("a", "x")]).
  { intro H. inversion H as [|? ? Hnot _]; subst. apply Hnot. left. reflexivity. }
  destruct (proj2 (proj2 (proj1 parsePackageVersions_duplicate_labels
                            [ OverrideFlag "a" "x" [("p", "1")]; DefaultFlag "a";
                              DefaultFlag "a"; OverrideFlag "a" "x" [("q", "2")] ]
                            eq_refl)) Hrep)
    as [p [Hp Hr]].
  destruct Hp as [E|[E|[]]]; subst p; exact Hr.
Defined.

(** C6, as the code has it.  The flag [impl/label=a@1.0,b@2.0] gives
    the implementation [impl] one version, of label [label] and
    overrides [{a: "1.0", b: "2.0"}].  On well-formed flags without a
    repeated label, the version of each flag
    [<implementation>/<label>=<entries>] is in the list of its
    implementation, with its label, and its overrides bind each package
    other than [__proto__] to the version of the last entry that names
    the package. *)
Theorem parsePackageVersions_overrides :
  parsePackageVersions ["impl/label=a@1.0,b@2.0"]
  = Ok [ ("impl", [ {| label := "label";
                       dependencyOverrides := [("a", "1.0"); ("b", "2.0")] |} ]) ]
  /\ forall fs m implementation lbl entries,
       forallb wellFormedFlag fs = true ->
       parsePackageVersions (map flagText fs) = Ok m ->
       In (OverrideFlag implementation lbl entries) fs ->
       exists arr deps,
         mapGet implementation m = Some arr
         /\ In {| label := lbl; dependencyOverrides := deps |} arr
         /\ forall pkg version,
              lastVersion pkg entries = Some version ->
              pkg <> "__proto__" ->
              mapGet pkg deps = Some version.
Proof.
  split; [vm_compute; reflexivity|].
  intros fs m implementation lbl entries Hwf Hok Hin.
  assert (Hnd : NoDup (labelPairs fs)).
  { destruct (ListDec.NoDup_dec
                (fun a b : string * string =>
                   ltac:(decide equality; apply string_dec) : {a = b} + {a <> b})
                (labelPairs fs)) as [Hnd|Hnd]; [assumption|].
    destruct (parsePackageVersions_wellFormed_repeated fs Hwf Hnd) as [p [_ Hr]].
    rewrite Hok in Hr. discriminate. }
  rewrite (parsePackageVersions_wellFormed_unique fs Hwf Hnd) in Hok.
  inversion Hok; subst m; clear Hok.
  destruct (@addVersions_holds fs {| versions := []; uniqueImplLabels := [] |}
              _ Hin) as [arr [Hget Harr]].
  exists arr, (overridesOf entries). split; [exact Hget|]. split; [exact Harr|].
  intros pkg version Hlast Hp. unfold overridesOf.
  rewrite mapGet_overrides by assumption. rewrite Hlast. reflexivity.
Qed.

Lemma parsePackageVersions_overrides_witness :
  exists arr deps,
    mapGet "lit" [ ("lit", [ {| label := "old";
                                dependencyOverrides := [("lit-html", "0.9.1")] |} ]) ]
    = Some arr
    /\ In {| label := "old"; dependencyOverrides := deps |} arr
    /\ forall pkg version,
         lastVersion pkg [("lit-html", "0.9.0"); ("lit-html", "0.9.1")] = Some version ->
         pkg <> "__proto__" ->
         mapGet pkg deps = Some version.
Proof.
  exact (proj2 parsePackageVersions_overrides
           [ OverrideFlag "lit" "old" [("lit-html", "0.9.0"); ("lit-html", "0.9.1")] ]
           _ "lit" "old" [("lit-html", "0.9.0"); ("lit-html", "0.9.1")]
           eq_refl eq_refl (or_introl eq_refl)).
Defined.

(** C6 as stated fails: of two entries for one package only the last
    leaves its binding. *)
Lemma parsePackageVersions_last_entry_wins :
  parsePackageVersions ["impl/label=a@1.0,a@2.0"]
  = Ok [ ("impl", [ {| label := "label"; dependencyOverrides := [("a", "2.0")] |} ]) ].
Proof. vm_compute. reflexivity. Qed.

Lemma flagText_has_form (f : Flag) :
  (exists implementation, flagText f = implementation ^^ "/default")
  \/ allChars (fun a => negb (Ascii.eqb a "=")) (flagText f) = false.
Proof.
  destruct f as [i|i l es]; simpl; [left; eauto|right].
  rewrite allChars_append. simpl. rewrite allChars_append. simpl.
  rewrite !andb_false_r. reflexivity.
Qed.

(** C4.  A flag of neither form is rejected with a parse error when the
    expression finds no match in it, as in [bad-flag].  The text
    [impl/defaultx] has neither form of the grammar either: it does not
    end in [/default] and holds no [=].  [parsePackageVersions] accepts
    it, as the flag [impl/default]: the expression is searched in the
    flag and not matched against the whole of it. *)
Theorem parsePackageVersions_accepts_malformed :
  (exists e, parsePackageVersions ["bad-flag"] = Throw e /\ isParseError e = true)
  /\ (forall f, flagText f <> "impl/defaultx")
  /\ parsePackageVersions ["impl/defaultx"]
     = Ok [ ("impl", [ {| label := "default"; dependencyOverrides := [] |} ]) ].
Proof.
  split; [eexists; split; vm_compute; reflexivity|].
  split; [|vm_compute; reflexivity].
  intros f E. destruct (flagText_has_form f) as [[i Hi]|Hno].
  - rewrite Hi in E.
    assert (Hlen : String.length i = 5).
    { apply (f_equal String.length) in E. rewrite length_append in E.
      simpl in E. lia. }
    destruct i as [|c1 [|c2 [|c3 [|c4 [|c5 [|c6 i]]]]]]; simpl in Hlen;
      discriminate.
  - rewrite E in Hno. vm_compute in Hno. discriminate.
Qed.

(** ** JSON texts are read back *)

Lemma parseStringBody_escape (s : string) :
  forall rest,
    parseStringBody (escapeString s ^^ String dquote rest) = Some (s, rest).
Proof.
  induction s as [|c s IH]; intro rest.
  - reflexivity.
  - change (escapeString (String c s)) with (escapeChar c ^^ escapeString s).
    rewrite append_assoc.
    specialize (IH rest).
    let q := eval vm_compute in dquote in change dquote with q in *.
    destruct c as [[] [] [] [] [] [] [] []];
      match goal with
      | |- context [escapeChar ?c] =>
          let v := eval vm_compute in (escapeChar c) in
          change (escapeChar c) with v
      end;
      simpl; rewrite IH; reflexivity.
Qed.

Lemma parseStringLit_quote (s rest : string) :
  parseStringLit (quoteString s ^^ rest) = Some (s, rest).
Proof.
  unfold quoteString, parseStringLit.
  change (String dquote (escapeString s ^^ String dquote EmptyString) ^^ rest)
    with (String dquote ((escapeString s ^^ String dquote EmptyString) ^^ rest)).
  cbv iota beta.
  rewrite Ascii.eqb_refl, append_assoc. apply parseStringBody_escape.
Qed.

Lemma parseElems_quoted (l : list string) :
  forall x fuel,
    List.length l < fuel ->
    parseElems fuel (joinWith "," (map quoteString (x :: l)) ^^ "]") = Some (x :: l).
Proof.
  induction l as [|y l IH]; intros x fuel Hf.
  - destruct fuel as [|fuel]; [simpl in Hf; lia|].
    change (joinWith "," (map quoteString [x])) with (quoteString x).
    cbn [parseElems]. rewrite parseStringLit_quote. reflexivity.
  - destruct fuel as [|fuel]; [simpl in Hf; lia|].
    change (joinWith "," (map quoteString (x :: y :: l)))
      with (quoteString x ^^ "," ^^ joinWith "," (map quoteString (y :: l))).
    rewrite !append_assoc.
    cbn [parseElems]. rewrite parseStringLit_quote.
    change ("," ^^ joinWith "," (map quoteString (y :: l)) ^^ "]")
      with (String "," (joinWith "," (map quoteString (y :: l)) ^^ "]")).
    cbv iota beta. rewrite Ascii.eqb_refl.
    rewrite IH by (simpl in Hf; lia). reflexivity.
Qed.

Lemma length_joined_quotes (l : list string) :
  List.length l <= String.length (joinWith "," (map quoteString l)).
Proof.
  induction l as [|x l IH]; [simpl; lia|].
  destruct l as [|y l].
  - simpl. lia.
  - change (joinWith "," (map quoteString (x :: y :: l)))
      with (quoteString x ^^ "," ^^ joinWith "," (map quoteString (y :: l))).
    rewrite !length_append.
    change (List.length (x :: y :: l)) with (S (List.length (y :: l))).
    change (String.length ",") with 1. lia.
Qed.

Lemma JSON_parse_stringify (strings : list string) :
  JSON_parse (JSON_stringify strings) = Ok strings.
Proof.
  unfold JSON_stringify. destruct strings as [|x l]; [reflexivity|].
  change ("[" ^^ joinWith "," (map quoteString (x :: l)) ^^ "]")
    with (String "[" (joinWith "," (map quoteString (x :: l)) ^^ "]")).
  unfold JSON_parse. rewrite Ascii.eqb_refl.
  pose proof (length_joined_quotes (x :: l)) as Hlen.
  assert (Hfuel : List.length l
                  < String.length (joinWith "," (map quoteString (x :: l)) ^^ "]")).
  { rewrite length_append. simpl in *. lia. }
  rewrite (parseElems_quoted l x Hfuel).
  destruct (joinWith "," (map quoteString (x :: l)) ^^ "]") as [|c [|c' t]] eqn:E;
    try reflexivity.
  exfalso.
  assert (Hl : String.length (joinWith "," (map quoteString (x :: l)) ^^ "]") = 1)
    by (rewrite E; reflexivity).
  rewrite length_append in Hl. simpl in Hl, Hlen. lia.
Qed.

Lemma JSON_stringify_inj (a b : list string) :
  JSON_stringify a = JSON_stringify b -> a = b.
Proof.
  intro E. pose proof (JSON_parse_stringify a) as Ha.
  rewrite E, JSON_parse_stringify in Ha. inversion Ha; reflexivity.
Qed.

(** ** A digest as the last segment of a path *)

Lemma hexDigit_hex (n : nat) : isHexChar (hexDigit n) = true.
Proof. do 16 (destruct n as [|n]; [reflexivity|]). destruct n; reflexivity. Qed.


Lemma splitOn_nonEmpty (sep : ascii) (s : string) : splitOn sep s <> [].
Proof.
  induction s as [|c s IH]; simpl; [discriminate|].
  destruct (Ascii.eqb c sep); [discriminate|].
  destruct (splitOn sep s); discriminate.
Qed.

Lemma splitOn_append_sep (sep : ascii) (a b : string) :
  splitOn sep (a ^^ String sep b) = splitOn sep a ++ splitOn sep b.
Proof.
  induction a as [|c a IH]; simpl.
  - rewrite Ascii.eqb_refl. reflexivity.
  - destruct (Ascii.eqb c sep); [rewrite IH; reflexivity|].
    rewrite IH. pose proof (splitOn_nonEmpty sep a) as Hne.
    destruct (splitOn sep a); [congruence|reflexivity].
Qed.

Lemma joinWith_snoc (sep : string) (l : list string) (h : string) :
  joinWith sep (l ++ [h])
  = match l with
    | [] => h
    | _ :: _ => joinWith sep l ^^ sep ^^ h
    end.
Proof.
  induction l as [|x l IH]; [reflexivity|].
  destruct l as [|y l]; [reflexivity|].
  change (joinWith sep ((x :: y :: l) ++ [h]))
    with (x ^^ sep ^^ joinWith sep ((y :: l) ++ [h])).
  rewrite IH.
  change (joinWith sep (x :: y :: l)) with (x ^^ sep ^^ joinWith sep (y :: l)).
  rewrite !append_assoc. reflexivity.
Qed.

Lemma endsWithSlash_append (a : string) (c : ascii) (b : string) :
  endsWithSlash (a ^^ String c b) = endsWithSlash (String c b).
Proof.
  induction a as [|x a IH]; [reflexivity|].
  change (String x a ^^ String c b) with (String x (a ^^ String c b)).
  destruct a as [|y a]; simpl in *; exact IH.
Qed.


Lemma hex_no_slash (s : string) :
  allChars isHexChar s = true ->
  allChars (fun a => negb (Ascii.eqb a "/")) s = true.
Proof.
  apply allChars_weaken. intros c Hc.
  destruct (Ascii.eqb c "/") eqn:E; [|reflexivity].
  apply Ascii.eqb_eq in E. subst c. discriminate.
Qed.





(** ** The walk to the manifest ends *)

Lemma splitOn_pieces (sep : ascii) (s : string) :
  Forall (fun x => allChars (fun a => negb (Ascii.eqb a sep)) x = true) (splitOn sep s).
Proof.
  induction s as [|c s IH]; simpl; [repeat constructor|].
  destruct (Ascii.eqb c sep) eqn:E; [constructor; [reflexivity|assumption]|].
  destruct (splitOn sep s) as [|h t]; [repeat constructor; simpl; rewrite E; reflexivity|].
  inversion IH; subst. constructor; [simpl; rewrite E; assumption|assumption].
Qed.

Lemma normStep_kept (stack : list string) (seg : string) :
  keptSegment seg = true -> normStep false stack seg = seg :: stack.
Proof.
  unfold keptSegment, normStep. rewrite !andb_true_iff, !negb_true_iff.
  intros [[[H1 H2] H3] _]. rewrite H1, H2, H3. reflexivity.
Qed.

Lemma normStep_stack_kept (stack : list string) (seg : string) :
  allChars (fun a => negb (Ascii.eqb a "/")) seg = true ->
  Forall (fun x => keptSegment x = true) stack ->
  Forall (fun x => keptSegment x = true) (normStep false stack seg).
Proof.
  intros Hseg Hst. unfold normStep.
  destruct (String.eqb seg EmptyString) eqn:E1; [assumption|].
  destruct (String.eqb seg ".") eqn:E2; [assumption|].
  destruct (String.eqb seg "..") eqn:E3.
  - destruct stack as [|top below]; [constructor|].
    inversion Hst; subst. destruct (String.eqb top ".."); assumption.
  - constructor; [|assumption].
    unfold keptSegment. rewrite E1, E2, E3, Hseg. reflexivity.
Qed.

Lemma fold_normStep_kept (l : list string) :
  Forall (fun x => allChars (fun a => negb (Ascii.eqb a "/")) x = true) l ->
  forall stack,
    Forall (fun x => keptSegment x = true) stack ->
    Forall (fun x => keptSegment x = true) (fold_left (normStep false) l stack).
Proof.
  induction 1 as [|x l Hx Hl IH]; simpl; intros stack Hst; [assumption|].
  apply IH, normStep_stack_kept; assumption.
Qed.

Lemma fold_normStep_push (segs : list string) :
  Forall (fun x => keptSegment x = true) segs ->
  forall stack, fold_left (normStep false) segs stack = rev segs ++ stack.
Proof.
  induction 1 as [|x l Hx Hl IH]; simpl; intro stack; [reflexivity|].
  rewrite normStep_kept by assumption. rewrite IH, <- app_assoc. reflexivity.
Qed.

Lemma resolveAcc_absolute (cwd : string) (l : list string) :
  isAbsolute cwd = true ->
  forall acc, snd (resolveAcc (l ++ [cwd]) acc) = true.
Proof.
  intro Hc. induction l as [|p l IH]; simpl; intro acc.
  - destruct cwd as [|c cwd]; [discriminate|]. simpl in *. rewrite Hc. reflexivity.
  - destruct (String.eqb p EmptyString); [apply IH|].
    destruct (isAbsolute p); [reflexivity|apply IH].
Qed.

Lemma path_resolve_rooted (cwd : string) (args : list string) :
  isAbsolute cwd = true ->
  exists segs,
    Forall (fun x => keptSegment x = true) segs
    /\ path_resolve cwd args = rootedPath segs.
Proof.
  intro Hc. unfold path_resolve.
  pose proof (resolveAcc_absolute cwd (rev args) Hc EmptyString) as Habs.
  destruct (resolveAcc (rev args ++ [cwd]) EmptyString) as [p abs]. simpl in Habs.
  subst abs. simpl negb. cbv iota.
  exists (rev (fold_left (normStep false) (splitOn "/" p) [])). split.
  - apply Forall_rev, fold_normStep_kept; [apply splitOn_pieces|constructor].
  - reflexivity.
Qed.

Lemma keptSegment_plain (segs : list string) :
  Forall (fun x => keptSegment x = true) segs ->
  Forall (fun x => allChars (fun a => negb (Ascii.eqb a "/")) x = true) segs.
Proof.
  apply Forall_impl. intros s H. unfold keptSegment in H.
  rewrite !andb_true_iff in H. tauto.
Qed.

Lemma rev_tl_rev {A : Type} (l : list A) : rev (tl (rev l)) = removelast l.
Proof.
  induction l as [|x l IH]; [reflexivity|].
  destruct l as [|y l]; [reflexivity|].
  change (removelast (x :: y :: l)) with (x :: removelast (y :: l)).
  rewrite <- IH. simpl.
  destruct (rev l ++ [y]) as [|z zs] eqn:E; [destruct (rev l); discriminate|].
  simpl. rewrite rev_app_distr. reflexivity.
Qed.

Lemma path_resolve_parent (cwd : string) (segs : list string) :
  Forall (fun x => keptSegment x = true) segs ->
  path_resolve cwd [rootedPath segs; ".."] = rootedPath (removelast segs).
Proof.
  intro Hk. unfold path_resolve, rootedPath.
  cbn [rev app resolveAcc String.eqb Ascii.eqb Bool.eqb isAbsolute append].
  cbv iota beta. cbn [negb].
  unfold normalizeString. f_equal. f_equal.
  change (String "/" (joinWith "/" segs ^^ String "/" "../"))
    with (EmptyString ^^ String "/" (joinWith "/" segs ^^ String "/" (".." ^^ String "/" EmptyString))).
  rewrite !splitOn_append_sep.
  cbn [splitOn]. simpl (Ascii.eqb _ _). cbv iota. cbn [splitOn app].
  cbn [fold_left]. change (normStep false [] EmptyString) with (@nil string).
  destruct segs as [|s0 segs'].
  - reflexivity.
  - rewrite splitOn_joinWith; [|discriminate|apply keptSegment_plain; assumption].
    rewrite fold_left_app, (fold_normStep_push Hk). cbn [fold_left].
    rewrite app_nil_r.
    assert (Htop : exists top below, rev (s0 :: segs') = top :: below
                                     /\ keptSegment top = true).
    { apply Forall_rev in Hk. destruct (rev (s0 :: segs')) as [|top below] eqn:E.
      - apply (f_equal (@List.length _)) in E. rewrite length_rev in E. discriminate.
      - inversion Hk; subst. eauto. }
    destruct Htop as [top [below [E Ht]]].
    rewrite <- rev_tl_rev, E. cbn [tl].
    unfold keptSegment in Ht. rewrite !andb_true_iff, !negb_true_iff in Ht.
    destruct Ht as [[[_ _] Hdd] _].
    unfold normStep. cbn [String.eqb Ascii.eqb Bool.eqb]. cbv iota.
    rewrite Hdd. reflexivity.
Qed.

Lemma length_removelast {A : Type} (l : list A) :
  List.length (removelast l) = List.length l - 1.
Proof.
  induction l as [|x l IH]; [reflexivity|].
  destruct l as [|y l]; [reflexivity|].
  change (removelast (x :: y :: l)) with (x :: removelast (y :: l)).
  simpl List.length in *. lia.
Qed.

Lemma Forall_removelast {A : Type} (P : A -> Prop) (l : list A) :
  Forall P l -> Forall P (removelast l).
Proof.
  induction 1 as [|x l Hx Hl IH]; [constructor|].
  destruct l as [|y l]; [constructor|].
  change (removelast (x :: y :: l)) with (x :: removelast (y :: l)).
  constructor; assumption.
Qed.

Lemma length_joined_segments (segs : list string) :
  Forall (fun x => keptSegment x = true) segs ->
  List.length segs <= String.length (joinWith "/" segs).
Proof.
  induction 1 as [|x l Hx Hl IH]; [simpl; lia|].
  assert (Hlen : 1 <= String.length x).
  { destruct x; [discriminate|simpl; lia]. }
  destruct l as [|y l].
  - simpl. lia.
  - change (joinWith "/" (x :: y :: l)) with (x ^^ "/" ^^ joinWith "/" (y :: l)).
    rewrite !length_append.
    change (List.length (x :: y :: l)) with (S (List.length (y :: l))).
    change (String.length "/") with 1. lia.
Qed.

Section WalkFacts.
Variable disk : Disk.

Lemma climb_returns (n : nat) :
  forall segs turns,
    List.length segs = n ->
    Forall (fun x => keptSegment x = true) segs ->
    n < turns ->
    climb disk turns (rootedPath segs) <> None.
Proof.
  induction n as [|n IH]; intros segs turns Hlen Hk Ht;
    (destruct turns as [|turns]; [lia|]); cbn [climb];
    destruct (pathExists disk _); try discriminate;
    rewrite (path_resolve_parent (cwd disk) Hk).
  - destruct segs; [|discriminate]. simpl removelast.
    rewrite String.eqb_refl. discriminate.
  - destruct (String.eqb _ _); [discriminate|].
    apply IH.
    + rewrite length_removelast, Hlen. lia.
    + apply Forall_removelast; assumption.
    + lia.
Qed.

(** With an absolute working directory, as a process has it,
    [findPackageJsonPath] returns: a path, or [undefined]. *)
Lemma findPackageJsonPath_returns (startDir : string) :
  isAbsolute (cwd disk) = true ->
  exists found, findPackageJsonPath disk startDir = Ok found.
Proof.
  intro Hc. unfold findPackageJsonPath.
  destruct (path_resolve_rooted (cwd disk) [startDir] Hc) as [segs [Hk E]].
  rewrite E.
  pose proof (@climb_returns (List.length segs) segs
                (S (String.length (rootedPath segs))) eq_refl Hk) as H.
  destruct (climb disk _ _) as [found|].
  - eauto.
  - exfalso. apply H; [|reflexivity].
    pose proof (length_joined_segments Hk).
    unfold rootedPath. simpl String.length. lia.
Qed.
End WalkFacts.

(** ** Two specs in the plans *)

Lemma emitPlan_installPlan (disk : Disk) (benchmarkRoot npmInstallRoot : string)
      (packageDir implementation label : string) (specs : list JsVal)
      (deps : list (string * JsVal)) (keyDeps : list (string * list (string * JsVal))) :
  mapGet (JSON_stringify [packageDir; implementation; label]) keyDeps = Some deps ->
  emitPlan disk benchmarkRoot npmInstallRoot keyDeps
    (JSON_stringify [packageDir; implementation; label], specs)
  = Ok (installPlan disk benchmarkRoot npmInstallRoot packageDir label specs deps).
Proof.
  intro Hd. unfold emitPlan. rewrite JSON_parse_stringify. cbn [bind].
  rewrite Hd. reflexivity.
Qed.

(** ** Grouping, for any list of specs *)

Section AssocOrder.
Variable V : Type.

Lemma mapGet_In (k : string) (v : V) (m : list (string * V)) :
  mapGet k m = Some v -> In (k, v) m.
Proof.
  induction m as [|[k0 v0] m IH]; simpl; [discriminate|].
  destruct (String.eqb k k0) eqn:E.
  - apply String.eqb_eq in E. intro H; inversion H; subst. left; reflexivity.
  - intro H. right. auto.
Qed.

Lemma In_mapGet (k : string) (v : V) (m : list (string * V)) :
  NoDup (map fst m) -> In (k, v) m -> mapGet k m = Some v.
Proof.
  induction m as [|[k0 v0] m IH]; simpl; [tauto|].
  intros Hnd [E|Hin].
  - inversion E; subst. rewrite String.eqb_refl. reflexivity.
  - inversion Hnd as [|? ? Hnot Hnd']; subst.
    destruct (String.eqb k k0) eqn:E.
    + apply String.eqb_eq in E. subst k0. exfalso. apply Hnot.
      apply (in_map fst) in Hin. exact Hin.
    + auto.
Qed.

Lemma In_mapSet (k k' : string) (v v' : V) (m : list (string * V)) :
  In (k', v') (mapSet k v m) -> (k' = k /\ v' = v) \/ In (k', v') m.
Proof.
  induction m as [|[k0 v0] m IH]; simpl.
  - intros [E|[]]. inversion E; auto.
  - destruct (String.eqb k k0); simpl.
    + intros [E|H]; [inversion E; auto|auto].
    + intros [E|H]; [auto|]. destruct (IH H); auto.
Qed.

Lemma keys_mapSet (k : string) (v : V) (m : list (string * V)) :
  map fst (mapSet k v m)
  = if strMem k (map fst m) then map fst m else map fst m ++ [k].
Proof.
  induction m as [|[k0 v0] m IH]; simpl; [reflexivity|].
  destruct (String.eqb k k0) eqn:E; simpl.
  - apply String.eqb_eq in E. subst. reflexivity.
  - rewrite IH. destruct (strMem k (map fst m)); reflexivity.
Qed.

Lemma NoDup_mapSet (k : string) (v : V) (m : list (string * V)) :
  NoDup (map fst m) -> NoDup (map fst (mapSet k v m)).
Proof.
  intro H. rewrite keys_mapSet.
  destruct (strMem k (map fst m)) eqn:E; [assumption|].
  apply strMem_not_In in E.
  apply NoDup_app; [assumption|repeat constructor; simpl; tauto|].
  intros x Hx [Ex|[]]. subst. contradiction.
Qed.
End AssocOrder.

Section GroupingFacts.
Variable disk : Disk.
Variable benchmarkRoot : string.

Lemma groupSpec_grouped (spec : JsVal) (done : list JsVal) (st st' : GroupState) :
  groupSpec disk benchmarkRoot spec st = Ok st' ->
  Grouped disk benchmarkRoot done st ->
  Grouped disk benchmarkRoot (done ++ [spec]) st'.
Proof.
  unfold groupSpec. intros H [Hf Hb Hk Hd].
  destruct (resolveSpec disk benchmarkRoot spec) as [[| |d0 i0 l0 deps0]|e] eqn:Er;
    simpl in H; inversion H; subst; clear H.
  - constructor; simpl.
    + intros s d i l deps Hin Hs. apply in_app_or in Hin.
      destruct Hin as [Hin|[E|[]]]; [eauto|]. subst s. congruence.
    + assumption.
    + assumption.
    + assumption.
  - constructor; simpl.
    + intros s d i l deps Hin Hs. apply in_app_or in Hin.
      destruct Hin as [Hin|[E|[]]]; [eauto|]. subst s. congruence.
    + assumption.
    + assumption.
    + intros s Hin. apply in_app_or in Hin.
      destruct Hin as [Hin|[E|[]]]; [auto|]. subst s. assumption.
  - fold (installKey d0 i0 l0).
    constructor; simpl.
    + intros s d i l deps Hin Hs. rewrite mapGet_mapSet.
      destruct (String.eqb (installKey d i l) (installKey d0 i0 l0)) eqn:Ek.
      * eexists. split; [reflexivity|]. apply in_or_app.
        apply in_app_or in Hin. destruct Hin as [Hin|[E|[]]].
        -- left. destruct (Hf s d i l deps Hin Hs) as [arr [Hget Harr]].
           apply String.eqb_eq in Ek. rewrite <- Ek, Hget. assumption.
        -- right. left. assumption.
      * apply in_app_or in Hin. destruct Hin as [Hin|[E|[]]]; [eauto|].
        subst s. rewrite Er in Hs. inversion Hs; subst.
        rewrite String.eqb_refl in Ek. discriminate.
    + intros k arr s Hin Hs. apply In_mapSet in Hin.
      destruct Hin as [[Ek Ea]|Hin]; [|eauto].
      subst k arr. apply in_app_or in Hs. destruct Hs as [Hs|[E|[]]].
      * destruct (mapGet (installKey d0 i0 l0) (keySpecs st)) as [arr|] eqn:Eg;
          [|contradiction].
        apply mapGet_In in Eg. eauto.
      * subst s. exists d0, i0, l0, deps0. split; [assumption|reflexivity].
    + apply NoDup_mapSet. assumption.
    + assumption.
Qed.

Lemma groupSpecs_grouped (specs : list JsVal) :
  forall done st st',
    groupSpecs disk benchmarkRoot specs st = Ok st' ->
    Grouped disk benchmarkRoot done st ->
    Grouped disk benchmarkRoot (done ++ specs) st'.
Proof.
  induction specs as [|spec rest IH]; simpl; intros done st st' H Hg.
  - inversion H; subst. rewrite app_nil_r. assumption.
  - destruct (groupSpec disk benchmarkRoot spec st) as [st1|e] eqn:E; simpl in H;
      [|discriminate].
    replace (done ++ spec :: rest) with ((done ++ [spec]) ++ rest)
      by (rewrite <- app_assoc; reflexivity).
    eapply IH; [exact H|]. eapply groupSpec_grouped; eauto.
Qed.

Lemma grouped_start : Grouped disk benchmarkRoot [] (mkGroupState [] [] []).
Proof.
  constructor; simpl; try tauto. constructor.
Qed.

Variable npmInstallRoot : string.




End GroupingFacts.



(* ================================================================== *)
(** * Further properties of the two files *)

(** ** Flags the parser rejects *)

Lemma dotPlusLazy_fails (P : string -> Prop) (k : string -> option Caps) :
  (forall c s, P (String c s) -> P s) ->
  (forall t, P t -> k t = None) ->
  forall s, P s -> dotPlusLazy k s = None.
Proof.
  intros Htl Hk. induction s as [|c s IH]; intro Hs; [reflexivity|].
  simpl. destruct (isLineTerminator c); [reflexivity|].
  rewrite (Hk s (Htl _ _ Hs)). apply IH. eapply Htl; eassumption.
Qed.

Lemma strMatch_fails (P : string -> Prop) (r : Regex) :
  (forall c s, P (String c s) -> P s) ->
  (forall t, P t -> matchHere r t = None) ->
  forall s, P s -> strMatch r s = None.
Proof.
  intros Htl Hk. induction s as [|c s IH]; intro Hs.
  - simpl. rewrite (Hk _ Hs). reflexivity.
  - simpl. rewrite (Hk _ Hs). apply IH. eapply Htl; eassumption.
Qed.

Lemma allChars_tail (ok : ascii -> bool) (c : ascii) (s : string) :
  allChars ok (String c s) = true -> allChars ok s = true.
Proof. simpl. intro H. apply andb_true_iff in H. tauto. Qed.

Lemma strMatch_flagRe_no_slash (flag : string) :
  allChars (fun c => negb (Ascii.eqb c "/")) flag = true ->
  strMatch flagRe flag = None.
Proof.
  apply strMatch_fails with (P := fun t => allChars (fun c => negb (Ascii.eqb c "/")) t = true).
  - intros c s. apply allChars_tail.
  - intros t Ht. unfold matchHere, flagRe. cbn [matchRe].
    apply dotPlusLazy_fails
      with (P := fun t => allChars (fun c => negb (Ascii.eqb c "/")) t = true);
      [intros c s; apply allChars_tail| |exact Ht].
    intros u Hu. destruct u as [|c u]; [reflexivity|].
    simpl in Hu. apply andb_true_iff in Hu. destruct Hu as [Hc _].
    apply negb_true_iff in Hc. rewrite Ascii.eqb_sym, Hc. reflexivity.
Qed.

Lemma strMatch_flagRe_no_equals (flag : string) :
  allChars (fun c => negb (Ascii.eqb c "=")) flag = true ->
  occurs "/default" flag = false ->
  strMatch flagRe flag = None.
Proof.
  intros H1 H2.
  apply strMatch_fails
    with (P := fun t => allChars (fun c => negb (Ascii.eqb c "=")) t = true
                        /\ occurs "/default" t = false); [| |auto].
  - intros c s [Ha Hb]. split; [eapply allChars_tail; eassumption|].
    simpl in Hb. apply orb_false_iff in Hb. tauto.
  - clear. intros t Ht. unfold matchHere, flagRe. cbn [matchRe].
    apply dotPlusLazy_fails
      with (P := fun t => allChars (fun c => negb (Ascii.eqb c "=")) t = true
                          /\ occurs "/default" t = false); [| |exact Ht].
    + intros c s [Ha Hb]. split; [eapply allChars_tail; eassumption|].
      simpl in Hb. apply orb_false_iff in Hb. tauto.
    + clear. intros u [Hu Ho]. destruct u as [|c u]; [reflexivity|].
      destruct (Ascii.eqb "/" c) eqn:Ec; [|reflexivity].
      apply Ascii.eqb_eq in Ec. subst c.
      rewrite matchRe_lit.
      * apply dotPlusLazy_fails
          with (P := fun t => allChars (fun c => negb (Ascii.eqb c "=")) t = true);
          [intros c s; apply allChars_tail| |eapply allChars_tail; eassumption].
        intros v Hv. destruct v as [|c v]; [reflexivity|].
        cbn [matchRe]. simpl in Hv. apply andb_true_iff in Hv. destruct Hv as [Hc _].
        apply negb_true_iff in Hc. rewrite Ascii.eqb_sym, Hc. reflexivity.
      * simpl in Ho. apply orb_false_iff in Ho. destruct Ho as [Ho _].
        exact Ho.
Qed.

Lemma parseFlags_app (a b : list string) :
  forall st,
    parseFlags (a ++ b) st = (st' <- parseFlags a st ;; parseFlags b st').
Proof.
  induction a as [|f a IH]; intro st; [reflexivity|].
  simpl. destruct (parseFlag f st) as [st'|e]; simpl; [apply IH|reflexivity].
Qed.

(** X1.  A flag that holds no [/], or that holds no [=] and nowhere
    [/default], matches the flag expression at no place: when the flags
    before it are accepted, [parsePackageVersions] throws the
    invalid-format error that names this flag, whatever follows it. *)
Theorem parsePackageVersions_rejects_unmatched (accepted : list string)
        (flag : string) (rest : list string) (m : VersionMap) :
  parsePackageVersions accepted = Ok m ->
  allChars (fun c => negb (Ascii.eqb c "/")) flag = true
  \/ (allChars (fun c => negb (Ascii.eqb c "=")) flag = true
      /\ occurs "/default" flag = false) ->
  parsePackageVersions (accepted ++ flag :: rest) = Throw (InvalidFlag flag).
Proof.
  unfold parsePackageVersions. intros Hm Hflag. rewrite parseFlags_app.
  destruct (parseFlags accepted _) as [st|e]; [|discriminate].
  cbn [bind parseFlags]. unfold parseFlag.
  replace (strMatch flagRe flag) with (@None Caps); [reflexivity|].
  symmetry. destruct Hflag as [H|[H1 H2]].
  - apply strMatch_flagRe_no_slash; assumption.
  - apply strMatch_flagRe_no_equals; assumption.
Qed.

Lemma parsePackageVersions_rejects_unmatched_witness :
  parsePackageVersions ["lit/next=lit-html@2.0.0"; "lit-next"; "x"]
  = Throw (InvalidFlag "lit-next")
  /\ parsePackageVersions ["lit/next=lit-html@2.0.0"; "lit/next"]
     = Throw (InvalidFlag "lit/next").
Proof.
  split.
  - apply (@parsePackageVersions_rejects_unmatched
             ["lit/next=lit-html@2.0.0"] "lit-next" ["x"]
             [("lit", [ {| label := "next";
                           dependencyOverrides := [("lit-html", "2.0.0")] |} ])]).
    + vm_compute. reflexivity.
    + left. vm_compute. reflexivity.
  - apply (@parsePackageVersions_rejects_unmatched
             ["lit/next=lit-html@2.0.0"] "lit/next" []
             [("lit", [ {| label := "next";
                           dependencyOverrides := [("lit-html", "2.0.0")] |} ])]).
    + vm_compute. reflexivity.
    + right. split; vm_compute; reflexivity.
Defined.

Lemma strMatch_flagRe_text (implementation label pvs : string) :
  wellFormedLabel implementation label = true ->
  nonEmpty pvs = true ->
  allChars (fun a => negb (isLineTerminator a)) pvs = true ->
  strMatch flagRe (implementation ^^ "/" ^^ label ^^ "=" ^^ pvs)
  = Some [ (4, pvs); (3, label); (1, implementation) ].
Proof.
  unfold wellFormedLabel. rewrite !andb_true_iff, !negb_true_iff.
  intros [[[[Hi Hic] Hl] Hlc] Hdef] Hne Hplt.
  destruct (nonEmpty_true _ Hne) as [e0 [pvs' Epvs]].
  destruct (nonEmpty_true _ Hi) as [c [i' Ei]].
  destruct (nonEmpty_true _ Hl) as [d [l' El]].
  apply strMatch_here. unfold matchHere, flagRe. cbn [matchRe].
  subst implementation. simpl in Hic. apply andb_true_iff in Hic.
  destruct Hic as [Hc Hic]. apply plainChar_true in Hc. destruct Hc as [Hc _].
  change (String c i' ^^ "/" ^^ label ^^ "=" ^^ pvs)
    with (String c (i' ^^ String "/" (label ^^ String "=" pvs))).
  apply dotPlusLazy_first with (sep := "/"%char); try assumption.
  - intros a u Ha. cbn [matchRe]. rewrite Ha. reflexivity.
  - cbn [matchRe]. rewrite Ascii.eqb_refl.
    rewrite matchRe_lit
      by (rewrite startsWith_append; [exact Hdef|reflexivity]).
    subst label. simpl in Hlc. apply andb_true_iff in Hlc.
    destruct Hlc as [Hd Hlc]. apply plainChar_true in Hd. destruct Hd as [Hd _].
    change (String d l' ^^ String "=" pvs) with (String d (l' ^^ String "=" pvs)).
    apply dotPlusLazy_first with (sep := "="%char); try assumption.
    + intros a u Ha. cbn [matchRe]. rewrite Ha. reflexivity.
    + cbn [matchRe]. rewrite Ascii.eqb_refl.
      rewrite Epvs in Hplt |- *. simpl in Hplt. apply andb_true_iff in Hplt.
      destruct Hplt as [He0 Hplt]. apply negb_true_iff in He0.
      apply dotPlusGreedy_all; [|assumption|assumption].
      rewrite consumed_all.
      change (String d (l' ^^ String "=" (String e0 pvs')))
        with (String d l' ^^ String "=" (String e0 pvs')).
      rewrite consumed_append.
      change (String c (i' ^^ String "/" (String d l' ^^ String "=" (String e0 pvs'))))
        with (String c i' ^^ String "/" (String d l' ^^ String "=" (String e0 pvs'))).
      rewrite consumed_append. reflexivity.
Qed.

Lemma strMatch_pvRe_no_at (pv : string) :
  allChars (fun a => negb (Ascii.eqb a "@")) pv = true ->
  strMatch pvRe pv = None.
Proof.
  apply strMatch_fails
    with (P := fun t => allChars (fun a => negb (Ascii.eqb a "@")) t = true).
  - intros c s. apply allChars_tail.
  - intros t Ht. unfold matchHere, pvRe. cbn [matchRe].
    match goal with
    | |- dotPlusGreedy ?k t = None =>
        destruct (@dotPlusGreedy_none k "@"%char) with (x := t) as [H1 _];
          [ intros a u Ha; cbn [matchRe]; rewrite Ha; reflexivity
          | reflexivity
          | exact Ht
          | exact H1 ]
    end.
Qed.

Lemma parseOverrides_bad_entry (good : list (string * string)) (bad : string)
      (rest : list string) :
  forallb wellFormedEntry good = true ->
  allChars (fun a => negb (Ascii.eqb a "@")) bad = true ->
  forall deps,
    parseOverrides (map entryText good ++ bad :: rest) deps
    = Throw (InvalidDependencyVersion bad).
Proof.
  intros Hg Hb. induction good as [|e es IH]; intro deps.
  - simpl. rewrite (strMatch_pvRe_no_at _ Hb). reflexivity.
  - simpl in Hg. apply andb_true_iff in Hg. destruct Hg as [He Hes].
    simpl. rewrite (strMatch_pvRe e He). apply IH. assumption.
Qed.

(** X2.  An override entry with no [@] is rejected.  In a flag
    [impl/label=e1,...,en] the entries are read in order; when those
    before it are well formed, the first entry that holds no [@] is the
    one named by the error, and the entries behind it are not looked at.
    The entry may be empty, as between two commas. *)
Theorem parsePackageVersions_rejects_entry (implementation label : string)
        (good : list (string * string)) (bad : string) (rest : list string) :
  wellFormedLabel implementation label = true ->
  forallb wellFormedEntry good = true ->
  allChars (plainChar ["@"%char; ","%char]) bad = true ->
  Forall (fun pv => allChars (plainChar [","%char]) pv = true) rest ->
  nonEmpty (joinWith "," (map entryText good ++ bad :: rest)) = true ->
  parsePackageVersions
    [implementation ^^ "/" ^^ label ^^ "="
       ^^ joinWith "," (map entryText good ++ bad :: rest)]
  = Throw (InvalidDependencyVersion bad).
Proof.
  intros Hhead Hgood Hbad Hrest Hne.
  assert (Hpieces : Forall (fun pv => allChars (plainChar [","%char]) pv = true)
                           (map entryText good ++ bad :: rest)).
  { apply Forall_app. split.
    - apply Forall_forall. intros x Hx. apply in_map_iff in Hx.
      destruct Hx as [e [Ee He]]. subst x.
      rewrite forallb_forall in Hgood.
      apply (wellFormedEntry_text e (Hgood e He)).
    - constructor; [|exact Hrest].
      eapply allChars_weaken; [|exact Hbad]. intros c Hc.
      apply plainChar_true in Hc. destruct Hc as [Hlt Hstops].
      unfold plainChar. rewrite Hlt. simpl.
      rewrite Ascii.eqb_sym, (Hstops ","%char) by (right; left; reflexivity).
      reflexivity. }
  unfold parsePackageVersions. cbn [parseFlags bind]. unfold parseFlag.
  rewrite strMatch_flagRe_text; [|assumption|assumption|].
  - cbn [cap Nat.eqb templ strMem uniqueImplLabels bind].
    rewrite splitOn_joinWith.
    + rewrite parseOverrides_bad_entry; [reflexivity|assumption|].
      eapply allChars_weaken; [|exact Hbad]. intros c Hc.
      apply plainChar_true in Hc. destruct Hc as [_ Hstops].
      rewrite Ascii.eqb_sym, (Hstops "@"%char) by (left; reflexivity). reflexivity.
    + destruct (map entryText good); discriminate.
    + eapply Forall_impl; [|exact Hpieces]. intros x Hx.
      eapply allChars_weaken; [|exact Hx]. intros c Hc.
      apply plainChar_true in Hc. destruct Hc as [_ Hstops].
      rewrite Ascii.eqb_sym, (Hstops ","%char) by (left; reflexivity). reflexivity.
  - apply allChars_joinWith; [reflexivity|].
    eapply Forall_impl; [|exact Hpieces]. intros x Hx.
    exact (noLineTerminator_of_plain _ _ Hx).
Qed.

Lemma parsePackageVersions_rejects_entry_witness :
  parsePackageVersions ["lit/next=lit-html@2.0.0,lit-element,x@1"]
  = Throw (InvalidDependencyVersion "lit-element").
Proof.
  apply (@parsePackageVersions_rejects_entry "lit" "next"
           [("lit-html", "2.0.0")] "lit-element" ["x@1"]).
  - vm_compute. reflexivity.
  - vm_compute. reflexivity.
  - vm_compute. reflexivity.
  - constructor; [vm_compute; reflexivity|constructor].
  - vm_compute. reflexivity.
Defined.

Lemma mapGet_addVersion (i : string) (f : Flag) (st : ParseState) :
  mapGet i (versions (addVersion f st))
  = if String.eqb i (flagImplementation f)
    then Some (match mapGet i (versions st) with
               | Some arr => arr
               | None => []
               end ++ [flagVersion f])
    else mapGet i (versions st).
Proof.
  unfold addVersion. cbn [versions]. rewrite mapGet_mapSet.
  destruct (String.eqb i (flagImplementation f)) eqn:E; [|reflexivity].
  apply String.eqb_eq in E. subst i. reflexivity.
Qed.

Lemma mapGet_addVersions (i : string) (fs : list Flag) :
  forall st,
    mapGet i (versions (addVersions fs st))
    = match mapGet i (versions st), versionsOf i fs with
      | None, [] => None
      | None, arr => Some arr
      | Some before, arr => Some (before ++ arr)
      end.
Proof.
  unfold addVersions, versionsOf.
  induction fs as [|f fs IH]; intro st.
  - simpl. destruct (mapGet i (versions st)); [rewrite app_nil_r|]; reflexivity.
  - cbn [fold_left filter]. rewrite IH, mapGet_addVersion.
    rewrite (String.eqb_sym (flagImplementation f) i).
    destruct (String.eqb i (flagImplementation f)).
    + cbn [map]. destruct (mapGet i (versions st)) as [before|].
      * rewrite <- app_assoc. reflexivity.
      * reflexivity.
    + reflexivity.
Qed.

Lemma keys_addVersions (fs : list Flag) :
  forall st,
    map fst (versions (addVersions fs st))
    = fold_left (fun seen k => if strMem k seen then seen else seen ++ [k])
                (map flagImplementation fs) (map fst (versions st)).
Proof.
  unfold addVersions. induction fs as [|f fs IH]; intro st; [reflexivity|].
  cbn [fold_left map]. rewrite IH. f_equal.
  unfold addVersion. cbn [versions]. apply keys_mapSet.
Qed.

(** X3.  On well-formed flags with distinct (implementation, label)
    pairs the parser returns a map whose keys are the implementations
    in the order of their first mention, and whose value for an
    implementation is the list of the versions of its flags, in the
    order of the flags; an implementation no flag names has no entry. *)
Theorem parsePackageVersions_groups_in_order (fs : list Flag) :
  forallb wellFormedFlag fs = true ->
  NoDup (labelPairs fs) ->
  exists m,
    parsePackageVersions (map flagText fs) = Ok m
    /\ map fst m = firstSeen (map flagImplementation fs)
    /\ forall implementation,
         mapGet implementation m
         = match versionsOf implementation fs with
           | [] => None
           | arr => Some arr
           end.
Proof.
  intros Hwf Hnd. eexists. split; [|split].
  - apply parsePackageVersions_wellFormed_unique; assumption.
  - rewrite keys_addVersions. reflexivity.
  - intro i. rewrite mapGet_addVersions. reflexivity.
Qed.

Lemma parsePackageVersions_groups_in_order_witness :
  exists m,
    parsePackageVersions ["b/one=p@1"; "a/default"; "b/two=p@2"] = Ok m
    /\ map fst m = ["b"; "a"]
    /\ forall implementation,
         mapGet implementation m
         = match versionsOf implementation
                   [ OverrideFlag "b" "one" [("p", "1")]; DefaultFlag "a";
                     OverrideFlag "b" "two" [("p", "2")] ] with
           | [] => None
           | arr => Some arr
           end.
Proof.
  apply (@parsePackageVersions_groups_in_order
           [ OverrideFlag "b" "one" [("p", "1")]; DefaultFlag "a";
             OverrideFlag "b" "two" [("p", "2")] ]).
  - vm_compute. reflexivity.
  - repeat constructor; simpl; intuition discriminate.
Defined.

Lemma addVersions_repeat_default (i : string) (n : nat) :
  forall arr0,
    versions (addVersions (repeat (DefaultFlag i) n)
                {| versions := [(i, arr0)]; uniqueImplLabels := [] |})
    = [(i, arr0 ++ repeat defaultVersion n)].
Proof.
  unfold addVersions. induction n as [|n IH]; intro arr0.
  - simpl. rewrite app_nil_r. reflexivity.
  - cbn [repeat fold_left]. unfold addVersion at 2.
    cbn [versions flagImplementation mapGet mapSet flagKey uniqueImplLabels flagVersion].
    rewrite String.eqb_refl. rewrite IH, <- app_assoc. reflexivity.
Qed.

(** X4.  The uniqueness check leaves [default] out: the flag
    [impl/default] given [n + 1] times is accepted and yields [n + 1]
    default versions for the implementation. *)
Theorem parsePackageVersions_default_repeats (implementation : string) (n : nat) :
  wellFormedFlag (DefaultFlag implementation) = true ->
  parsePackageVersions (repeat (implementation ^^ "/default") (S n))
  = Ok [(implementation, repeat defaultVersion (S n))].
Proof.
  intro Hwf.
  replace (repeat (implementation ^^ "/default") (S n))
    with (map flagText (repeat (DefaultFlag implementation) (S n)))
    by (rewrite map_repeat; reflexivity).
  rewrite parsePackageVersions_wellFormed_unique.
  - f_equal. cbn [repeat]. unfold addVersions. cbn [fold_left].
    unfold addVersion at 2.
    cbn [versions flagImplementation mapGet mapSet flagKey uniqueImplLabels flagVersion].
    apply (addVersions_repeat_default implementation n [defaultVersion]).
  - apply forallb_forall. intros f Hf. apply repeat_spec in Hf. subst f. exact Hwf.
  - replace (labelPairs (repeat (DefaultFlag implementation) (S n))) with (@nil (string * string)).
    + constructor.
    + generalize (S n). intro k. induction k; simpl; auto.
Qed.

Lemma parsePackageVersions_default_repeats_witness :
  parsePackageVersions ["lit/default"; "lit/default"]
  = Ok [("lit", [defaultVersion; defaultVersion])].
Proof.
  apply (@parsePackageVersions_default_repeats "lit" 1). vm_compute. reflexivity.
Defined.

Lemma parseOverrides_no_proto (pvs : list string) :
  forall deps deps',
    parseOverrides pvs deps = Ok deps' ->
    mapGet "__proto__" deps = None -> mapGet "__proto__" deps' = None.
Proof.
  induction pvs as [|pv pvs IH]; intros deps deps' H Hd.
  - simpl in H. inversion H; subst; assumption.
  - simpl in H. destruct (strMatch pvRe pv) as [m|]; [|discriminate].
    eapply IH; [exact H|]. unfold objSet.
    destruct (String.eqb (templ (cap m 1)) "__proto__") eqn:E; [assumption|].
    rewrite mapGet_mapSet, String.eqb_sym, E. assumption.
Qed.

Lemma parseFlag_no_proto (flag : string) (st st' : ParseState) :
  parseFlag flag st = Ok st' ->
  ownKeyFree "__proto__" (versions st) -> ownKeyFree "__proto__" (versions st').
Proof.
  unfold parseFlag. intros H Hst.
  destruct (strMatch flagRe flag) as [m|]; [|discriminate].
  match type of H with
  | (r <- ?X ;; _) = _ => destruct X as [[labels deps]|e] eqn:EX; [|discriminate]
  end.
  cbn [bind] in H. inversion H; subst st'; clear H. cbn [versions].
  assert (Hdeps : mapGet "__proto__" deps = None).
  { destruct (cap m 2).
    - inversion EX; subst. reflexivity.
    - destruct (strMem _ _); [discriminate|].
      destruct (cap m 4) as [pvs|]; [|discriminate].
      destruct (parseOverrides (splitOn "," pvs) []) as [d|] eqn:Ep; [|discriminate].
      inversion EX; subst. eapply parseOverrides_no_proto; [exact Ep|reflexivity]. }
  intros i arr v Hget Hin. rewrite mapGet_mapSet in Hget.
  destruct (String.eqb i (templ (cap m 1))) eqn:E.
  - inversion Hget; subst arr; clear Hget. apply in_app_or in Hin.
    destruct Hin as [Hin|[Hv|[]]].
    + apply String.eqb_eq in E. subst i.
      destruct (mapGet (templ (cap m 1)) (versions st)) as [arr0|] eqn:E0; [|destruct Hin].
      eapply Hst; eassumption.
    + subst v. exact Hdeps.
  - eapply Hst; eassumption.
Qed.

Lemma parseFlags_no_proto (flags : list string) :
  forall st st',
    parseFlags flags st = Ok st' ->
    ownKeyFree "__proto__" (versions st) -> ownKeyFree "__proto__" (versions st').
Proof.
  induction flags as [|f fs IH]; intros st st' H Hst.
  - simpl in H. inversion H; subst; assumption.
  - simpl in H. destruct (parseFlag f st) as [st1|] eqn:E; [|discriminate].
    eapply IH; [exact H|]. eapply parseFlag_no_proto; eassumption.
Qed.

(** X5.  No version the parser returns has an override named
    [__proto__], whatever the flags: [dependencyOverrides[pkg] = version]
    with that name reaches the setter of the prototype, which leaves the
    object as it was and raises nothing. *)
Theorem parsePackageVersions_drops_proto (flags : list string) (m : VersionMap) :
  parsePackageVersions flags = Ok m ->
  forall implementation arr v,
    mapGet implementation m = Some arr -> In v arr ->
    mapGet "__proto__" (dependencyOverrides v) = None.
Proof.
  unfold parsePackageVersions. intro H.
  destruct (parseFlags flags _) as [st|] eqn:E; [|discriminate].
  inversion H; subst m. eapply parseFlags_no_proto; [exact E|].
  intros i arr v Hget. discriminate.
Qed.

Lemma parsePackageVersions_drops_proto_witness :
  parsePackageVersions ["lit/next=__proto__@1.0.0,lit-html@2.0.0"]
  = Ok [("lit", [ {| label := "next";
                     dependencyOverrides := [("lit-html", "2.0.0")] |} ])]
  /\ mapGet "__proto__" [("lit-html", "2.0.0")] = None.
Proof.
  split; [vm_compute; reflexivity|].
  apply (@parsePackageVersions_drops_proto
           ["lit/next=__proto__@1.0.0,lit-html@2.0.0"]
           [("lit", [ {| label := "next";
                         dependencyOverrides := [("lit-html", "2.0.0")] |} ])]
           eq_refl "lit"
           [ {| label := "next"; dependencyOverrides := [("lit-html", "2.0.0")] |} ]
           {| label := "next"; dependencyOverrides := [("lit-html", "2.0.0")] |}).
  - reflexivity.
  - left. reflexivity.
Defined.

(** ** Paths of kept segments *)

Lemma keptSegment_nonEmpty (s : string) :
  keptSegment s = true -> exists c s', s = String c s'.
Proof.
  unfold keptSegment. rewrite !andb_true_iff, !negb_true_iff.
  intros [[[H _] _] _]. destruct s; [discriminate|eauto].
Qed.

Lemma filter_kept (segs : list string) :
  Forall (fun x => keptSegment x = true) segs ->
  filter (fun seg => negb (String.eqb seg EmptyString)) segs = segs.
Proof.
  induction 1 as [|x l Hx Hl IH]; [reflexivity|].
  simpl. destruct (keptSegment_nonEmpty _ Hx) as [c [s' E]]. subst x.
  simpl. rewrite IH. reflexivity.
Qed.

Lemma splitOn_rooted (segs : list string) :
  Forall (fun x => keptSegment x = true) segs ->
  filter (fun seg => negb (String.eqb seg EmptyString)) (splitOn "/" (rootedPath segs))
  = segs.
Proof.
  intro Hk. unfold rootedPath.
  change ("/" ^^ joinWith "/" segs) with (EmptyString ^^ String "/" (joinWith "/" segs)).
  rewrite splitOn_append_sep. cbn [splitOn app filter String.eqb negb].
  destruct segs as [|s0 segs']; [reflexivity|].
  rewrite splitOn_joinWith; [|discriminate|apply keptSegment_plain; assumption].
  apply filter_kept. assumption.
Qed.

Lemma absSegments_rooted (segs : list string) :
  Forall (fun x => keptSegment x = true) segs ->
  absSegments (rootedPath segs) = segs.
Proof. apply splitOn_rooted. Qed.

Lemma fold_normStep_empty (l : list string) :
  forall stack,
    fold_left (normStep false) l stack
    = fold_left (normStep false)
                (filter (fun seg => negb (String.eqb seg EmptyString)) l) stack.
Proof.
  induction l as [|x l IH]; intro stack; [reflexivity|].
  simpl. destruct (String.eqb x EmptyString) eqn:E; simpl.
  - unfold normStep at 2. rewrite E. apply IH.
  - apply IH.
Qed.

Lemma path_resolve_self (cwd : string) (segs : list string) :
  Forall (fun x => keptSegment x = true) segs ->
  path_resolve cwd [rootedPath segs] = rootedPath segs.
Proof.
  intro Hk. unfold path_resolve, rootedPath.
  cbn [rev app resolveAcc String.eqb Ascii.eqb Bool.eqb isAbsolute append].
  cbv iota beta. cbn [negb].
  unfold normalizeString. f_equal. f_equal.
  rewrite fold_normStep_empty.
  change (String "/" (joinWith "/" segs ^^ String "/" EmptyString))
    with (EmptyString ^^ String "/" (joinWith "/" segs ^^ String "/" EmptyString)).
  rewrite !splitOn_append_sep. cbn [splitOn app filter String.eqb negb].
  rewrite filter_app. cbn [filter String.eqb negb]. rewrite app_nil_r.
  destruct segs as [|s0 segs'].
  - reflexivity.
  - rewrite splitOn_joinWith; [|discriminate|apply keptSegment_plain; assumption].
    rewrite (filter_kept Hk), (fold_normStep_push Hk), app_nil_r, rev_involutive.
    reflexivity.
Qed.

Lemma endsWithSlash_kept (s : string) :
  keptSegment s = true -> endsWithSlash s = false.
Proof.
  unfold keptSegment. rewrite !andb_true_iff, !negb_true_iff.
  intros [_ H]. induction s as [|c s IH]; [reflexivity|].
  simpl in H. apply andb_true_iff in H. destruct H as [Hc Hs].
  apply negb_true_iff in Hc. destruct s as [|d s].
  - simpl. exact Hc.
  - change (endsWithSlash (String c (String d s))) with (endsWithSlash (String d s)).
    apply IH. assumption.
Qed.

Lemma list_ascii_of_append (a b : string) :
  list_ascii_of_string (a ^^ b) = list_ascii_of_string a ++ list_ascii_of_string b.
Proof. induction a as [|c a IH]; simpl; [reflexivity|rewrite IH; reflexivity]. Qed.

Lemma dropWhile_app_all {A : Type} (f : A -> bool) (l r : list A) :
  forallb f l = true -> dropWhile f (l ++ r) = dropWhile f r.
Proof.
  induction l as [|x l IH]; simpl; [reflexivity|].
  intro H. apply andb_true_iff in H. destruct H as [Hx Hl]. rewrite Hx. auto.
Qed.

Lemma forallb_chars (ok : ascii -> bool) (s : string) :
  forallb ok (list_ascii_of_string s) = allChars ok s.
Proof. induction s as [|c s IH]; simpl; [reflexivity|rewrite IH; reflexivity]. Qed.

Lemma path_dirname_child (segs : list string) (x : string) :
  Forall (fun s => keptSegment s = true) segs ->
  keptSegment x = true ->
  path_dirname (rootedPath (segs ++ [x])) = rootedPath segs.
Proof.
  intros Hk Hx. destruct (keptSegment_nonEmpty _ Hx) as [c [x' Ex]].
  assert (Hplain : allChars (fun a => negb (Ascii.eqb a "/")) x = true).
  { unfold keptSegment in Hx. rewrite !andb_true_iff in Hx. tauto. }
  unfold rootedPath. rewrite joinWith_snoc.
  unfold path_dirname. cbn [append isSlash Ascii.eqb Bool.eqb].
  remember (rev (list_ascii_of_string x)) as rx eqn:Erx.
  assert (Hrx : forallb (fun c => negb (isSlash c)) rx = true).
  { subst rx. rewrite forallb_forall. intros a Ha. apply in_rev in Ha.
    pose proof (forallb_chars (fun a => negb (Ascii.eqb a "/")) x) as Hf.
    rewrite Hplain in Hf. rewrite forallb_forall in Hf. apply Hf. assumption. }
  assert (Hhd : forall r, dropWhile isSlash (rx ++ r) = rx ++ r).
  { destruct rx as [|a rx'].
    - apply (f_equal (@List.length _)) in Erx. rewrite length_rev, Ex in Erx.
      discriminate.
    - intro r. simpl in Hrx. apply andb_true_iff in Hrx. destruct Hrx as [Ha _].
      apply negb_true_iff in Ha. simpl. rewrite Ha. reflexivity. }
  destruct segs as [|s0 segs'].
  - rewrite <- Erx. rewrite <- (app_nil_r rx), Hhd.
    rewrite dropWhile_app_all by assumption. reflexivity.
  - set (j := joinWith "/" (s0 :: segs')).
    rewrite list_ascii_of_append. cbn [list_ascii_of_string append].
    rewrite rev_app_distr. cbn [rev]. rewrite <- Erx.
    rewrite <- app_assoc. rewrite Hhd.
    rewrite dropWhile_app_all by assumption.
    cbn [app dropWhile isSlash Ascii.eqb Bool.eqb negb].
    destruct (rev (list_ascii_of_string j)) as [|b before] eqn:Eb.
    + exfalso. apply (f_equal (@List.length _)) in Eb. rewrite length_rev in Eb.
      unfold j in Eb. inversion Hk; subst.
      destruct (keptSegment_nonEmpty _ H1) as [c0 [s0' E0]]. subst s0.
      destruct segs'; discriminate.
    + rewrite <- Eb, rev_involutive, string_of_list_ascii_of_string. reflexivity.
Qed.

Lemma dropCommon_prefix (rs ds : list string) :
  dropCommon rs (rs ++ ds) = ([], ds).
Proof.
  induction rs as [|r rs IH]; simpl.
  - destruct ds; reflexivity.
  - rewrite String.eqb_refl. exact IH.
Qed.

Lemma path_relative_below (cwd : string) (rs ds : list string) :
  Forall (fun s => keptSegment s = true) (rs ++ ds) ->
  path_relative cwd (rootedPath rs) (rootedPath (rs ++ ds)) = joinWith "/" ds.
Proof.
  intro Hk. pose proof Hk as Hk'. apply Forall_app in Hk'. destruct Hk' as [Hr Hd].
  unfold path_relative.
  destruct (String.eqb (rootedPath rs) (rootedPath (rs ++ ds))) eqn:E.
  - apply String.eqb_eq in E.
    apply (f_equal absSegments) in E.
    rewrite !absSegments_rooted in E by assumption.
    assert (ds = []).
    { apply (f_equal (@List.length _)) in E. rewrite length_app in E.
      destruct ds; [reflexivity|simpl in E; lia]. }
    subst ds. reflexivity.
  - rewrite !path_resolve_self by assumption.
    rewrite !absSegments_rooted by assumption.
    rewrite dropCommon_prefix. reflexivity.
Qed.

Lemma joinWith_ends (sep : string) (init : list string) (z : string) :
  exists a, joinWith sep (init ++ [z]) = a ^^ z.
Proof.
  rewrite joinWith_snoc. destruct init as [|i0 init'].
  - exists EmptyString. reflexivity.
  - exists (joinWith sep (i0 :: init') ^^ sep). rewrite append_assoc. reflexivity.
Qed.

Lemma path_join_children (segs xs : list string) :
  Forall (fun s => keptSegment s = true) segs ->
  Forall (fun s => keptSegment s = true) xs ->
  xs <> [] ->
  path_join (rootedPath segs :: xs) = rootedPath (segs ++ xs).
Proof.
  intros Hk Hx Hne.
  assert (Hall : Forall (fun s => keptSegment s = true) (segs ++ xs))
    by (apply Forall_app; split; assumption).
  unfold path_join.
  assert (Ef : filter (fun a => negb (String.eqb a EmptyString)) (rootedPath segs :: xs)
               = rootedPath segs :: xs).
  { cbn [filter]. unfold rootedPath at 1. cbn [append String.eqb negb].
    rewrite (filter_kept Hx). reflexivity. }
  rewrite Ef.
  assert (Ej : joinWith "/" (rootedPath segs :: xs)
               = rootedPath segs ^^ "/" ^^ joinWith "/" xs).
  { destruct xs; [contradiction|reflexivity]. }
  rewrite Ej.
  change (rootedPath segs ^^ "/" ^^ joinWith "/" xs)
    with (String "/" (joinWith "/" segs ^^ String "/" (joinWith "/" xs))).
  unfold path_normalize.
  cbn [String.eqb isAbsolute Ascii.eqb Bool.eqb]. cbv iota. cbn [negb].
  assert (Etrail : endsWithSlash (String "/" (joinWith "/" segs ^^ String "/" (joinWith "/" xs)))
                   = false).
  { destruct (@exists_last _ xs Hne) as [init [z Ez]]. subst xs.
    apply Forall_app in Hx. destruct Hx as [_ Hz]. inversion Hz; subst.
    destruct (joinWith_ends "/" init z) as [a Ea]. rewrite Ea.
    destruct (keptSegment_nonEmpty _ H1) as [c [t Et]].
    replace (String "/" (joinWith "/" segs ^^ String "/" (a ^^ z)))
      with ((String "/" (joinWith "/" segs ^^ String "/" a)) ^^ z)
      by (simpl; f_equal; rewrite append_assoc; reflexivity).
    rewrite Et, endsWithSlash_append, <- Et. apply endsWithSlash_kept. assumption. }
  rewrite Etrail.
  assert (En : normalizeString (String "/" (joinWith "/" segs ^^ String "/" (joinWith "/" xs)))
                               false
               = joinWith "/" (segs ++ xs)).
  { unfold normalizeString. rewrite fold_normStep_empty.
    change (String "/" (joinWith "/" segs ^^ String "/" (joinWith "/" xs)))
      with (EmptyString ^^ String "/" (joinWith "/" segs ^^ String "/" (joinWith "/" xs))).
    rewrite !splitOn_append_sep. cbn [splitOn app filter String.eqb negb].
    rewrite filter_app.
    assert (Efs : forall l, Forall (fun s => keptSegment s = true) l ->
                            filter (fun seg => negb (String.eqb seg EmptyString))
                                   (splitOn "/" (joinWith "/" l)) = l).
    { intros l Hl. destruct l as [|s0 l']; [reflexivity|].
      rewrite splitOn_joinWith; [|discriminate|apply keptSegment_plain; assumption].
      apply filter_kept. assumption. }
    rewrite (Efs _ Hk), (Efs _ Hx).
    rewrite (fold_normStep_push Hall), app_nil_r, rev_involutive. reflexivity. }
  rewrite En.
  destruct (String.eqb (joinWith "/" (segs ++ xs)) EmptyString) eqn:E; [|reflexivity].
  exfalso. apply String.eqb_eq in E.
  destruct (@exists_last _ xs Hne) as [init [z Ez]]. subst xs.
  apply Forall_app in Hx. destruct Hx as [_ Hz]. inversion Hz; subst.
  destruct (keptSegment_nonEmpty _ H1) as [c [t Et]].
  rewrite app_assoc in E. destruct (joinWith_ends "/" (segs ++ init) z) as [a Ea].
  rewrite Ea, Et in E. destruct a; discriminate.
Qed.

(** ** The shape of the plans *)

Section PlanShape.
Variable disk : Disk.
Variable benchmarkRoot : string.

Lemma resolveSpec_remote (spec : JsVal) :
  isRemoteSpec spec = true -> resolveSpec disk benchmarkRoot spec = Ok Remote.
Proof.
  unfold isRemoteSpec, resolveSpec.
  destruct (getProp spec "url") as [url|]; cbn [bind]; [|discriminate].
  destruct (getProp url "kind") as [kind|]; cbn [bind]; [|discriminate].
  intro H. rewrite H. reflexivity.
Qed.

Lemma resolveSpec_class (spec : JsVal) (r : Resolved) :
  resolveSpec disk benchmarkRoot spec = Ok r ->
  match r with
  | Remote => isRemoteSpec spec = true
  | DefaultVersion => isRemoteSpec spec = false /\ hasDefaultLabel spec = true
  | Versioned _ _ _ _ => isRemoteSpec spec = false /\ hasDefaultLabel spec = false
  end.
Proof.
  unfold isRemoteSpec, hasDefaultLabel, resolveSpec.
  destruct (getProp spec "url") as [url|]; cbn [bind]; [|discriminate].
  destruct (getProp url "kind") as [kind|]; cbn [bind]; [|discriminate].
  destruct (isStr kind "remote").
  - intro H. inversion H. reflexivity.
  - destruct (getProp url "version") as [version|]; cbn [bind]; [|discriminate].
    destruct (getProp version "label") as [lbl|]; cbn [bind]; [|discriminate].
    destruct (isStr lbl "default").
    + intro H. inversion H. auto.
    + intro H.
      repeat match type of H with
             | bind ?m _ = _ => destruct m; cbn [bind] in H; [|discriminate]
             | match ?m with _ => _ end = _ => destruct m; try discriminate
             end.
      inversion H. auto.
Qed.

Lemma groupSpecs_app (a b : list JsVal) :
  forall st,
    groupSpecs disk benchmarkRoot (a ++ b) st
    = (st' <- groupSpecs disk benchmarkRoot a st ;; groupSpecs disk benchmarkRoot b st').
Proof.
  induction a as [|s a IH]; intro st; [reflexivity|].
  simpl. destruct (groupSpec disk benchmarkRoot s st) as [st'|e]; simpl;
    [apply IH|reflexivity].
Qed.

Lemma groupSpecs_skips_remote (given : list JsVal) :
  forall st,
    groupSpecs disk benchmarkRoot (filter (fun s => negb (isRemoteSpec s)) given) st
    = groupSpecs disk benchmarkRoot given st.
Proof.
  induction given as [|s given IH]; intro st; [reflexivity|].
  cbn [filter]. destruct (isRemoteSpec s) eqn:E; cbn [negb groupSpecs].
  - unfold groupSpec. rewrite (resolveSpec_remote _ E). cbn [bind]. apply IH.
  - destruct (groupSpec disk benchmarkRoot s st); cbn [bind]; [apply IH|reflexivity].
Qed.

(** The default specs so far are those with the default label, in order;
    the buckets hold the other local specs. *)
Lemma groupSpecs_defaults (given : list JsVal) :
  forall st st',
    groupSpecs disk benchmarkRoot given st = Ok st' ->
    defaultSpecs st'
    = defaultSpecs st
      ++ filter (fun s => negb (isRemoteSpec s) && hasDefaultLabel s)%bool given.
Proof.
  induction given as [|s given IH]; intros st st' H.
  - simpl in H. inversion H. simpl. rewrite app_nil_r. reflexivity.
  - simpl in H. unfold groupSpec in H.
    destruct (resolveSpec disk benchmarkRoot s) as [r|] eqn:Er; [|discriminate].
    cbn [bind] in H. pose proof (resolveSpec_class _ Er) as Hc.
    destruct r as [| |d i l deps]; cbn [bind] in H; apply IH in H; rewrite H;
      cbn [filter defaultSpecs].
    + rewrite Hc. reflexivity.
    + destruct Hc as [H1 H2]. rewrite H1, H2. cbn [negb andb].
      rewrite <- app_assoc. reflexivity.
    + destruct Hc as [H1 H2]. rewrite H1, H2. reflexivity.
Qed.

Lemma concat_mapSet (k : string) (x : JsVal) (m : list (string * list JsVal)) :
  Permutation
    (List.concat (map snd (mapSet k (match mapGet k m with
                                | Some arr => arr
                                | None => []
                                end ++ [x]) m)))
    (List.concat (map snd m) ++ [x]).
Proof.
  induction m as [|[k0 arr0] m IH]; simpl.
  - apply Permutation_refl.
  - destruct (String.eqb k k0); simpl.
    + rewrite <- !app_assoc. apply Permutation_app_head.
      apply Permutation_app_comm.
    + rewrite <- !app_assoc. apply Permutation_app_head. exact IH.
Qed.

Lemma groupSpecs_partition (given : list JsVal) :
  forall st st',
    groupSpecs disk benchmarkRoot given st = Ok st' ->
    Permutation (defaultSpecs st' ++ List.concat (map snd (keySpecs st')))
                ((defaultSpecs st ++ List.concat (map snd (keySpecs st)))
                 ++ filter (fun s => negb (isRemoteSpec s)) given).
Proof.
  induction given as [|s given IH]; intros st st' H.
  - simpl in H. inversion H. simpl. rewrite app_nil_r. apply Permutation_refl.
  - simpl in H. unfold groupSpec in H.
    destruct (resolveSpec disk benchmarkRoot s) as [r|] eqn:Er; [|discriminate].
    cbn [bind] in H. pose proof (resolveSpec_class _ Er) as Hc.
    destruct r as [| |d i l deps]; cbn [bind] in H; apply IH in H;
      cbn [filter].
    + rewrite Hc. exact H.
    + destruct Hc as [H1 _]. rewrite H1. cbn [negb].
      eapply Permutation_trans; [exact H|]. cbn [defaultSpecs keySpecs].
      rewrite <- !app_assoc. apply Permutation_app_head. simpl.
      apply Permutation_middle.
    + destruct Hc as [H1 _]. rewrite H1. cbn [negb].
      eapply Permutation_trans; [exact H|]. cbn [defaultSpecs keySpecs].
      rewrite <- !app_assoc. apply Permutation_app_head.
      eapply Permutation_trans; [apply Permutation_app_tail, concat_mapSet|].
      rewrite <- app_assoc. apply Permutation_refl.
Qed.

Lemma groupSpec_bucketsFiled (s : JsVal) (st st' : GroupState) :
  groupSpec disk benchmarkRoot s st = Ok st' ->
  bucketsFiled st -> bucketsFiled st'.
Proof.
  unfold groupSpec. intros H Hst.
  destruct (resolveSpec disk benchmarkRoot s) as [[| |d i l deps]|]; cbn [bind] in H;
    inversion H; subst; clear H; try exact Hst.
  intros k arr Hin. cbn [keySpecs keyDeps] in *. apply In_mapSet in Hin.
  rewrite mapGet_mapSet. destruct Hin as [[Ek Ea]|Hin].
  - subst k arr. split.
    + destruct (mapGet _ (keySpecs st)) as [a|]; [destruct a|]; discriminate.
    + exists d, i, l, deps. rewrite String.eqb_refl. split; reflexivity.
  - destruct (Hst k arr Hin) as [Hne [d' [i' [l' [deps' [Ek Hd]]]]]].
    split; [assumption|].
    destruct (String.eqb k (JSON_stringify [d; i; l])) eqn:E.
    + apply String.eqb_eq in E. exists d, i, l, deps. split; [exact E|reflexivity].
    + exists d', i', l', deps'. split; assumption.
Qed.

Lemma groupSpecs_bucketsFiled (given : list JsVal) :
  forall st st',
    groupSpecs disk benchmarkRoot given st = Ok st' ->
    bucketsFiled st -> bucketsFiled st'.
Proof.
  induction given as [|s given IH]; intros st st' H Hst.
  - simpl in H. inversion H; subst. assumption.
  - simpl in H. destruct (groupSpec disk benchmarkRoot s st) as [st1|] eqn:E;
      [|discriminate].
    cbn [bind] in H. eapply IH; [exact H|]. eapply groupSpec_bucketsFiled; eassumption.
Qed.

Variable npmInstallRoot : string.

Lemma emitPlans_filed (keyDeps : list (string * list (string * JsVal)))
      (entries : list (string * list JsVal)) :
  (forall k arr,
      In (k, arr) entries ->
      arr <> []
      /\ exists d i l deps, k = installKey d i l /\ mapGet k keyDeps = Some deps) ->
  forall plans,
  exists news,
    emitPlans disk benchmarkRoot npmInstallRoot keyDeps entries plans
    = Ok (plans ++ news)
    /\ Forall2 (fun e p =>
                  snd e <> []
                  /\ exists d i l deps,
                       fst e = installKey d i l
                       /\ mapGet (fst e) keyDeps = Some deps
                       /\ p = installPlan disk benchmarkRoot npmInstallRoot
                                d l (snd e) deps)
               entries news.
Proof.
  induction entries as [|[k arr] entries IH]; intros Hall plans.
  - exists []. rewrite app_nil_r. split; [reflexivity|constructor].
  - destruct (Hall k arr (or_introl eq_refl)) as [Hne [d [i [l [deps [Ek Hd]]]]]].
    cbn [emitPlans]. subst k. unfold installKey in *.
    rewrite (@emitPlan_installPlan disk benchmarkRoot npmInstallRoot d i l arr deps keyDeps Hd).
    cbn [bind].
    destruct (IH (fun k arr H => Hall k arr (or_intror H))
                 (plans ++ [installPlan disk benchmarkRoot npmInstallRoot d l arr deps]))
      as [news [E Hnews]].
    eexists (_ :: news). split.
    + rewrite E, <- app_assoc. reflexivity.
    + constructor; [|exact Hnews]. cbn [fst snd]. split; [assumption|].
      exists d, i, l, deps. auto.
Qed.

Lemma bucketsFiled_start : bucketsFiled (mkGroupState [] [] []).
Proof. intros k arr []. Qed.

(** The plans in terms of the state the first loop leaves. *)
Lemma makeServerPlans_of_state (given : list JsVal) (st : GroupState) :
  groupSpecs disk benchmarkRoot given (mkGroupState [] [] []) = Ok st ->
  exists keyed,
    makeServerPlans disk benchmarkRoot npmInstallRoot given
    = Ok ((if (0 <? List.length (defaultSpecs st))%nat
           then [defaultPlan benchmarkRoot (defaultSpecs st)] else []) ++ keyed)
    /\ Forall2 (fun e p =>
                  snd e <> []
                  /\ exists d i l deps,
                       fst e = installKey d i l
                       /\ mapGet (fst e) (keyDeps st) = Some deps
                       /\ p = installPlan disk benchmarkRoot npmInstallRoot
                                d l (snd e) deps)
               (keySpecs st) keyed.
Proof.
  intro Hg. unfold makeServerPlans. rewrite Hg. cbn [bind].
  pose proof (groupSpecs_bucketsFiled _ Hg bucketsFiled_start) as Hb.
  destruct (emitPlans_filed (keyDeps st) (keySpecs st) Hb
              (if (0 <? List.length (defaultSpecs st))%nat
               then [defaultPlan benchmarkRoot (defaultSpecs st)] else []))
    as [news [E Hnews]].
  exists news. split; [exact E|exact Hnews].
Qed.

Lemma groupSpecs_throws (given : list JsVal) (e : Error) :
  forall st,
    groupSpecs disk benchmarkRoot given st = Throw e ->
    exists processed spec rest,
      given = processed ++ spec :: rest
      /\ resolveSpec disk benchmarkRoot spec = Throw e
      /\ forall s, In s processed -> exists r, resolveSpec disk benchmarkRoot s = Ok r.
Proof.
  induction given as [|s given IH]; intros st H; [discriminate|].
  simpl in H. unfold groupSpec in H.
  destruct (resolveSpec disk benchmarkRoot s) as [r|e'] eqn:Er.
  - cbn [bind] in H.
    assert (Hnext : exists st1, groupSpecs disk benchmarkRoot given st1 = Throw e).
    { destruct r; cbn [bind] in H; eauto. }
    destruct Hnext as [st1 H1].
    destruct (IH _ H1) as [p [sp [rest [Eg [Hs Hp]]]]].
    exists (s :: p), sp, rest. split; [rewrite Eg; reflexivity|]. split; [assumption|].
    intros s' [E|Hin]; [subst; eauto|auto].
  - cbn [bind] in H. inversion H; subst. exists [], s, given.
    split; [reflexivity|]. split; [assumption|]. intros s' [].
Qed.

Lemma groupSpecs_returns (given : list JsVal) :
  (forall s, In s given -> exists r, resolveSpec disk benchmarkRoot s = Ok r) ->
  forall st, exists st', groupSpecs disk benchmarkRoot given st = Ok st'.
Proof.
  induction given as [|s given IH]; intros Hall st; [simpl; eauto|].
  simpl. unfold groupSpec.
  destruct (Hall s (or_introl eq_refl)) as [r Er]. rewrite Er. cbn [bind].
  destruct r; cbn [bind]; apply IH; intros s' Hs'; apply Hall; right; assumption.
Qed.
End PlanShape.

(** X6.  Specs with a remote URL take no part in planning: leaving
    them out of the list changes neither the plans nor the exception of
    [makeServerPlans]. *)
Theorem makeServerPlans_skips_remote (disk : Disk) (benchmarkRoot npmInstallRoot : string)
        (given : list JsVal) :
  makeServerPlans disk benchmarkRoot npmInstallRoot
    (filter (fun s => negb (isRemoteSpec s)) given)
  = makeServerPlans disk benchmarkRoot npmInstallRoot given.
Proof.
  unfold makeServerPlans. rewrite groupSpecs_skips_remote. reflexivity.
Qed.

(** X7.  When [makeServerPlans] returns, the specs with the label
    [default] whose URL is not remote are in one plan, in their order;
    that plan comes first, has no install and mounts the benchmark root
    at [/]; it is absent when there is no such spec.  Every plan behind
    it holds at least one spec and is the install plan of a package
    directory and a label. *)
Theorem makeServerPlans_default_first (disk : Disk)
        (benchmarkRoot npmInstallRoot : string) (given : list JsVal)
        (plans : list ServerPlan) :
  makeServerPlans disk benchmarkRoot npmInstallRoot given = Ok plans ->
  let defaults :=
    filter (fun s => negb (isRemoteSpec s) && hasDefaultLabel s)%bool given in
  exists keyed,
    plans = match defaults with
            | [] => []
            | _ :: _ => [defaultPlan benchmarkRoot defaults]
            end ++ keyed
    /\ Forall (fun p =>
                 specs p <> []
                 /\ exists packageDir label deps,
                      p = installPlan disk benchmarkRoot npmInstallRoot
                            packageDir label (specs p) deps)
              keyed.
Proof.
  intros H defaults.
  destruct (groupSpecs disk benchmarkRoot given (mkGroupState [] [] [])) as [st|e] eqn:Eg.
  - destruct (@makeServerPlans_of_state disk benchmarkRoot npmInstallRoot given st Eg) as [keyed [E Hk]].
    rewrite E in H. inversion H; subst plans; clear H.
    pose proof (@groupSpecs_defaults disk benchmarkRoot given _ _ Eg) as Hd. cbn [defaultSpecs app] in Hd.
    fold defaults in Hd. rewrite Hd.
    exists keyed. split.
    + destruct defaults; reflexivity.
    + clear - Hk. induction Hk as [|e p es ps [Hne [d [i [l [deps [_ [_ Ep]]]]]]] _ IH];
        constructor; [|exact IH].
      subst p. cbn [specs installPlan]. split; [assumption|]. eauto.
  - unfold makeServerPlans in H. rewrite Eg in H. discriminate.
Qed.

Lemma makeServerPlans_default_first_witness :
  let d1 := localSpec "bench" "lit" defaultVersion in
  let d2 := localSpec "Zeta" "lit" defaultVersion in
  let o := localSpec "bench" "lit" (Fixture.v "old" "0.9.0") in
  exists keyed,
    makeServerPlans Fixture.disk "/repo/benchmarks" "/repo/installs"
      [remoteSpec "news" "http://example.com"; d1; o; d2]
    = Ok (defaultPlan "/repo/benchmarks" [d1; d2] :: keyed)
    /\ Forall (fun p =>
                 specs p <> []
                 /\ exists packageDir label deps,
                      p = installPlan Fixture.disk "/repo/benchmarks" "/repo/installs"
                            packageDir label (specs p) deps)
              keyed.
Proof.
  cbv zeta.
  destruct (makeServerPlans Fixture.disk "/repo/benchmarks" "/repo/installs"
              [ remoteSpec "news" "http://example.com";
                localSpec "bench" "lit" defaultVersion;
                localSpec "bench" "lit" (Fixture.v "old" "0.9.0");
                localSpec "Zeta" "lit" defaultVersion ]) as [plans|e] eqn:E.
  - destruct (@makeServerPlans_default_first Fixture.disk "/repo/benchmarks"
                "/repo/installs" _ plans E) as [keyed [Ep Hk]].
    exists keyed. split; [rewrite Ep; reflexivity|exact Hk].
  - exfalso. vm_compute in E. discriminate.
Defined.

(** X8.  The plans partition the specs: the specs of all plans,
    taken together, are a permutation of the specs of the list whose
    URL is not remote.  None is lost and none is planned twice. *)
Theorem makeServerPlans_partition (disk : Disk)
        (benchmarkRoot npmInstallRoot : string) (given : list JsVal)
        (plans : list ServerPlan) :
  makeServerPlans disk benchmarkRoot npmInstallRoot given = Ok plans ->
  Permutation (List.concat (map specs plans))
              (filter (fun s => negb (isRemoteSpec s)) given).
Proof.
  intro H.
  destruct (groupSpecs disk benchmarkRoot given (mkGroupState [] [] [])) as [st|e] eqn:Eg.
  - destruct (@makeServerPlans_of_state disk benchmarkRoot npmInstallRoot given st Eg) as [keyed [E Hk]].
    rewrite E in H. inversion H; subst plans; clear H.
    pose proof (@groupSpecs_partition disk benchmarkRoot given _ _ Eg) as Hp. cbn [defaultSpecs keySpecs] in Hp.
    simpl in Hp. eapply Permutation_trans; [|exact Hp].
    rewrite map_app, concat_app.
    assert (E1 : List.concat (map specs (if (0 <? List.length (defaultSpecs st))%nat
                                    then [defaultPlan benchmarkRoot (defaultSpecs st)]
                                    else []))
                 = defaultSpecs st).
    { destruct (defaultSpecs st); simpl; [reflexivity|]. rewrite app_nil_r. reflexivity. }
    rewrite E1.
    assert (E2 : map specs keyed = map snd (keySpecs st)).
    { clear - Hk. induction Hk as [|e p es ps [_ [d [i [l [deps [_ [_ Ep]]]]]]] _ IH];
        [reflexivity|].
      simpl. rewrite IH. subst p. reflexivity. }
    rewrite E2. apply Permutation_refl.
  - unfold makeServerPlans in H. rewrite Eg in H. discriminate.
Qed.

Lemma makeServerPlans_partition_witness :
  let d := localSpec "bench" "lit" defaultVersion in
  let o := localSpec "bench" "lit" (Fixture.v "old" "0.9.0") in
  let n := localSpec "Zeta" "lit" (Fixture.v "new" "1.1.0") in
  exists plans,
    makeServerPlans Fixture.disk "/repo/benchmarks" "/repo/installs"
      [o; remoteSpec "news" "http://example.com"; d; n] = Ok plans
    /\ Permutation (List.concat (map specs plans)) [o; d; n].
Proof.
  cbv zeta.
  destruct (makeServerPlans Fixture.disk "/repo/benchmarks" "/repo/installs"
              [ localSpec "bench" "lit" (Fixture.v "old" "0.9.0");
                remoteSpec "news" "http://example.com";
                localSpec "bench" "lit" defaultVersion;
                localSpec "Zeta" "lit" (Fixture.v "new" "1.1.0") ]) as [plans|e] eqn:E.
  - exists plans. split; [reflexivity|].
    exact (@makeServerPlans_partition Fixture.disk "/repo/benchmarks" "/repo/installs"
             _ plans E).
  - exfalso. vm_compute in E. discriminate.
Defined.

(** X9.  [makeServerPlans] fails only in its first loop.  An
    exception it throws is the exception of resolving one spec of the
    list, the first that does not resolve; when every spec resolves it
    returns plans.  [JSON.parse(key)] and [keyDeps.get(key)] of the
    second loop never fail. *)
Theorem makeServerPlans_fails_on_spec (disk : Disk)
        (benchmarkRoot npmInstallRoot : string) (given : list JsVal) :
  (forall e,
      makeServerPlans disk benchmarkRoot npmInstallRoot given = Throw e ->
      exists processed spec rest,
        given = processed ++ spec :: rest
        /\ resolveSpec disk benchmarkRoot spec = Throw e
        /\ forall s, In s processed -> exists r, resolveSpec disk benchmarkRoot s = Ok r)
  /\ ((forall s, In s given -> exists r, resolveSpec disk benchmarkRoot s = Ok r) ->
      exists plans, makeServerPlans disk benchmarkRoot npmInstallRoot given = Ok plans).
Proof.
  split.
  - intros e H.
    destruct (groupSpecs disk benchmarkRoot given (mkGroupState [] [] [])) as [st|e'] eqn:Eg.
    + destruct (@makeServerPlans_of_state disk benchmarkRoot npmInstallRoot given st Eg) as [keyed [E _]].
      rewrite E in H. discriminate.
    + unfold makeServerPlans in H. rewrite Eg in H. cbn [bind] in H.
      inversion H; subst. eapply groupSpecs_throws. exact Eg.
  - intro Hall.
    destruct (@groupSpecs_returns disk benchmarkRoot given Hall (mkGroupState [] [] []))
      as [st Eg].
    destruct (@makeServerPlans_of_state disk benchmarkRoot npmInstallRoot given st Eg) as [keyed [E _]].
    eauto.
Qed.

(** ** The first loop on a local spec *)

Lemma resolveSpec_localSpec (disk : Disk) (benchmarkRoot name implementation : string)
      (v : PackageVersion) :
  label v <> "default" ->
  resolveSpec disk benchmarkRoot (localSpec name implementation v)
  = (let diskPath := path_join [benchmarkRoot; implementation; name] in
     kind <- fileKind disk diskPath ;;
     match kind with
     | None => Throw (NoSuchFile diskPath)
     | Some k =>
         found <- findPackageJsonPath disk
                    (match k with
                     | KFile => path_dirname diskPath
                     | KDir => diskPath
                     end) ;;
         match found with
         | None => Throw (NoPackageJson diskPath)
         | Some manifestPath =>
             manifest <- await (readJson disk manifestPath) ;;
             deps <- mergedDependencies manifest v ;;
             Ok (Versioned (path_dirname manifestPath) implementation (label v) deps)
         end
     end).
Proof.
  intro Hl. apply String.eqb_neq in Hl.
  unfold resolveSpec, localSpec, versionToJs, mergedDependencies.
  cbn [getProp mapGet bind isStr pathArg].
  repeat (match goal with
          | |- context [String.eqb ?a ?b] =>
              lazymatch a with
              | label v => fail
              | _ => let r := eval vm_compute in (String.eqb a b) in
                     change (String.eqb a b) with r
              end
          end; cbv iota; cbn [getProp mapGet bind isStr pathArg]).
  rewrite Hl. cbv iota.
  destruct (fileKind disk _) as [[k|]|]; cbn [bind]; try reflexivity.
  destruct (findPackageJsonPath disk _) as [[p|]|]; cbn [bind]; try reflexivity.
  destruct (await (readJson disk p)) as [pj|]; cbn [bind]; try reflexivity.
  destruct (getProp pj "dependencies"); cbn [bind ownProps]; reflexivity.
Qed.

Lemma rootedPath_shorter (segs : list string) (x : string) :
  keptSegment x = true ->
  rootedPath segs <> rootedPath (segs ++ [x]).
Proof.
  intros Hx E. destruct (keptSegment_nonEmpty _ Hx) as [c [x' Ex]].
  apply (f_equal String.length) in E. unfold rootedPath in E.
  rewrite joinWith_snoc in E. simpl in E.
  destruct segs as [|s0 segs'].
  - subst x. simpl in E. discriminate.
  - rewrite !length_append in E. subst x. simpl in E. lia.
Qed.

Lemma removelast_snoc {A : Type} (l : list A) (x : A) : removelast (l ++ [x]) = l.
Proof. apply removelast_last. Qed.

Lemma climb_nearest (disk : Disk) (upward : list string) :
  forall turns,
    Forall (fun x => keptSegment x = true) upward ->
    List.length upward < turns ->
    climb disk turns (rootedPath (rev upward)) = Some (nearestManifest disk upward).
Proof.
  induction upward as [|x above IH]; intros turns Hk Ht;
    (destruct turns as [|turns]; [lia|]); cbn [climb nearestManifest];
    destruct (pathExists disk _); try reflexivity;
    rewrite (@path_resolve_parent (cwd disk) _ (Forall_rev Hk)).
  cbn [rev]. rewrite removelast_snoc.
  inversion Hk; subst.
  destruct (String.eqb (rootedPath (rev above)) (rootedPath (rev above ++ [x]))) eqn:E.
  - apply String.eqb_eq in E. exfalso. revert E. apply rootedPath_shorter. assumption.
  - apply IH; [assumption|simpl in Ht; lia].
Qed.

Lemma length_rooted (segs : list string) :
  Forall (fun x => keptSegment x = true) segs ->
  List.length segs < S (String.length (rootedPath segs)).
Proof.
  intro Hk. pose proof (length_joined_segments Hk).
  unfold rootedPath. simpl String.length. lia.
Qed.

Lemma findPackageJsonPath_walk (disk : Disk) (startDir : string) :
  isAbsolute (cwd disk) = true ->
  findPackageJsonPath disk startDir
  = Ok (nearestManifest disk
          (rev (absSegments (path_resolve (cwd disk) [startDir])))).
Proof.
  intro Hc. unfold findPackageJsonPath.
  destruct (path_resolve_rooted (cwd disk) [startDir] Hc) as [segs [Hk E]].
  rewrite E, (absSegments_rooted Hk).
  rewrite <- (rev_involutive segs) at 2.
  rewrite climb_nearest; [reflexivity|apply Forall_rev; assumption|].
  rewrite length_rev. apply length_rooted. assumption.
Qed.

Lemma nearestManifest_found (disk : Disk) (upward : list string) :
  Forall (fun x => keptSegment x = true) upward ->
  match nearestManifest disk upward with
  | Some found =>
      exists k,
        k <= List.length upward
        /\ found = manifestAbove upward k
        /\ pathExists disk found = true
        /\ forall j, j < k -> pathExists disk (manifestAbove upward j) = false
  | None =>
      forall j, j <= List.length upward ->
                pathExists disk (manifestAbove upward j) = false
  end.
Proof.
  assert (Hpkg : Forall (fun x => keptSegment x = true) ["package.json"])
    by (constructor; [reflexivity|constructor]).
  assert (Hhere : forall l,
             Forall (fun x => keptSegment x = true) l ->
             path_join [rootedPath (rev l); "package.json"] = manifestAbove l 0).
  { intros l Hl. unfold manifestAbove. cbn [skipn].
    apply path_join_children; [apply Forall_rev; assumption|exact Hpkg|discriminate]. }
  induction upward as [|x above IH]; intro Hk; cbn [nearestManifest].
  - rewrite (Hhere [] Hk).
    destruct (pathExists disk (manifestAbove [] 0)) eqn:E.
    + exists 0. repeat split; auto. intros j Hj. lia.
    + intros j Hj. cbn [List.length] in Hj. replace j with 0 by lia. exact E.
  - rewrite (Hhere (x :: above) Hk).
    destruct (pathExists disk (manifestAbove (x :: above) 0)) eqn:E.
    + exists 0. repeat split; auto; [lia|]. intros j Hj. lia.
    + inversion Hk; subst. specialize (IH H2).
      destruct (nearestManifest disk above) as [found|].
      * destruct IH as [k [Hle [Ef [Hex Hlow]]]]. exists (S k).
        split; [simpl; lia|]. split; [exact Ef|]. split; [exact Hex|].
        intros j Hj. destruct j as [|j]; [exact E|]. apply (Hlow j). lia.
      * intros j Hj. destruct j as [|j]; [exact E|]. apply (IH j).
        simpl in Hj. lia.
Qed.

(** X10.  In a process, whose working directory is absolute,
    [findPackageJsonPath] returns, and what it returns is the
    [package.json] of the nearest directory that has one: the start
    directory, then each parent, up to and including the root;
    [undefined] when none has one.  A path that is returned exists, and
    no directory below it on the way has a [package.json]. *)
Theorem findPackageJsonPath_nearest (disk : Disk) (startDir : string) :
  isAbsolute (cwd disk) = true ->
  let upward := rev (absSegments (path_resolve (cwd disk) [startDir])) in
  findPackageJsonPath disk startDir = Ok (nearestManifest disk upward)
  /\ match nearestManifest disk upward with
     | Some found =>
         exists k,
           k <= List.length upward
           /\ found = manifestAbove upward k
           /\ pathExists disk found = true
           /\ forall j, j < k -> pathExists disk (manifestAbove upward j) = false
     | None =>
         forall j, j <= List.length upward ->
                   pathExists disk (manifestAbove upward j) = false
     end.
Proof.
  intros Hc upward. split; [apply findPackageJsonPath_walk; assumption|].
  apply nearestManifest_found. unfold upward.
  destruct (path_resolve_rooted (cwd disk) [startDir] Hc) as [segs [Hk E]].
  rewrite E, (absSegments_rooted Hk). apply Forall_rev. assumption.
Qed.

Lemma findPackageJsonPath_nearest_witness :
  findPackageJsonPath Fixture.disk "benchmarks/lit/bench/"
  = Ok (Some "/repo/benchmarks/lit/package.json").
Proof.
  exact (proj1 (@findPackageJsonPath_nearest Fixture.disk "benchmarks/lit/bench/"
                  eq_refl)).
Defined.

Lemma findPackageJsonPath_rooted (disk : Disk) (segs : list string) :
  Forall (fun x => keptSegment x = true) segs ->
  findPackageJsonPath disk (rootedPath segs) = Ok (nearestManifest disk (rev segs)).
Proof.
  intro Hk. unfold findPackageJsonPath. rewrite (path_resolve_self _ Hk).
  rewrite <- (rev_involutive segs) at 2.
  rewrite climb_nearest; [reflexivity|apply Forall_rev; assumption|].
  rewrite length_rev. apply length_rooted. assumption.
Qed.

Lemma makeServerPlans_at_spec (disk : Disk) (benchmarkRoot npmInstallRoot : string)
      (processed rest : list JsVal) (spec : JsVal) (e : Error) :
  (forall s, In s processed -> exists r, resolveSpec disk benchmarkRoot s = Ok r) ->
  resolveSpec disk benchmarkRoot spec = Throw e ->
  makeServerPlans disk benchmarkRoot npmInstallRoot (processed ++ spec :: rest)
  = Throw e.
Proof.
  intros Hp Hs. unfold makeServerPlans. rewrite groupSpecs_app.
  destruct (@groupSpecs_returns disk benchmarkRoot processed Hp (mkGroupState [] [] []))
    as [st E].
  rewrite E. cbn [bind groupSpecs]. unfold groupSpec. rewrite Hs. reflexivity.
Qed.

(** X11.  A local spec with a version other than [default] whose
    path [benchmarkRoot/implementation/name] is missing (ENOENT), or is
    there as something that is neither a file nor a directory, stops the
    planning with [No such file or directory <path>]; any other failure
    of [stat] is thrown on as it is. *)
Theorem makeServerPlans_missing_benchmark (disk : Disk)
        (benchmarkRoot npmInstallRoot : string) (processed rest : list JsVal)
        (name implementation : string) (v : PackageVersion) :
  (forall s, In s processed -> exists r, resolveSpec disk benchmarkRoot s = Ok r) ->
  label v <> "default" ->
  let diskPath := path_join [benchmarkRoot; implementation; name] in
  let given := processed ++ localSpec name implementation v :: rest in
  (stat disk diskPath = Failed (Errno "ENOENT") \/ stat disk diskPath = Done IsOther ->
   makeServerPlans disk benchmarkRoot npmInstallRoot given = Throw (NoSuchFile diskPath))
  /\ (forall e,
         stat disk diskPath = Failed e -> e <> Errno "ENOENT" ->
         makeServerPlans disk benchmarkRoot npmInstallRoot given
         = Throw (IoFailure e)).
Proof.
  intros Hp Hl diskPath given. split.
  - intro Hstat. apply makeServerPlans_at_spec; [assumption|].
    rewrite resolveSpec_localSpec by assumption. cbv zeta. fold diskPath.
    unfold fileKind. destruct Hstat as [E|E]; rewrite E; reflexivity.
  - intros e E Hne. apply makeServerPlans_at_spec; [assumption|].
    rewrite resolveSpec_localSpec by assumption. cbv zeta. fold diskPath.
    unfold fileKind. rewrite E. destruct e as [code|]; [|reflexivity].
    cbn [awaitUnlessMissing]. destruct (String.eqb code "ENOENT") eqn:Ec; [|reflexivity].
    apply String.eqb_eq in Ec. subst code. contradiction.
Qed.

Lemma makeServerPlans_missing_benchmark_witness :
  makeServerPlans Fixture.disk "/repo/benchmarks" "/repo/installs"
    [ localSpec "bench" "lit" defaultVersion;
      localSpec "absent" "lit" (Fixture.v "old" "0.9.0");
      localSpec "bench" "lit" (Fixture.v "old" "0.9.0") ]
  = Throw (NoSuchFile "/repo/benchmarks/lit/absent").
Proof.
  refine (proj1 (@makeServerPlans_missing_benchmark Fixture.disk "/repo/benchmarks"
                   "/repo/installs" [localSpec "bench" "lit" defaultVersion]
                   [localSpec "bench" "lit" (Fixture.v "old" "0.9.0")]
                   "absent" "lit" (Fixture.v "old" "0.9.0") _ _) _).
  - intros s [E|[]]. subst s. exists DefaultVersion. reflexivity.
  - simpl. discriminate.
  - left. reflexivity.
Defined.

(** X12.  A benchmark that is there as a file or a directory, with
    no [package.json] in its directory (for a file, the directory of the
    file) nor in any directory above, stops the planning with
    [Could not find a package.json for <path>]. *)
Theorem makeServerPlans_no_manifest (disk : Disk)
        (benchmarkRoot npmInstallRoot : string) (processed rest : list JsVal)
        (name implementation : string) (v : PackageVersion) (kind : StatKind) :
  isAbsolute (cwd disk) = true ->
  (forall s, In s processed -> exists r, resolveSpec disk benchmarkRoot s = Ok r) ->
  label v <> "default" ->
  let diskPath := path_join [benchmarkRoot; implementation; name] in
  let startDir := match kind with
                  | IsFile => path_dirname diskPath
                  | _ => diskPath
                  end in
  stat disk diskPath = Done kind ->
  kind <> IsOther ->
  nearestManifest disk (rev (absSegments (path_resolve (cwd disk) [startDir]))) = None ->
  makeServerPlans disk benchmarkRoot npmInstallRoot
    (processed ++ localSpec name implementation v :: rest)
  = Throw (NoPackageJson diskPath).
Proof.
  intros Hc Hp Hl diskPath startDir Hstat Hk Hnone.
  apply makeServerPlans_at_spec; [assumption|].
  rewrite resolveSpec_localSpec by assumption. cbv zeta. fold diskPath.
  unfold fileKind. rewrite Hstat. cbn [awaitUnlessMissing bind].
  destruct kind; [| |contradiction]; cbn [bind];
    rewrite (findPackageJsonPath_walk _ _ Hc); unfold startDir in Hnone;
    rewrite Hnone; reflexivity.
Qed.

Lemma makeServerPlans_no_manifest_witness :
  makeServerPlans Trees.bare "/repo/benchmarks" "/repo/installs"
    [localSpec "bench" "lit" (Fixture.v "old" "0.9.0")]
  = Throw (NoPackageJson "/repo/benchmarks/lit/bench").
Proof.
  apply (@makeServerPlans_no_manifest Trees.bare "/repo/benchmarks" "/repo/installs"
           [] [] "bench" "lit" (Fixture.v "old" "0.9.0") IsDirectory).
  - reflexivity.
  - intros s [].
  - simpl. discriminate.
  - reflexivity.
  - discriminate.
  - reflexivity.
Defined.

Lemma mapGet_absent (V : Type) (k : string) (m : list (string * V)) :
  ~ In k (map fst m) -> mapGet k m = None.
Proof.
  induction m as [|[k0 v0] m IH]; simpl; [reflexivity|].
  intro H. destruct (String.eqb k k0) eqn:E.
  - apply String.eqb_eq in E. subst. tauto.
  - apply IH. tauto.
Qed.

Lemma mapGet_spread (V : Type) (k : string) (b : list (string * V)) :
  NoDup (map fst b) ->
  forall a,
    mapGet k (spread a b)
    = match mapGet k b with
      | Some v => Some v
      | None => mapGet k a
      end.
Proof.
  unfold spread. induction b as [|[k0 v0] b IH]; intros Hnd a; [reflexivity|].
  cbn [fold_left fst snd mapGet]. inversion Hnd; subst.
  rewrite IH by assumption. rewrite mapGet_mapSet.
  destruct (String.eqb k k0) eqn:E.
  - apply String.eqb_eq in E. subst k0.
    rewrite (@mapGet_absent V k b) by assumption. reflexivity.
  - reflexivity.
Qed.

Lemma mapGet_overrideValues (k : string) (m : PackageDependencyMap) :
  mapGet k (map (fun kv => (fst kv, JStr (snd kv))) m)
  = match mapGet k m with
    | Some version => Some (JStr version)
    | None => None
    end.
Proof.
  induction m as [|[k0 v0] m IH]; simpl; [reflexivity|].
  destruct (String.eqb k k0); [reflexivity|exact IH].
Qed.

Lemma mergedDependencies_lookup (manifest : JsVal) (v : PackageVersion)
      (original deps : list (string * JsVal)) (pkg : string) :
  getProp manifest "dependencies" = Ok (JObj original) ->
  NoDup (map fst original) ->
  NoDup (map fst (dependencyOverrides v)) ->
  mergedDependencies manifest v = Ok deps ->
  mapGet pkg deps
  = match mapGet pkg (dependencyOverrides v) with
    | Some version => Some (JStr version)
    | None => mapGet pkg original
    end.
Proof.
  intros Hd Ho Hv. unfold mergedDependencies. rewrite Hd. cbn [bind ownProps].
  intro H. inversion H; subst deps; clear H.
  rewrite mapGet_spread.
  - rewrite mapGet_overrideValues.
    destruct (mapGet pkg (dependencyOverrides v)); [reflexivity|].
    rewrite mapGet_spread by assumption.
    destruct (mapGet pkg original); reflexivity.
  - rewrite map_map. cbn [fst]. exact Hv.
Qed.

(** X13.  The dependencies written for a spec are those of the
    manifest with the overrides on top: a package the version overrides
    has the version of the override, any other package what the
    manifest says.  The manifest read is the one in the package
    directory of the plan. *)
Theorem makeServerPlans_merges_dependencies (disk : Disk)
        (benchmarkRoot npmInstallRoot name implementation : string)
        (v : PackageVersion) (plans : list ServerPlan) :
  label v <> "default" ->
  NoDup (map fst (dependencyOverrides v)) ->
  makeServerPlans disk benchmarkRoot npmInstallRoot [localSpec name implementation v]
  = Ok plans ->
  exists manifestPath manifest deps,
    readJson disk manifestPath = Done manifest
    /\ plans = [ installPlan disk benchmarkRoot npmInstallRoot
                   (path_dirname manifestPath) (label v)
                   [localSpec name implementation v] deps ]
    /\ forall original,
         getProp manifest "dependencies" = Ok (JObj original) ->
         NoDup (map fst original) ->
         forall pkg,
           mapGet pkg deps
           = match mapGet pkg (dependencyOverrides v) with
             | Some version => Some (JStr version)
             | None => mapGet pkg original
             end.
Proof.
  intros Hl Hv H. unfold makeServerPlans in H. cbn [groupSpecs] in H.
  unfold groupSpec in H. rewrite resolveSpec_localSpec in H by assumption.
  cbv zeta in H.
  destruct (fileKind disk _) as [[k|]|]; cbn [bind] in H; try discriminate.
  destruct (findPackageJsonPath disk _) as [[p|]|]; cbn [bind] in H; try discriminate.
  destruct (readJson disk p) as [manifest|] eqn:Er; cbn [await bind] in H;
    try discriminate.
  destruct (mergedDependencies manifest v) as [deps|] eqn:Em; cbn [bind] in H;
    try discriminate.
  cbn [mapGet keySpecs keyDeps defaultSpecs mapSet app List.length Nat.ltb Nat.leb
       emitPlans] in H.
  rewrite emitPlan_installPlan with (deps := deps) in H
    by (cbn [mapGet]; rewrite String.eqb_refl; reflexivity).
  cbn [bind emitPlans app] in H. inversion H; subst plans; clear H.
  exists p, manifest, deps. split; [exact Er|]. split; [reflexivity|].
  intros original Hd Ho pkg. eapply mergedDependencies_lookup; eassumption.
Qed.

Lemma makeServerPlans_merges_dependencies_witness :
  exists manifestPath manifest deps,
    readJson Trees.shared manifestPath = Done manifest
    /\ getProp manifest "dependencies"
       = Ok (JObj [ ("lit-html", JStr "^1.0.0"); ("preact", JStr "^10.0.0") ])
    /\ mapGet "lit-html" deps = Some (JStr "0.9.0")
    /\ mapGet "preact" deps = Some (JStr "^10.0.0").
Proof.
  destruct (makeServerPlans Trees.shared "/repo/benchmarks" "/repo/installs"
              [localSpec "bench" "lit" (Fixture.v "old" "0.9.0")]) as [plans|e] eqn:E.
  - destruct (@makeServerPlans_merges_dependencies Trees.shared "/repo/benchmarks"
                "/repo/installs" "bench" "lit" (Fixture.v "old" "0.9.0") plans)
      as [manifestPath [manifest [deps [Hread [Hplans Hdeps]]]]].
    + simpl. discriminate.
    + simpl. repeat constructor. simpl. tauto.
    + exact E.
    + assert (Hm : manifest
                   = JObj [ ("dependencies", JObj [ ("lit-html", JStr "^1.0.0");
                                                    ("preact", JStr "^10.0.0") ]) ]).
      { unfold Trees.shared in Hread. cbn [readJson] in Hread.
        destruct (String.eqb manifestPath "/repo/benchmarks/package.json");
          inversion Hread; reflexivity. }
      exists manifestPath, manifest, deps. split; [assumption|].
      subst manifest. split; [reflexivity|].
      assert (Hnd : NoDup (map fst [ ("lit-html", JStr "^1.0.0");
                                     ("preact", JStr "^10.0.0") ])).
      { simpl. repeat constructor; simpl; intuition discriminate. }
      split; [exact (Hdeps _ eq_refl Hnd "lit-html")
             |exact (Hdeps _ eq_refl Hnd "preact")].
  - exfalso. vm_compute in E. discriminate.
Defined.

(** ** Dependencies and install directories *)

Section LastDeps.
Variable disk : Disk.
Variable benchmarkRoot : string.

Lemma groupSpecs_keeps_deps (rest : list JsVal) (d i l : string)
      (deps : list (string * JsVal)) :
  (forall s d' i' l' deps',
      In s rest ->
      resolveSpec disk benchmarkRoot s = Ok (Versioned d' i' l' deps') ->
      (d', i', l') <> (d, i, l)) ->
  forall st st',
    groupSpecs disk benchmarkRoot rest st = Ok st' ->
    mapGet (installKey d i l) (keyDeps st) = Some deps ->
    mapGet (installKey d i l) (keyDeps st') = Some deps.
Proof.
  induction rest as [|s rest IH]; intros Hother st st' H Hd.
  - simpl in H. inversion H; subst. assumption.
  - simpl in H. unfold groupSpec in H.
    destruct (resolveSpec disk benchmarkRoot s) as [[| |d' i' l' deps']|] eqn:Er;
      cbn [bind] in H; try discriminate;
      (eapply IH; [intros; eapply Hother; [right|]; eassumption|exact H|]);
      cbn [keyDeps]; try assumption.
    rewrite mapGet_mapSet.
    destruct (String.eqb (installKey d i l) (JSON_stringify [d'; i'; l'])) eqn:E;
      [|assumption].
    apply String.eqb_eq in E. unfold installKey in E. apply JSON_stringify_inj in E.
    exfalso. apply (Hother s d' i' l' deps' (or_introl eq_refl) Er).
    inversion E. reflexivity.
Qed.
End LastDeps.

(** X14.  [keyDeps.set(key, newDeps)] overwrites: the install of a
    plan carries the dependencies computed for the last spec of the
    list that is filed under its key. *)
Theorem makeServerPlans_last_dependencies (disk : Disk)
        (benchmarkRoot npmInstallRoot : string) (earlier later : list JsVal)
        (spec : JsVal) (packageDir implementation label : string)
        (deps : list (string * JsVal)) (plans : list ServerPlan) :
  makeServerPlans disk benchmarkRoot npmInstallRoot (earlier ++ spec :: later)
  = Ok plans ->
  resolveSpec disk benchmarkRoot spec
  = Ok (Versioned packageDir implementation label deps) ->
  (forall s d i l deps',
      In s later ->
      resolveSpec disk benchmarkRoot s = Ok (Versioned d i l deps') ->
      (d, i, l) <> (packageDir, implementation, label)) ->
  exists bucket,
    In spec bucket
    /\ In (installPlan disk benchmarkRoot npmInstallRoot packageDir label bucket deps)
          plans.
Proof.
  intros H Hs Hlater.
  destruct (groupSpecs disk benchmarkRoot (earlier ++ spec :: later)
              (mkGroupState [] [] [])) as [st|e] eqn:Eg;
    [|unfold makeServerPlans in H; rewrite Eg in H; discriminate].
  destruct (@makeServerPlans_of_state disk benchmarkRoot npmInstallRoot _ st Eg)
    as [keyed [E Hk]].
  rewrite E in H. inversion H; subst plans; clear H E.
  pose proof (@groupSpecs_grouped disk benchmarkRoot _ [] _ _ Eg
                (grouped_start disk benchmarkRoot)) as Hg.
  simpl in Hg. destruct Hg as [Hf _ _ _].
  destruct (Hf spec packageDir implementation label deps
               (in_elt spec earlier later) Hs) as [bucket [Hget Hin]].
  assert (Hdeps : mapGet (installKey packageDir implementation label) (keyDeps st)
                  = Some deps).
  { rewrite groupSpecs_app in Eg.
    destruct (groupSpecs disk benchmarkRoot earlier (mkGroupState [] [] []))
      as [st0|] eqn:E0; [|discriminate].
    cbn [bind groupSpecs] in Eg. unfold groupSpec in Eg. rewrite Hs in Eg.
    cbn [bind] in Eg.
    eapply groupSpecs_keeps_deps; [exact Hlater|exact Eg|].
    cbn [keyDeps]. apply mapGet_mapSet_same. }
  exists bucket. split; [assumption|].
  apply in_or_app. right. apply mapGet_In in Hget.
  clear - Hk Hget Hdeps. induction Hk as [|e p es ps Hp Hrest IH]; [destruct Hget|].
  destruct Hget as [Ee|Hin].
  - left. subst e. cbn [fst snd] in Hp.
    destruct Hp as [_ [d [i [l [deps' [Ek [Hd Ep]]]]]]].
    rewrite Hd in Hdeps. inversion Hdeps; subst deps'.
    unfold installKey in Ek. apply JSON_stringify_inj in Ek. inversion Ek; subst.
    reflexivity.
  - right. apply IH. assumption.
Qed.

Lemma makeServerPlans_last_dependencies_witness :
  let first := localSpec "bench" "lit" (Fixture.v "old" "0.9.0") in
  let second := localSpec "Zeta" "lit" (Fixture.v "old" "0.9.9") in
  exists plans bucket,
    makeServerPlans Fixture.disk "/repo/benchmarks" "/repo/installs" [first; second]
    = Ok plans
    /\ In second bucket
    /\ In (installPlan Fixture.disk "/repo/benchmarks" "/repo/installs"
             "/repo/benchmarks/lit" "old" bucket [("lit-html", JStr "0.9.9")])
          plans.
Proof.
  cbv zeta.
  destruct (makeServerPlans Fixture.disk "/repo/benchmarks" "/repo/installs"
              [ localSpec "bench" "lit" (Fixture.v "old" "0.9.0");
                localSpec "Zeta" "lit" (Fixture.v "old" "0.9.9") ]) as [plans|e] eqn:E.
  - destruct (@makeServerPlans_last_dependencies Fixture.disk "/repo/benchmarks"
                "/repo/installs" [localSpec "bench" "lit" (Fixture.v "old" "0.9.0")] []
                (localSpec "Zeta" "lit" (Fixture.v "old" "0.9.9"))
                "/repo/benchmarks/lit" "lit" "old" [("lit-html", JStr "0.9.9")] plans
                E eq_refl) as [bucket [Hin Hplan]].
    + intros s d i l deps' [].
    + exists plans, bucket. auto.
  - exfalso. vm_compute in E. discriminate.
Defined.

(** X15.  The key holds the implementation, the hashed name of the
    install directory does not.  Two specs that resolve to one package
    directory and one label under two implementations get two plans
    with the same install directory and the same mount points, each
    with the dependencies of its own spec. *)
Theorem makeServerPlans_implementations_share_install (disk : Disk)
        (benchmarkRoot npmInstallRoot : string) (s1 s2 : JsVal)
        (packageDir impl1 impl2 label : string)
        (deps1 deps2 : list (string * JsVal)) :
  resolveSpec disk benchmarkRoot s1 = Ok (Versioned packageDir impl1 label deps1) ->
  resolveSpec disk benchmarkRoot s2 = Ok (Versioned packageDir impl2 label deps2) ->
  impl1 <> impl2 ->
  let dir := path_join [npmInstallRoot; hashStrings [packageDir; label]] in
  let mounts :=
    [ {| urlPath := "/" ^^ path_relative (cwd disk) benchmarkRoot packageDir
                        ^^ "/node_modules";
         diskPath := path_join [dir; "node_modules"] |};
      {| urlPath := "/"; diskPath := benchmarkRoot |} ] in
  makeServerPlans disk benchmarkRoot npmInstallRoot [s1; s2]
  = Ok [ {| specs := [s1];
            npmInstalls := [ {| installDir := dir;
                                packageJson := {| private := true;
                                                  dependencies := deps1 |} |} ];
            mountPoints := mounts |};
         {| specs := [s2];
            npmInstalls := [ {| installDir := dir;
                                packageJson := {| private := true;
                                                  dependencies := deps2 |} |} ];
            mountPoints := mounts |} ].
Proof.
  intros H1 H2 Hi dir mounts.
  assert (Hkey : String.eqb (JSON_stringify [packageDir; impl2; label])
                            (JSON_stringify [packageDir; impl1; label]) = false).
  { apply String.eqb_neq. intro E. apply JSON_stringify_inj in E.
    inversion E. congruence. }
  unfold makeServerPlans, groupSpecs, groupSpec.
  rewrite H1. cbn [bind mapGet keySpecs keyDeps defaultSpecs mapSet app].
  rewrite H2. cbn [bind mapGet keySpecs keyDeps defaultSpecs mapSet app].
  rewrite !Hkey.
  cbn [app List.length Nat.ltb Nat.leb emitPlans].
  rewrite emitPlan_installPlan with (deps := deps1)
    by (cbn [mapGet];
        rewrite (String.eqb_refl (JSON_stringify [packageDir; impl1; label]));
        reflexivity).
  cbn [bind emitPlans app].
  rewrite emitPlan_installPlan with (deps := deps2)
    by (cbn [mapGet]; rewrite Hkey;
        rewrite (String.eqb_refl (JSON_stringify [packageDir; impl2; label]));
        reflexivity).
  reflexivity.
Qed.

Lemma makeServerPlans_implementations_share_install_witness :
  exists dir plan1 plan2,
    makeServerPlans Trees.shared "/repo/benchmarks" "/repo/installs"
      [ localSpec "bench" "lit" (Fixture.v "next" "2.0.0");
        localSpec "bench" "preact" {| label := "next";
                                      dependencyOverrides := [("preact", "11.0.0")] |} ]
    = Ok [plan1; plan2]
    /\ map installDir (npmInstalls plan1) = [dir]
    /\ map installDir (npmInstalls plan2) = [dir]
    /\ map packageJson (npmInstalls plan1) <> map packageJson (npmInstalls plan2).
Proof.
  pose proof (@makeServerPlans_implementations_share_install Trees.shared
                "/repo/benchmarks" "/repo/installs"
                (localSpec "bench" "lit" (Fixture.v "next" "2.0.0"))
                (localSpec "bench" "preact"
                   {| label := "next"; dependencyOverrides := [("preact", "11.0.0")] |})
                "/repo/benchmarks" "lit" "preact" "next"
                [("lit-html", JStr "2.0.0"); ("preact", JStr "^10.0.0")]
                [("lit-html", JStr "^1.0.0"); ("preact", JStr "11.0.0")]
                eq_refl eq_refl) as H.
  cbv zeta in H.
  eexists _, _, _. split; [apply H; discriminate|].
  split; [reflexivity|]. split; [reflexivity|]. simpl. discriminate.
Defined.

(** X16.  The usual layout, from spec to plan.  For a benchmark
    directory [root/impl/name] that has no manifest of its own, under an
    implementation directory [root/impl] that has one, a local spec with
    a version other than [default] yields one plan: the install
    directory is named by the hash of [root/impl] and the label, its
    [node_modules] is mounted at [/impl/node_modules], the root at [/],
    and the install carries the merged dependencies. *)
Theorem makeServerPlans_usual_layout (disk : Disk) (rootSegments : list string)
        (npmInstallRoot name implementation : string) (v : PackageVersion)
        (manifest : JsVal) (deps : list (string * JsVal)) :
  Forall (fun s => keptSegment s = true) rootSegments ->
  keptSegment implementation = true ->
  keptSegment name = true ->
  label v <> "default" ->
  let benchmarkRoot := rootedPath rootSegments in
  let packageDir := rootedPath (rootSegments ++ [implementation]) in
  stat disk (rootedPath (rootSegments ++ [implementation; name])) = Done IsDirectory ->
  pathExists disk (rootedPath (rootSegments ++ [implementation; name; "package.json"]))
  = false ->
  pathExists disk (rootedPath (rootSegments ++ [implementation; "package.json"])) = true ->
  readJson disk (rootedPath (rootSegments ++ [implementation; "package.json"]))
  = Done manifest ->
  mergedDependencies manifest v = Ok deps ->
  let dir := path_join [npmInstallRoot; hashStrings [packageDir; label v]] in
  makeServerPlans disk benchmarkRoot npmInstallRoot [localSpec name implementation v]
  = Ok [ {| specs := [localSpec name implementation v];
            npmInstalls := [ {| installDir := dir;
                                packageJson := {| private := true;
                                                  dependencies := deps |} |} ];
            mountPoints :=
              [ {| urlPath := "/" ^^ implementation ^^ "/node_modules";
                   diskPath := path_join [dir; "node_modules"] |};
                {| urlPath := "/"; diskPath := benchmarkRoot |} ] |} ].
Proof.
  intros Hr Hi Hn Hl benchmarkRoot packageDir Hstat Hnone Hsome Hread Hdeps dir.
  assert (Hpkg : keptSegment "package.json" = true) by reflexivity.
  assert (Hin : Forall (fun s => keptSegment s = true) [implementation; name])
    by (repeat constructor; assumption).
  assert (Hall : Forall (fun s => keptSegment s = true)
                        (rootSegments ++ [implementation; name]))
    by (apply Forall_app; split; assumption).
  assert (Hdir : Forall (fun s => keptSegment s = true) (rootSegments ++ [implementation]))
    by (apply Forall_app; split; [assumption|constructor; [assumption|constructor]]).
  unfold makeServerPlans. cbn [groupSpecs]. unfold groupSpec.
  rewrite resolveSpec_localSpec by assumption. cbv zeta.
  unfold benchmarkRoot.
  rewrite (@path_join_children rootSegments [implementation; name] Hr Hin)
    by discriminate.
  unfold fileKind. rewrite Hstat. cbn [awaitUnlessMissing bind].
  rewrite (findPackageJsonPath_rooted disk Hall).
  rewrite rev_app_distr. cbn [rev app nearestManifest].
  rewrite !rev_involutive.
  rewrite <- !app_assoc. cbn [app].
  rewrite (@path_join_children (rootSegments ++ [implementation; name]) ["package.json"]
             Hall (Forall_cons _ Hpkg (Forall_nil _))) by discriminate.
  rewrite <- app_assoc. cbn [app]. rewrite Hnone.
  rewrite (@path_join_children (rootSegments ++ [implementation]) ["package.json"]
             Hdir (Forall_cons _ Hpkg (Forall_nil _))) by discriminate.
  rewrite <- app_assoc. cbn [app]. rewrite Hsome. cbn [bind].
  rewrite Hread. cbn [await bind]. rewrite Hdeps. cbn [bind].
  replace (rootSegments ++ [implementation; "package.json"])
    with ((rootSegments ++ [implementation]) ++ ["package.json"])
    by (rewrite <- app_assoc; reflexivity).
  rewrite (@path_dirname_child _ _ Hdir Hpkg).
  cbn [mapGet keySpecs keyDeps defaultSpecs mapSet app List.length Nat.ltb Nat.leb
       emitPlans].
  rewrite emitPlan_installPlan with (deps := deps)
    by (cbn [mapGet]; rewrite String.eqb_refl; reflexivity).
  cbn [bind emitPlans app]. unfold installPlan.
  rewrite (@path_relative_below (cwd disk) rootSegments [implementation] Hdir).
  reflexivity.
Qed.

Lemma makeServerPlans_usual_layout_witness :
  makeServerPlans Fixture.disk "/repo/benchmarks" "/srv/installs"
    [localSpec "bench" "lit" (Fixture.v "old" "0.9.0")]
  = Ok [ {| specs := [localSpec "bench" "lit" (Fixture.v "old" "0.9.0")];
            npmInstalls :=
              [ {| installDir :=
                     path_join ["/srv/installs";
                                hashStrings ["/repo/benchmarks/lit"; "old"]];
                   packageJson := {| private := true;
                                     dependencies := [("lit-html", JStr "0.9.0")] |} |} ];
            mountPoints :=
              [ {| urlPath := "/lit/node_modules";
                   diskPath :=
                     path_join [path_join ["/srv/installs";
                                           hashStrings ["/repo/benchmarks/lit"; "old"]];
                                "node_modules"] |};
                {| urlPath := "/"; diskPath := "/repo/benchmarks" |} ] |} ].
Proof.
  apply (@makeServerPlans_usual_layout Fixture.disk ["repo"; "benchmarks"]
           "/srv/installs" "bench" "lit" (Fixture.v "old" "0.9.0")
           Fixture.packageJsonFile [("lit-html", JStr "0.9.0")]).
  - repeat constructor.
  - reflexivity.
  - reflexivity.
  - simpl. discriminate.
  - reflexivity.
  - reflexivity.
  - reflexivity.
  - reflexivity.
  - reflexivity.
Defined.

(** ** One plan for each key *)

Section Buckets.
Variable disk : Disk.
Variable benchmarkRoot : string.

Lemma groupSpecs_buckets (given : list JsVal) (key : string) :
  forall st st',
    groupSpecs disk benchmarkRoot given st = Ok st' ->
    mapGet key (keySpecs st')
    = match mapGet key (keySpecs st),
            filter (filedUnder disk benchmarkRoot key) given with
      | None, [] => None
      | None, arr => Some arr
      | Some bucket, arr => Some (bucket ++ arr)
      end.
Proof.
  induction given as [|s given IH]; intros st st' H.
  - simpl in H. inversion H; subst. simpl.
    destruct (mapGet key (keySpecs st')); [rewrite app_nil_r|]; reflexivity.
  - simpl in H. unfold groupSpec in H. cbn [filter].
    assert (Ef : filedUnder disk benchmarkRoot key s
                 = match resolveSpec disk benchmarkRoot s with
                   | Ok (Versioned d i l _) => String.eqb (installKey d i l) key
                   | _ => false
                   end).
    { unfold filedUnder, keyOf.
      destruct (resolveSpec disk benchmarkRoot s) as [[| |d i l deps]|]; reflexivity. }
    rewrite Ef.
    destruct (resolveSpec disk benchmarkRoot s) as [[| |d i l deps]|] eqn:Er;
      cbn [bind] in H; try discriminate;
      apply IH in H; rewrite H; cbn [keySpecs]; try reflexivity.
    rewrite mapGet_mapSet. fold (installKey d i l).
    rewrite (String.eqb_sym (installKey d i l) key).
    destruct (String.eqb key (installKey d i l)) eqn:E; [|reflexivity].
    apply String.eqb_eq in E. subst key.
    destruct (mapGet (installKey d i l) (keySpecs st)) as [bucket|].
    + rewrite <- app_assoc. reflexivity.
    + reflexivity.
Qed.

Lemma groupSpecs_keys (given : list JsVal) :
  forall st st',
    groupSpecs disk benchmarkRoot given st = Ok st' ->
    map fst (keySpecs st')
    = fold_left (fun seen k => if strMem k seen then seen else seen ++ [k])
                (keysOf disk benchmarkRoot given) (map fst (keySpecs st)).
Proof.
  induction given as [|s given IH]; intros st st' H.
  - simpl in H. inversion H; subst. reflexivity.
  - simpl in H. unfold groupSpec in H. cbn [keysOf]. unfold keyOf.
    destruct (resolveSpec disk benchmarkRoot s) as [[| |d i l deps]|] eqn:Er;
      cbn [bind] in H; try discriminate;
      apply IH in H; rewrite H; cbn [keySpecs fold_left]; try reflexivity.
    f_equal. apply keys_mapSet.
Qed.
End Buckets.

(** X17.  The plans behind the default plan are one for each install
    key (package directory, implementation, label) of the specs, in the
    order in which the keys first occur in the list; the plan of a key
    holds the specs filed under that key, all of them, in the order of
    the list. *)
Theorem makeServerPlans_groups_by_key (disk : Disk)
        (benchmarkRoot npmInstallRoot : string) (given : list JsVal)
        (plans : list ServerPlan) :
  makeServerPlans disk benchmarkRoot npmInstallRoot given = Ok plans ->
  exists first keyed,
    plans = first ++ keyed
    /\ List.length first <= 1
    /\ Forall2 (fun key plan =>
                  specs plan = filter (filedUnder disk benchmarkRoot key) given
                  /\ exists packageDir implementation label deps,
                       key = installKey packageDir implementation label
                       /\ plan = installPlan disk benchmarkRoot npmInstallRoot
                                   packageDir label (specs plan) deps)
               (firstSeen (keysOf disk benchmarkRoot given)) keyed.
Proof.
  intro H.
  destruct (groupSpecs disk benchmarkRoot given (mkGroupState [] [] [])) as [st|e] eqn:Eg;
    [|unfold makeServerPlans in H; rewrite Eg in H; discriminate].
  destruct (@makeServerPlans_of_state disk benchmarkRoot npmInstallRoot _ st Eg)
    as [keyed [E Hk]].
  rewrite E in H. inversion H; subst plans; clear H E.
  eexists _, keyed. split; [reflexivity|].
  split; [destruct (0 <? _)%nat; simpl; lia|].
  pose proof (@groupSpecs_keys disk benchmarkRoot given _ _ Eg) as Hkeys. cbn [keySpecs map] in Hkeys.
  fold (firstSeen (keysOf disk benchmarkRoot given)) in Hkeys. rewrite <- Hkeys.
  pose proof (@groupSpecs_grouped disk benchmarkRoot _ [] _ _ Eg
                (grouped_start disk benchmarkRoot)) as Hg.
  destruct Hg as [_ _ Hnd _].
  assert (Hbucket : forall k arr,
             In (k, arr) (keySpecs st) ->
             arr = filter (filedUnder disk benchmarkRoot k) given).
  { intros k arr Hin. pose proof (In_mapGet _ _ _ Hnd Hin) as Hget.
    rewrite (@groupSpecs_buckets disk benchmarkRoot given k _ _ Eg) in Hget. cbn [keySpecs mapGet] in Hget.
    destruct (filter (filedUnder disk benchmarkRoot k) given); [discriminate|].
    inversion Hget. reflexivity. }
  clear - Hk Hbucket.
  induction Hk as [|e p es ps Hp Hrest IH]; [constructor|].
  cbn [map]. constructor.
  - destruct e as [k arr]. cbn [fst snd] in *.
    destruct Hp as [_ [d [i [l [deps [Ek [_ Ep]]]]]]].
    assert (Es : specs p = arr) by (subst p; reflexivity).
    split.
    + rewrite Es. apply Hbucket. left; reflexivity.
    + exists d, i, l, deps. split; [assumption|]. rewrite Es. assumption.
  - apply IH. intros k arr Hin. apply Hbucket. right; assumption.
Qed.

Lemma makeServerPlans_groups_by_key_witness :
  let o1 := localSpec "bench" "lit" (Fixture.v "old" "0.9.0") in
  let n1 := localSpec "bench" "lit" (Fixture.v "new" "1.1.0") in
  let o2 := localSpec "Zeta" "lit" (Fixture.v "old" "0.9.0") in
  exists first keyed,
    makeServerPlans Fixture.disk "/repo/benchmarks" "/repo/installs" [o1; n1; o2]
    = Ok (first ++ keyed)
    /\ map specs keyed = [[o1; o2]; [n1]].
Proof.
  cbv zeta.
  destruct (makeServerPlans Fixture.disk "/repo/benchmarks" "/repo/installs"
              [ localSpec "bench" "lit" (Fixture.v "old" "0.9.0");
                localSpec "bench" "lit" (Fixture.v "new" "1.1.0");
                localSpec "Zeta" "lit" (Fixture.v "old" "0.9.0") ]) as [plans|e] eqn:E.
  - destruct (@makeServerPlans_groups_by_key Fixture.disk "/repo/benchmarks"
                "/repo/installs" _ plans E) as [first [keyed [Ep [_ Hk]]]].
    exists first, keyed. split; [rewrite Ep; reflexivity|].
    inversion Hk as [|k1 p1 ks1 ps1 [H1 _] Hk1 Ek1 Ep1]; subst.
    inversion Hk1 as [|k2 p2 ks2 ps2 [H2 _] Hk2 Ek2 Ep2]; subst.
    inversion Hk2; subst.
    cbn [map]. rewrite H1, H2. reflexivity.
  - exfalso. vm_compute in E. discriminate.
Defined.

(** ** Digests and the steps of an install *)

Lemma hexNibble_hex (x : Z) : isHexChar (SHA256.hexNibble x) = true.
Proof. apply hexDigit_hex. Qed.

Lemma keptSegment_hex (s : string) :
  String.length s = 64 -> allChars isHexChar s = true -> keptSegment s = true.
Proof.
  intros Hlen Hhex. unfold keptSegment.
  rewrite (hex_no_slash _ Hhex), andb_true_r.
  destruct s as [|c0 [|c1 [|c2 s]]]; try discriminate. cbn [String.eqb].
  destruct (Ascii.eqb c0 "."); [destruct (Ascii.eqb c1 ".")|]; reflexivity.
Qed.

(** X18.  [hashStrings] returns 64 lower-case hexadecimal digits,
    whatever the strings; joined to a normalized absolute root it names
    a directory directly under that root. *)
Theorem hashStrings_names_directory (strings : list string) :
  String.length (hashStrings strings) = 64
  /\ allChars isHexChar (hashStrings strings) = true
  /\ forall rootSegments,
       Forall (fun s => keptSegment s = true) rootSegments ->
       path_join [rootedPath rootSegments; hashStrings strings]
       = rootedPath (rootSegments ++ [hashStrings strings]).
Proof.
  assert (Hlen : String.length (hashStrings strings) = 64).
  { unfold hashStrings, sha256Hex, SHA256.hex, SHA256.hexWord. reflexivity. }
  assert (Hhex : allChars isHexChar (hashStrings strings) = true).
  { unfold hashStrings, sha256Hex, SHA256.hex, SHA256.hexWord.
    cbn [allChars]. rewrite !hexNibble_hex. reflexivity. }
  split; [assumption|]. split; [assumption|].
  intros rootSegments Hr. apply path_join_children; [assumption| |discriminate].
  constructor; [|constructor]. apply keptSegment_hex; assumption.
Qed.

(** X19.  For an install directory that is not there, the calls made
    are a beginning of: the log line, [ensureDir], [writeJson] of
    [installDir/package.json] with the packageJson of the install,
    [npm install] in the directory; in this order, ending at the first
    that fails.  Success means the four were made.  Once [ensureDir] is
    past the directory exists, once [writeJson] is past the manifest. *)
Theorem prepareVersionDirectory_steps (host : Host) (install : NpmInstall) (w : World) :
  worldPathExists w (installDir install) = false ->
  let outcome := prepareVersionDirectory host install w in
  exists n,
    events (fst outcome) = events w ++ firstn n (installEvents install)
    /\ 1 <= n <= 4
    /\ (snd outcome = Ok tt -> n = 4)
    /\ (2 <= n -> worldPathExists (fst outcome) (installDir install) = true)
    /\ (3 <= n ->
        worldPathExists (fst outcome) (path_join [installDir install; "package.json"])
        = true).
Proof.
  intros Hfresh outcome. unfold outcome, prepareVersionDirectory, npmInstall.
  rewrite Hfresh.
  set (w1 := record (Logged _) [] w).
  destruct (ensureDirError host _ _) as [e|].
  - exists 1. cbn [fst snd events record firstn installEvents].
    split; [reflexivity|]. split; [lia|]. split; [discriminate|]. split; intro; lia.
  - set (w2 := record (EnsuredDir _) [installDir install] w1).
    assert (Hdir2 : worldPathExists w2 (installDir install) = true)
      by apply worldPathExists_created.
    assert (Hev2 : events w2 = events w ++ firstn 2 (installEvents install))
      by (cbn [events record w2 w1 firstn installEvents]; rewrite <- app_assoc; reflexivity).
    destruct (writeJsonError host _ _) as [e|].
    + exists 2. cbn [fst snd].
      split; [assumption|]. split; [lia|].
      split; [discriminate|]. split; [auto|intro; lia].
    + set (w3 := record (WroteJson _ _) [path_join [installDir install; "package.json"]] w2).
      assert (Hfile3 : worldPathExists w3 (path_join [installDir install; "package.json"])
                       = true) by apply worldPathExists_created.
      assert (Hdir3 : worldPathExists w3 (installDir install) = true)
        by (apply worldPathExists_record; assumption).
      assert (Hev4 : forall created,
                 events (record (RanNpmInstall (installDir install)) created w3)
                 = events w ++ firstn 4 (installEvents install)).
      { intro created. cbn [events record w3]. rewrite Hev2.
        cbn [firstn installEvents]. rewrite <- !app_assoc. reflexivity. }
      exists 4.
      destruct (npmInstallFails host _ _); cbn [fst snd];
        (split; [apply Hev4|]); (split; [lia|]);
        (split; [reflexivity || discriminate|]);
        split; intros _; apply worldPathExists_record; assumption.
Qed.

Lemma prepareVersionDirectory_steps_witness :
  let install := {| installDir := "/repo/installs/abc";
                    packageJson := {| private := true; dependencies := [] |} |} in
  exists n,
    events (fst (prepareVersionDirectory Fixture.host install Fixture.emptyWorld))
    = firstn n (installEvents install)
    /\ n = 4.
Proof.
  cbv zeta.
  destruct (@prepareVersionDirectory_steps Fixture.host
              {| installDir := "/repo/installs/abc";
                 packageJson := {| private := true; dependencies := [] |} |}
              Fixture.emptyWorld eq_refl) as [n [Hev [_ [Hok _]]]].
  exists n. split; [exact Hev|apply Hok; reflexivity].
Defined.

(** X20.  Once [ensureDir] has made the install directory, the next
    call for the same install does nothing and reports success, also
    when the first call failed in [writeJson] or in [npm install]. *)
Theorem prepareVersionDirectory_never_repairs (host : Host) (install : NpmInstall)
        (w : World) :
  worldPathExists w (installDir install) = false ->
  (forall w', ensureDirError host (installDir install) w' = None) ->
  let first := prepareVersionDirectory host install w in
  prepareVersionDirectory host install (fst first) = (fst first, Ok tt).
Proof.
  intros Hfresh Hensure first.
  assert (Hdir : worldPathExists (fst first) (installDir install) = true).
  { unfold first, prepareVersionDirectory, npmInstall. rewrite Hfresh, Hensure.
    destruct (writeJsonError host _ _).
    - apply worldPathExists_created.
    - destruct (npmInstallFails host _ _); cbn [fst];
        apply worldPathExists_record, worldPathExists_record, worldPathExists_created. }
  unfold prepareVersionDirectory at 1. rewrite Hdir. reflexivity.
Qed.

Lemma prepareVersionDirectory_never_repairs_witness :
  let install := {| installDir := "/repo/installs/abc";
                    packageJson := {| private := true; dependencies := [] |} |} in
  let first := prepareVersionDirectory Trees.offline install Fixture.emptyWorld in
  snd first = Throw (NpmFailed "/repo/installs/abc")
  /\ prepareVersionDirectory Trees.offline install (fst first) = (fst first, Ok tt).
Proof.
  cbv zeta. split; [reflexivity|].
  apply (@prepareVersionDirectory_never_repairs Trees.offline
           {| installDir := "/repo/installs/abc";
              packageJson := {| private := true; dependencies := [] |} |}
           Fixture.emptyWorld eq_refl).
  intro w'. reflexivity.
Defined.

(** ** Where the specs of the expander come from *)

Section Selection.
Variable disk : Disk.
Variable repoRoot : string.
Variable versions : VersionMap.
Variable opts : Opts.t.

Lemma pushVariants_origin (name implementation : string)
      (implVersions : list PackageVersion) (all : list Variant) (declared : list Variant) :
  (forall d, In d declared -> In d all) ->
  forall specs,
  exists added,
    pushVariants name implementation (requestedVariants opts) implVersions declared specs
    = specs ++ added
    /\ Forall (fun s =>
                 Spec.name s = name /\ Spec.implementation s = implementation
                 /\ In (Spec.version s) implVersions
                 /\ Spec.variant s <> EmptyString
                 /\ (strMem "*" (requestedVariants opts)
                     || strMem (Spec.variant s) (requestedVariants opts))%bool = true
                 /\ exists d, In d all /\ vname d = Some (Spec.variant s)
                              /\ Spec.config s = variantConfig d)
              added.
Proof.
  induction declared as [|v rest IH]; intros Hall specs.
  - exists []. simpl. rewrite app_nil_r. split; constructor.
  - cbn [pushVariants].
    assert (Hrest : forall d, In d rest -> In d all) by (intros; apply Hall; right; assumption).
    destruct (vname v) as [n|] eqn:En; [|apply IH; assumption].
    destruct (_ && _)%bool eqn:Ec; [|apply IH; assumption].
    unfold pushVersions.
    destruct (IH Hrest (specs ++ map (fun version =>
                                  Spec.mk name implementation version n
                                    match vconfig v with
                                    | Some c => if truthy c then c else JObj []
                                    | None => JObj []
                                    end) implVersions)) as [added [E Hadd]].
    eexists. rewrite E, <- app_assoc. split; [reflexivity|].
    apply Forall_app. split; [|assumption].
    apply Forall_forall. intros s Hs. apply in_map_iff in Hs.
    destruct Hs as [ver [Es Hver]]. subst s. cbn [Spec.name Spec.implementation
      Spec.version Spec.variant Spec.config].
    apply andb_true_iff in Ec. destruct Ec as [Ene Ereq].
    split; [reflexivity|]. split; [reflexivity|]. split; [assumption|].
    split; [intro E0; subst n; discriminate|]. split; [assumption|].
    exists v. split; [apply Hall; left; reflexivity|]. split; [assumption|reflexivity].
Qed.

Lemma expandBenchmark_origin (implementation implDir name : string)
      (specs specs' : list BenchmarkSpec) :
  expandBenchmark disk versions opts (requestedVariants opts) implementation implDir
    name specs = Ok specs' ->
  exists added,
    specs' = specs ++ added
    /\ Forall (fun s =>
                 Spec.name s = name /\ Spec.implementation s = implementation
                 /\ pathExists disk (path_join [implDir; name]) = true
                 /\ In (Spec.version s) (implVersionsOf versions implementation)
                 /\ variantOf disk opts (path_join [implDir; name]) s)
              added.
Proof.
  unfold expandBenchmark. intro H.
  assert (Hcase : pathExists disk (path_join [implDir; name]) = true
                  \/ pathExists disk (path_join [implDir; name]) = false)
    by (destruct (pathExists disk (path_join [implDir; name])); auto).
  destruct Hcase as [Ex|Ex]; rewrite Ex in H; cbn [negb] in H.
  2:{ inversion H; subst. exists []. rewrite app_nil_r. split; constructor. }
  destruct (awaitUnlessMissing _) as [cfg|e] eqn:Ecfg; cbn [bind] in H; [|discriminate].
  assert (Hplain :
            declaresNoVariants cfg ->
            (if String.eqb (Opts.variant opts) "*"
             then Ok (pushVersions name implementation EmptyString (JObj [])
                        (implVersionsOf versions implementation) specs)
             else Ok specs) = Ok specs' ->
            exists added,
              specs' = specs ++ added
              /\ Forall (fun s =>
                           Spec.name s = name /\ Spec.implementation s = implementation
                           /\ pathExists disk (path_join [implDir; name]) = true
                           /\ In (Spec.version s) (implVersionsOf versions implementation)
                           /\ variantOf disk opts (path_join [implDir; name]) s)
                        added).
  { intros Hno H'. destruct (String.eqb (Opts.variant opts) "*") eqn:Ev;
      inversion H'; subst; clear H'.
    - unfold pushVersions. eexists. split; [reflexivity|].
      apply Forall_forall. intros s Hs. apply in_map_iff in Hs.
      destruct Hs as [ver [Es Hver]]. subst s.
      cbn [Spec.name Spec.implementation Spec.version Spec.variant Spec.config].
      repeat (split; [reflexivity || assumption|]).
      left. cbn [Spec.variant Spec.config]. apply String.eqb_eq in Ev.
      repeat (split; [reflexivity || assumption|]). eauto.
    - exists []. rewrite app_nil_r. split; constructor. }
  destruct cfg as [[[[|v vs]|]]|].
  - apply Hplain; [right; reflexivity|assumption].
  - inversion H; subst; clear H.
    assert (Eread : readConfigJson disk (path_join [path_join [implDir; name];
                                                    "benchmarks.json"])
                    = Done {| variants := Some (v :: vs) |}).
    { unfold awaitUnlessMissing in Ecfg.
      destruct (readConfigJson disk _) as [c|[code|]]; try discriminate.
      - inversion Ecfg; reflexivity.
      - destruct (String.eqb code "ENOENT"); discriminate. }
    destruct (@pushVariants_origin name implementation
                (implVersionsOf versions implementation) (v :: vs) (v :: vs)
                (fun d H => H) specs) as [added [E Hadd]].
    exists added. split; [exact E|].
    eapply Forall_impl; [|exact Hadd]. cbv beta.
    intros s [H1 [H2 [H3 [H4 [H5 [d [Hd [Hn Hc]]]]]]]].
    repeat (split; [reflexivity || assumption|]).
    right. repeat (split; [assumption|]). exists (v :: vs), d. auto.
  - apply Hplain; [left; reflexivity|assumption].
  - apply Hplain; [exact I|assumption].
Qed.

Variable P : list BenchmarkSpec -> Prop.

Lemma expandBenchmarks_each (implementation implDir : string)
      (benchmarks : list string) :
  (forall name l l',
      In name benchmarks ->
      expandBenchmark disk versions opts (requestedVariants opts) implementation
        implDir name l = Ok l' ->
      P l -> P l') ->
  forall specs specs',
    expandBenchmarks disk versions opts (requestedVariants opts) implementation
      implDir benchmarks specs = Ok specs' ->
    P specs -> P specs'.
Proof.
  induction benchmarks as [|name rest IH]; intros Hstep specs specs' H Hp.
  - simpl in H. inversion H; subst; assumption.
  - cbn [expandBenchmarks] in H.
    destruct (expandBenchmark _ _ _ _ _ _ _ _) as [s1|e] eqn:E; cbn [bind] in H;
      [|discriminate].
    eapply IH; [|exact H|].
    + intros n l l' Hn. apply Hstep. right; assumption.
    + eapply Hstep; [left; reflexivity|exact E|exact Hp].
Qed.

Lemma expandImplementations_each (impls : list string) :
  (forall implementation l l',
      In implementation impls ->
      expandImplementation disk repoRoot versions opts (requestedVariants opts)
        implementation l = Ok l' ->
      P l -> P l') ->
  forall specs specs',
    expandImplementations disk repoRoot versions opts (requestedVariants opts)
      impls specs = Ok specs' ->
    P specs -> P specs'.
Proof.
  induction impls as [|i rest IH]; intros Hstep specs specs' H Hp.
  - simpl in H. inversion H; subst; assumption.
  - cbn [expandImplementations] in H.
    destruct (expandImplementation _ _ _ _ _ _ _) as [s1|e] eqn:E; cbn [bind] in H;
      [|discriminate].
    eapply IH; [|exact H|].
    + intros n l l' Hn. apply Hstep. right; assumption.
    + eapply Hstep; [left; reflexivity|exact E|exact Hp].
Qed.
End Selection.

Lemma filter_none (A : Type) (f : A -> bool) (l : list A) :
  (0 <? List.length (filter f l))%nat = false -> forall x, In x l -> f x = false.
Proof.
  intros H x Hx. destruct (f x) eqn:E; [|reflexivity].
  assert (Hin : In x (filter f l)) by (apply filter_In; split; assumption).
  destruct (filter f l); [destruct Hin|discriminate].
Qed.

Lemma listed_entries (disk : Disk) (dir wanted : string) (entries : list string) :
  (if String.eqb wanted "*"
   then found <- await (readdir disk dir) ;;
        Ok (filter (fun d => negb (strMem d ignoreFiles)) found)
   else
     let entries := splitOn "," wanted in
     let badNames := filter (fun d => strMem d ignoreFiles) entries in
     if (0 <? List.length badNames)%nat
     then Throw (ReservedBenchmark badNames)
     else Ok entries) = Ok entries ->
  forall entry, In entry entries -> listedIn disk dir wanted entry.
Proof.
  unfold listedIn. destruct (String.eqb wanted "*").
  - destruct (readdir disk dir) as [found|e]; cbn [await bind]; [|discriminate].
    intro H. inversion H; subst entries; clear H. intros entry Hin.
    apply filter_In in Hin. destruct Hin as [Hin Hok].
    apply negb_true_iff in Hok. split; [assumption|]. eauto.
  - cbv zeta. destruct (0 <? _)%nat eqn:E; [discriminate|].
    intro H. inversion H; subst entries; clear H. intros entry Hin.
    split; [|assumption]. exact (filter_none _ _ E entry Hin).
Qed.

Lemma listed_implementations (disk : Disk) (dir wanted : string) (entries : list string) :
  (if String.eqb wanted "*"
   then found <- await (readdir disk dir) ;;
        Ok (filter (fun d => negb (strMem d ignoreFiles)) found)
   else
     let entries := splitOn "," wanted in
     let badNames := filter (fun d => strMem d ignoreFiles) entries in
     if (0 <? List.length badNames)%nat
     then Throw (ReservedImplementation badNames)
     else Ok entries) = Ok entries ->
  forall entry, In entry entries -> listedIn disk dir wanted entry.
Proof.
  unfold listedIn. destruct (String.eqb wanted "*").
  - destruct (readdir disk dir) as [found|e]; cbn [await bind]; [|discriminate].
    intro H. inversion H; subst entries; clear H. intros entry Hin.
    apply filter_In in Hin. destruct Hin as [Hin Hok].
    apply negb_true_iff in Hok. split; [assumption|]. eauto.
  - cbv zeta. destruct (0 <? _)%nat eqn:E; [discriminate|].
    intro H. inversion H; subst entries; clear H. intros entry Hin.
    split; [|assumption]. exact (filter_none _ _ E entry Hin).
Qed.

Lemma collectSpecs_selected (disk : Disk) (repoRoot : string) (opts : Opts.t)
      (versions : VersionMap) (specs : list BenchmarkSpec) :
  parsePackageVersions (Opts.packageVersion opts) = Ok versions ->
  collectSpecs disk repoRoot opts = Ok specs ->
  Forall (selected disk repoRoot opts versions) specs.
Proof.
  intros Hv H. unfold collectSpecs in H. rewrite Hv in H. cbn [bind] in H.
  match type of H with
  | bind ?m _ = _ => destruct m as [impls|e] eqn:Ei; cbn [bind] in H; [|discriminate]
  end.
  pose proof (listed_implementations _ _ _ Ei) as Himpls.
  eapply expandImplementations_each with (P := Forall (selected disk repoRoot opts versions));
    [|exact H|constructor].
  intros implementation l l' Hin E Hl. unfold expandImplementation in E.
  match type of E with
  | bind ?m _ = _ => destruct m as [benchmarks|e] eqn:Eb; cbn [bind] in E; [|discriminate]
  end.
  pose proof (listed_entries _ _ _ Eb) as Hnames.
  eapply expandBenchmarks_each with (P := Forall (selected disk repoRoot opts versions));
    [|exact E|exact Hl].
  intros name l0 l1 Hname E1 Hl0.
  destruct (expandBenchmark_origin _ _ _ _ _ _ _ E1) as [added [Ea Hadd]].
  subst l1. apply Forall_app. split; [assumption|].
  eapply Forall_impl; [|exact Hadd]. cbv beta.
  intros s [H1 [H2 [H3 [H4 H5]]]]. unfold selected. rewrite H1, H2.
  repeat (split; [auto|]). assumption.
Qed.

Lemma specsFromOpts_selected (localeCompare : string -> string -> Z) (disk : Disk)
      (repoRoot : string) (opts : Opts.t) (versions : VersionMap)
      (specs : list BenchmarkSpec) :
  parsePackageVersions (Opts.packageVersion opts) = Ok versions ->
  specsFromOpts localeCompare disk repoRoot opts = Ok specs ->
  forall s, In s specs -> selected disk repoRoot opts versions s.
Proof.
  intros Hv H s Hs. unfold specsFromOpts in H.
  destruct (collectSpecs disk repoRoot opts) as [collected|] eqn:Ec; [|discriminate].
  cbn [bind] in H. inversion H; subst specs; clear H.
  apply In_arraySort in Hs.
  pose proof (collectSpecs_selected _ _ _ Hv Ec) as Hall.
  rewrite Forall_forall in Hall. auto.
Qed.

Lemma specsFromOpts_parses (localeCompare : string -> string -> Z) (disk : Disk)
      (repoRoot : string) (opts : Opts.t) (specs : list BenchmarkSpec) :
  specsFromOpts localeCompare disk repoRoot opts = Ok specs ->
  exists versions, parsePackageVersions (Opts.packageVersion opts) = Ok versions.
Proof.
  unfold specsFromOpts, collectSpecs.
  destruct (parsePackageVersions _) as [versions|]; [eauto|discriminate].
Qed.

(** X21.  Every spec returned names a benchmark directory that
    exists.  Its implementation and its name are taken from the option,
    split at commas, or for [*] from the listing of the directory, and
    are not reserved names; [benchmarks/<implementation>/<name>] under
    the root passed [pathExists]. *)
Theorem specsFromOpts_benchmarks_exist (localeCompare : string -> string -> Z)
        (disk : Disk) (repoRoot : string) (opts : Opts.t) (specs : list BenchmarkSpec) :
  specsFromOpts localeCompare disk repoRoot opts = Ok specs ->
  forall s, In s specs ->
    let implDir := path_join [repoRoot; "benchmarks"; Spec.implementation s] in
    listedIn disk (path_join [repoRoot; "benchmarks"]) (Opts.implementation opts)
             (Spec.implementation s)
    /\ listedIn disk implDir (Opts.name opts) (Spec.name s)
    /\ pathExists disk (path_join [implDir; Spec.name s]) = true.
Proof.
  intros H s Hs. destruct (specsFromOpts_parses _ _ _ _ H) as [versions Hv].
  destruct (specsFromOpts_selected _ _ _ _ Hv H s Hs) as [H1 [H2 [H3 _]]].
  cbv zeta. auto.
Qed.

Lemma specsFromOpts_benchmarks_exist_witness :
  listedIn Fixture.disk "/repo/benchmarks" "*" "lit"
  /\ listedIn Fixture.disk "/repo/benchmarks/lit" "*" "bench"
  /\ pathExists Fixture.disk "/repo/benchmarks/lit/bench" = true.
Proof.
  exact (@specsFromOpts_benchmarks_exist localeCompareAscii Fixture.disk "/repo"
           Fixture.allOpts _ eq_refl
           (Spec.mk "bench" "lit" defaultVersion "v1" (JObj [("size", JNum 10)]))
           (or_introl eq_refl)).
Defined.

(** X22.  No spec returned has a reserved implementation or
    benchmark name (node_modules, package.json, package-lock.json,
    common, versions), whether the names come from the options or from
    the disk. *)
Theorem specsFromOpts_never_reserved (localeCompare : string -> string -> Z)
        (disk : Disk) (repoRoot : string) (opts : Opts.t) (specs : list BenchmarkSpec) :
  specsFromOpts localeCompare disk repoRoot opts = Ok specs ->
  forall s, In s specs ->
    ~ In (Spec.implementation s) ignoreFiles /\ ~ In (Spec.name s) ignoreFiles.
Proof.
  intros H s Hs. destruct (specsFromOpts_parses _ _ _ _ H) as [versions Hv].
  destruct (specsFromOpts_selected _ _ _ _ Hv H s Hs) as [[H1 _] [[H2 _] _]].
  split; apply strMem_not_In; assumption.
Qed.

Lemma specsFromOpts_never_reserved_witness :
  ~ In "lit" ignoreFiles /\ ~ In "Zeta" ignoreFiles.
Proof.
  exact (@specsFromOpts_never_reserved localeCompareAscii Fixture.disk "/repo"
           Fixture.allOpts _ eq_refl
           (Spec.mk "Zeta" "lit" defaultVersion EmptyString (JObj []))
           (or_intror (or_intror (or_introl eq_refl)))).
Defined.

(** X23.  Every spec returned has either the empty variant and the
    empty config, and then the option is exactly [*] and its benchmark
    declares no variants; or a variant name that is not empty, that was
    requested by name or by [*], and that the [benchmarks.json] of its
    benchmark declares, with the config of that variant, [{}] when it
    has none. *)
Theorem specsFromOpts_variants_declared (localeCompare : string -> string -> Z)
        (disk : Disk) (repoRoot : string) (opts : Opts.t) (specs : list BenchmarkSpec) :
  specsFromOpts localeCompare disk repoRoot opts = Ok specs ->
  forall s, In s specs ->
    let benchDir :=
      path_join [path_join [repoRoot; "benchmarks"; Spec.implementation s];
                 Spec.name s] in
    let configFile := path_join [benchDir; "benchmarks.json"] in
    (Spec.variant s = EmptyString /\ Spec.config s = JObj []
     /\ Opts.variant opts = "*"
     /\ exists config,
          awaitUnlessMissing (readConfigJson disk configFile) = Ok config
          /\ declaresNoVariants config)
    \/ (Spec.variant s <> EmptyString
        /\ (In "*" (requestedVariants opts)
            \/ In (Spec.variant s) (requestedVariants opts))
        /\ exists declared d,
             readConfigJson disk configFile = Done {| variants := Some declared |}
             /\ In d declared
             /\ vname d = Some (Spec.variant s)
             /\ Spec.config s = variantConfig d).
Proof.
  intros H s Hs. destruct (specsFromOpts_parses _ _ _ _ H) as [versions Hv].
  destruct (specsFromOpts_selected _ _ _ _ Hv H s Hs) as [_ [_ [_ [_ Hvar]]]].
  cbv zeta. unfold variantOf in Hvar. cbv zeta in Hvar.
  destruct Hvar as [Hvar|[Hne [Hreq Hdecl]]]; [left; exact Hvar|right].
  split; [assumption|]. split; [|assumption].
  apply orb_true_iff in Hreq. destruct Hreq as [Hreq|Hreq];
    apply strMem_In in Hreq; auto.
Qed.

Lemma specsFromOpts_variants_declared_witness :
  exists declared d,
    readConfigJson Fixture.disk "/repo/benchmarks/lit/bench/benchmarks.json"
    = Done {| variants := Some declared |}
    /\ In d declared
    /\ vname d = Some "v1"
    /\ JObj [("size", JNum 10)] = variantConfig d.
Proof.
  destruct (@specsFromOpts_variants_declared localeCompareAscii Fixture.disk "/repo"
              Fixture.allOpts _ eq_refl
              (Spec.mk "bench" "lit" defaultVersion "v1" (JObj [("size", JNum 10)]))
              (or_introl eq_refl)) as [[H _]|[_ [_ H]]].
  - discriminate.
  - exact H.
Defined.

(** ** What is selected is returned *)

Section Reach.
Variable disk : Disk.
Variable repoRoot : string.
Variable versions : VersionMap.
Variable opts : Opts.t.

Lemma pushVariants_keeps (name implementation : string) (requested : list string)
      (implVersions : list PackageVersion) (declared : list Variant)
      (specs : list BenchmarkSpec) :
  incl specs (pushVariants name implementation requested implVersions declared specs).
Proof.
  destruct (pushVariants_adds name implementation requested implVersions declared specs)
    as [added [E _]].
  rewrite E. apply incl_appl, incl_refl.
Qed.

Lemma pushVariants_pushes (name implementation : string) (requested : list string)
      (implVersions : list PackageVersion) (d : Variant) (n : string)
      (version : PackageVersion) (declared : list Variant) :
  In d declared ->
  vname d = Some n ->
  n <> EmptyString ->
  (strMem "*" requested || strMem n requested)%bool = true ->
  In version implVersions ->
  forall specs,
    In (Spec.mk name implementation version n (variantConfig d))
       (pushVariants name implementation requested implVersions declared specs).
Proof.
  intros Hd Hn Hne Hreq Hv. induction declared as [|v rest IH]; [destruct Hd|].
  intro specs. cbn [pushVariants]. destruct Hd as [E|Hd].
  - subst v. rewrite Hn.
    replace (negb (String.eqb n EmptyString)) with true
      by (symmetry; apply negb_true_iff, String.eqb_neq; assumption).
    rewrite Hreq. cbn [andb]. apply pushVariants_keeps. unfold pushVersions.
    apply in_or_app. right. apply in_map_iff. exists version. split; [reflexivity|assumption].
  - apply IH. assumption.
Qed.

Lemma expandBenchmark_keeps (implementation implDir name : string)
      (specs specs' : list BenchmarkSpec) :
  expandBenchmark disk versions opts (requestedVariants opts) implementation implDir
    name specs = Ok specs' ->
  incl specs specs'.
Proof.
  intro H. destruct (expandBenchmark_adds _ _ _ _ _ _ _ _ H) as [added [E _]].
  rewrite E. apply incl_appl, incl_refl.
Qed.

Lemma expandBenchmarks_keeps (implementation implDir : string)
      (benchmarks : list string) :
  forall specs specs',
    expandBenchmarks disk versions opts (requestedVariants opts) implementation implDir
      benchmarks specs = Ok specs' ->
    incl specs specs'.
Proof.
  intros specs specs' H.
  apply (@expandBenchmarks_each disk versions opts (fun l => incl specs l)
           implementation implDir benchmarks) with (specs := specs);
    [|exact H|apply incl_refl].
  intros name l l' _ E Hl. eapply incl_tran; [exact Hl|]. eapply expandBenchmark_keeps; eassumption.
Qed.

Lemma expandBenchmarks_reaches (implementation implDir name : string)
      (benchmarks : list string) :
  In name benchmarks ->
  forall specs specs',
    expandBenchmarks disk versions opts (requestedVariants opts) implementation implDir
      benchmarks specs = Ok specs' ->
    exists l l',
      expandBenchmark disk versions opts (requestedVariants opts) implementation implDir
        name l = Ok l'
      /\ incl l' specs'.
Proof.
  induction benchmarks as [|b rest IH]; intros Hin specs specs' H; [destruct Hin|].
  cbn [expandBenchmarks] in H.
  destruct (expandBenchmark _ _ _ _ _ _ _ _) as [s1|e] eqn:E; cbn [bind] in H;
    [|discriminate].
  destruct Hin as [Eb|Hin].
  - subst b. exists specs, s1. split; [assumption|].
    eapply expandBenchmarks_keeps; eassumption.
  - eapply IH; eassumption.
Qed.

Lemma expandImplementation_keeps (implementation : string)
      (specs specs' : list BenchmarkSpec) :
  expandImplementation disk repoRoot versions opts (requestedVariants opts)
    implementation specs = Ok specs' ->
  incl specs specs'.
Proof.
  unfold expandImplementation. intro H.
  match type of H with
  | bind ?m _ = _ => destruct m as [benchmarks|e]; cbn [bind] in H; [|discriminate]
  end.
  eapply expandBenchmarks_keeps; eassumption.
Qed.

Lemma expandImplementations_keeps (impls : list string) :
  forall specs specs',
    expandImplementations disk repoRoot versions opts (requestedVariants opts)
      impls specs = Ok specs' ->
    incl specs specs'.
Proof.
  intros specs specs' H.
  apply (@expandImplementations_each disk repoRoot versions opts
           (fun l => incl specs l) impls) with (specs := specs);
    [|exact H|apply incl_refl].
  intros i l l' _ E Hl. eapply incl_tran; [exact Hl|].
  eapply expandImplementation_keeps; eassumption.
Qed.

Lemma expandImplementations_reaches (implementation : string) (impls : list string) :
  In implementation impls ->
  forall specs specs',
    expandImplementations disk repoRoot versions opts (requestedVariants opts)
      impls specs = Ok specs' ->
    exists l l',
      expandImplementation disk repoRoot versions opts (requestedVariants opts)
        implementation l = Ok l'
      /\ incl l' specs'.
Proof.
  induction impls as [|i rest IH]; intros Hin specs specs' H; [destruct Hin|].
  cbn [expandImplementations] in H.
  destruct (expandImplementation _ _ _ _ _ _ _) as [s1|e] eqn:E; cbn [bind] in H;
    [|discriminate].
  destruct Hin as [Ei|Hin].
  - subst i. exists specs, s1. split; [assumption|].
    eapply expandImplementations_keeps; eassumption.
  - eapply IH; eassumption.
Qed.
End Reach.

Lemma listedIn_entries (disk : Disk) (dir wanted entry : string) (entries : list string)
      (bad : list string -> Error) :
  (if String.eqb wanted "*"
   then found <- await (readdir disk dir) ;;
        Ok (filter (fun d => negb (strMem d ignoreFiles)) found)
   else
     let entries := splitOn "," wanted in
     let badNames := filter (fun d => strMem d ignoreFiles) entries in
     if (0 <? List.length badNames)%nat
     then Throw (bad badNames)
     else Ok entries) = Ok entries ->
  listedIn disk dir wanted entry -> In entry entries.
Proof.
  unfold listedIn. intros H [Hok Hl]. destruct (String.eqb wanted "*").
  - destruct Hl as [found [Er Hin]]. rewrite Er in H. cbn [await bind] in H.
    inversion H; subst entries. apply filter_In. split; [assumption|].
    change (negb (strMem entry ignoreFiles) = true). rewrite Hok. reflexivity.
  - cbv zeta in H. destruct (0 <? _)%nat; [discriminate|].
    inversion H; subst entries. assumption.
Qed.

Lemma collectSpecs_reaches (disk : Disk) (repoRoot : string) (opts : Opts.t)
      (versions : VersionMap) (specs : list BenchmarkSpec)
      (implementation name : string) :
  parsePackageVersions (Opts.packageVersion opts) = Ok versions ->
  collectSpecs disk repoRoot opts = Ok specs ->
  let implDir := path_join [repoRoot; "benchmarks"; implementation] in
  listedIn disk (path_join [repoRoot; "benchmarks"]) (Opts.implementation opts)
           implementation ->
  listedIn disk implDir (Opts.name opts) name ->
  exists l l',
    expandBenchmark disk versions opts (requestedVariants opts) implementation implDir
      name l = Ok l'
    /\ incl l' specs.
Proof.
  intros Hv H implDir Hi Hn. unfold collectSpecs in H. rewrite Hv in H. cbn [bind] in H.
  match type of H with
  | bind ?m _ = _ => destruct m as [impls|e] eqn:Ei; cbn [bind] in H; [|discriminate]
  end.
  pose proof (@listedIn_entries _ _ _ _ _ ReservedImplementation Ei Hi) as Hin.
  destruct (@expandImplementations_reaches _ _ _ _ _ _ Hin _ _ H) as [l [l' [E Hincl]]].
  unfold expandImplementation in E.
  match type of E with
  | bind ?m _ = _ => destruct m as [benchmarks|e] eqn:Eb; cbn [bind] in E; [|discriminate]
  end.
  pose proof (@listedIn_entries _ _ _ _ _ ReservedBenchmark Eb Hn) as Hname.
  destruct (@expandBenchmarks_reaches _ _ _ _ _ _ _ Hname _ _ E) as [l0 [l1 [E1 Hincl1]]].
  exists l0, l1. split; [exact E1|]. eapply incl_tran; eassumption.
Qed.

(** X24.  Nothing that is selected is left out.  For a benchmark
    directory that exists, of a listed implementation and a listed
    name, and for each version of the implementation: every declared
    variant with a name that is requested, by name or by [*], has its
    spec in the list returned; and when the benchmark declares no
    variants and the option is exactly [*], the spec with the empty
    variant is in the list. *)
Theorem specsFromOpts_selects_every_version (localeCompare : string -> string -> Z)
        (disk : Disk) (repoRoot : string) (opts : Opts.t) (versions : VersionMap)
        (specs : list BenchmarkSpec) (implementation name : string)
        (version : PackageVersion) :
  parsePackageVersions (Opts.packageVersion opts) = Ok versions ->
  specsFromOpts localeCompare disk repoRoot opts = Ok specs ->
  let implDir := path_join [repoRoot; "benchmarks"; implementation] in
  let benchDir := path_join [implDir; name] in
  let configFile := path_join [benchDir; "benchmarks.json"] in
  listedIn disk (path_join [repoRoot; "benchmarks"]) (Opts.implementation opts)
           implementation ->
  listedIn disk implDir (Opts.name opts) name ->
  pathExists disk benchDir = true ->
  In version (implVersionsOf versions implementation) ->
  (forall declared d n,
      readConfigJson disk configFile = Done {| variants := Some declared |} ->
      In d declared ->
      vname d = Some n ->
      n <> EmptyString ->
      In "*" (requestedVariants opts) \/ In n (requestedVariants opts) ->
      In (Spec.mk name implementation version n (variantConfig d)) specs)
  /\ (forall config,
         awaitUnlessMissing (readConfigJson disk configFile) = Ok config ->
         declaresNoVariants config ->
         Opts.variant opts = "*" ->
         In (Spec.mk name implementation version EmptyString (JObj [])) specs).
Proof.
  intros Hv H implDir benchDir configFile Hi Hn Hex Hver.
  unfold specsFromOpts in H.
  destruct (collectSpecs disk repoRoot opts) as [collected|] eqn:Ec; [|discriminate].
  cbn [bind] in H. inversion H; subst specs; clear H.
  destruct (@collectSpecs_reaches disk repoRoot opts versions collected implementation
              name Hv Ec Hi Hn) as [l [l' [E Hincl]]].
  fold implDir in E. unfold expandBenchmark in E. fold benchDir in E.
  rewrite Hex in E. cbn [negb] in E. fold configFile in E.
  split.
  - intros declared d n Hread Hd Hname Hne Hreq.
    apply In_arraySort, Hincl.
    rewrite Hread in E. cbn [awaitUnlessMissing bind] in E.
    destruct declared as [|v vs]; [destruct Hd|].
    assert (Hl' : l' = pushVariants name implementation (requestedVariants opts)
                         (implVersionsOf versions implementation) (v :: vs) l)
      by (injection E; auto).
    rewrite Hl'. apply pushVariants_pushes; try assumption.
    apply orb_true_iff. destruct Hreq as [Hreq|Hreq]; [left|right];
      apply strMem_In; assumption.
  - intros config Hcfg Hno Hstar.
    apply In_arraySort, Hincl.
    rewrite Hcfg in E. cbn [bind] in E.
    apply String.eqb_eq in Hstar.
    assert (Hl' : l' = pushVersions name implementation EmptyString (JObj [])
                         (implVersionsOf versions implementation) l).
    { destruct config as [[[[|v vs]|]]|]; cbn [declaresNoVariants variants] in Hno;
        try (rewrite Hstar in E; inversion E; reflexivity).
      destruct Hno as [Hno|Hno]; discriminate. }
    rewrite Hl'. unfold pushVersions. apply in_or_app. right.
    apply in_map_iff. exists version. split; [reflexivity|assumption].
Qed.

Lemma specsFromOpts_selects_every_version_witness :
  In (Spec.mk "bench" "lit" (Fixture.v "new" "1.1.0") "v1" (JObj [("size", JNum 10)]))
     [ Spec.mk "bench" "lit" (Fixture.v "new" "1.1.0") "v1" (JObj [("size", JNum 10)]);
       Spec.mk "bench" "lit" (Fixture.v "old" "0.9.0") "v1" (JObj [("size", JNum 10)]) ].
Proof.
  refine (proj1 (@specsFromOpts_selects_every_version localeCompareAscii Fixture.disk
                   "/repo" Fixture.versionOpts
                   [("lit", [Fixture.v "old" "0.9.0"; Fixture.v "new" "1.1.0"])]
                   _ "lit" "bench" (Fixture.v "new" "1.1.0")
                   eq_refl eq_refl _ _ eq_refl _)
                _ {| vname := Some "v1"; vconfig := Some (JObj [("size", JNum 10)]) |}
                "v1" eq_refl _ eq_refl _ _).
  - split; [reflexivity|]. simpl. auto.
  - split; [reflexivity|]. simpl. auto.
  - simpl. auto.
  - simpl. auto.
  - discriminate.
  - right. simpl. auto.
Defined.

(** ** Sorting, reserved and unknown names *)

Section SortPermutes.
Variable A : Type.
Variable cmp : A -> A -> Z.

Lemma insertSorted_permutes (x : A) (l : list A) :
  Permutation (insertSorted cmp x l) (x :: l).
Proof.
  induction l as [|y l IH]; simpl; [apply Permutation_refl|].
  destruct (cmp x y <? 0)%Z; [apply Permutation_refl|].
  eapply Permutation_trans; [apply perm_skip, IH|apply perm_swap].
Qed.

Lemma arraySort_permutes (l : list A) : Permutation (arraySort cmp l) l.
Proof.
  unfold arraySort.
  assert (H : forall acc,
             Permutation (fold_left (fun acc x => insertSorted cmp x acc) l acc)
                         (acc ++ l)).
  { induction l as [|x l IH]; intro acc; simpl.
    - rewrite app_nil_r. apply Permutation_refl.
    - eapply Permutation_trans; [apply IH|].
      eapply Permutation_trans;
        [apply Permutation_app_tail, insertSorted_permutes|].
      simpl. apply Permutation_middle. }
  apply (H []).
Qed.
End SortPermutes.

(** X25.  Sorting only reorders: the list returned is a permutation
    of the specs the loops collect, whatever [localeCompare] answers. *)
Theorem specsFromOpts_sort_permutes (localeCompare : string -> string -> Z)
        (disk : Disk) (repoRoot : string) (opts : Opts.t) (specs : list BenchmarkSpec) :
  specsFromOpts localeCompare disk repoRoot opts = Ok specs ->
  exists collected,
    collectSpecs disk repoRoot opts = Ok collected
    /\ Permutation specs collected
    /\ List.length specs = List.length collected.
Proof.
  unfold specsFromOpts. intro H.
  destruct (collectSpecs disk repoRoot opts) as [collected|]; [|discriminate].
  cbn [bind] in H. inversion H; subst specs; clear H. exists collected.
  split; [reflexivity|].
  pose proof (arraySort_permutes (compareSpecs localeCompare) collected) as Hp.
  split; [assumption|apply Permutation_length; assumption].
Qed.

Lemma specsFromOpts_sort_permutes_witness :
  exists collected,
    collectSpecs Fixture.disk "/repo" Fixture.allOpts = Ok collected
    /\ Permutation
         [ Spec.mk "bench" "lit" defaultVersion "v1" (JObj [("size", JNum 10)]);
           Spec.mk "bench" "lit" defaultVersion "v2" (JObj []);
           Spec.mk "Zeta" "lit" defaultVersion EmptyString (JObj []) ]
         collected
    /\ 3 = List.length collected.
Proof.
  exact (@specsFromOpts_sort_permutes localeCompareAscii Fixture.disk "/repo"
           Fixture.allOpts _ eq_refl).
Defined.

(** X26.  Reserved names in the options are rejected before the disk
    is read, on every disk: a reserved implementation name with
    [Implementations cannot be named ...]; when there is none, a
    reserved benchmark name with [Benchmarks cannot be named ...].  The
    error lists the reserved names in the order given. *)
Theorem specsFromOpts_rejects_reserved (localeCompare : string -> string -> Z)
        (disk : Disk) (repoRoot : string) (opts : Opts.t) (versions : VersionMap) :
  parsePackageVersions (Opts.packageVersion opts) = Ok versions ->
  Opts.implementation opts <> "*" ->
  let badImplementations :=
    filter (fun d => strMem d ignoreFiles) (splitOn "," (Opts.implementation opts)) in
  let badNames :=
    filter (fun d => strMem d ignoreFiles) (splitOn "," (Opts.name opts)) in
  (badImplementations <> [] ->
   specsFromOpts localeCompare disk repoRoot opts
   = Throw (ReservedImplementation badImplementations))
  /\ (badImplementations = [] -> Opts.name opts <> "*" -> badNames <> [] ->
      specsFromOpts localeCompare disk repoRoot opts
      = Throw (ReservedBenchmark badNames)).
Proof.
  intros Hv Hi badI badN. apply String.eqb_neq in Hi.
  unfold specsFromOpts, collectSpecs. rewrite Hv, Hi. cbn [bind]. cbv zeta.
  fold badI. split.
  - intro Hbad. destruct badI; [contradiction|reflexivity].
  - intros Hnone Hn Hbad. rewrite Hnone. cbn [List.length Nat.ltb Nat.leb bind].
    apply String.eqb_neq in Hn.
    destruct (splitOn "," (Opts.implementation opts)) as [|i rest] eqn:Es;
      [exfalso; revert Es; apply splitOn_nonEmpty|].
    cbn [expandImplementations]. unfold expandImplementation.
    rewrite Hn. cbv zeta. fold badN.
    destruct badN; [contradiction|reflexivity].
Qed.

Lemma specsFromOpts_rejects_reserved_witness :
  specsFromOpts localeCompareAscii Fixture.disk "/repo"
    {| Opts.name := "bench"; Opts.implementation := "lit,common,versions";
       Opts.variant := "*"; Opts.packageVersion := [] |}
  = Throw (ReservedImplementation ["common"; "versions"])
  /\ specsFromOpts localeCompareAscii Fixture.disk "/repo"
       {| Opts.name := "bench,node_modules"; Opts.implementation := "lit";
          Opts.variant := "*"; Opts.packageVersion := [] |}
     = Throw (ReservedBenchmark ["node_modules"]).
Proof.
  split.
  - refine (proj1 (@specsFromOpts_rejects_reserved localeCompareAscii Fixture.disk "/repo"
                     {| Opts.name := "bench"; Opts.implementation := "lit,common,versions";
                        Opts.variant := "*"; Opts.packageVersion := [] |}
                     [] eq_refl _) _).
    + simpl. discriminate.
    + vm_compute. discriminate.
  - refine (proj2 (@specsFromOpts_rejects_reserved localeCompareAscii Fixture.disk "/repo"
                     {| Opts.name := "bench,node_modules"; Opts.implementation := "lit";
                        Opts.variant := "*"; Opts.packageVersion := [] |}
                     [] eq_refl _) _ _ _).
    + simpl. discriminate.
    + vm_compute. reflexivity.
    + simpl. discriminate.
    + vm_compute. discriminate.
Defined.

Section Absent.
Variable disk : Disk.
Variable versions : VersionMap.
Variable opts : Opts.t.

Lemma expandBenchmarks_absent (requested : list string)
      (implementation implDir : string) (benchmarks : list string)
      (specs : list BenchmarkSpec) :
  (forall name, In name benchmarks ->
                pathExists disk (path_join [implDir; name]) = false) ->
  expandBenchmarks disk versions opts requested implementation implDir benchmarks specs
  = Ok specs.
Proof.
  induction benchmarks as [|name rest IH]; intro H; [reflexivity|].
  cbn [expandBenchmarks]. unfold expandBenchmark.
  rewrite (H name (or_introl eq_refl)). cbn [negb bind].
  apply IH. intros n Hn. apply H. right; assumption.
Qed.
End Absent.

(** X27.  Names that match nothing are no error: with implementations
    and benchmarks given by name, none reserved, and no benchmark
    directory of these names on the disk, [specsFromOpts] returns the
    empty list. *)
Theorem specsFromOpts_unknown_names (localeCompare : string -> string -> Z)
        (disk : Disk) (repoRoot : string) (opts : Opts.t) (versions : VersionMap) :
  parsePackageVersions (Opts.packageVersion opts) = Ok versions ->
  Opts.implementation opts <> "*" ->
  Opts.name opts <> "*" ->
  (forall x, In x (splitOn "," (Opts.implementation opts)
                   ++ splitOn "," (Opts.name opts)) -> ~ In x ignoreFiles) ->
  (forall implementation name,
      In implementation (splitOn "," (Opts.implementation opts)) ->
      In name (splitOn "," (Opts.name opts)) ->
      pathExists disk
        (path_join [path_join [repoRoot; "benchmarks"; implementation]; name]) = false) ->
  specsFromOpts localeCompare disk repoRoot opts = Ok [].
Proof.
  intros Hv Hi Hn Hok Habsent.
  apply String.eqb_neq in Hi. apply String.eqb_neq in Hn.
  assert (Hfilter : forall l,
             (forall x, In x l -> ~ In x ignoreFiles) ->
             filter (fun d => strMem d ignoreFiles) l = []).
  { intros l Hl. induction l as [|x l IH]; [reflexivity|].
    cbn [filter].
    assert (Ex : strMem x ignoreFiles = false)
      by (apply strMem_not_In; apply Hl; left; reflexivity).
    rewrite Ex. apply IH. intros y Hy. apply Hl. right; assumption. }
  unfold specsFromOpts, collectSpecs. rewrite Hv, Hi. cbn [bind]. cbv zeta.
  rewrite Hfilter by (intros x Hx; apply Hok, in_or_app; left; assumption).
  cbn [List.length Nat.ltb Nat.leb bind].
  assert (Hloop : forall impls,
             (forall i, In i impls -> In i (splitOn "," (Opts.implementation opts))) ->
             expandImplementations disk repoRoot versions opts (requestedVariants opts)
               impls [] = Ok []).
  { induction impls as [|i rest IH]; intro Hsub; [reflexivity|].
    cbn [expandImplementations]. unfold expandImplementation.
    rewrite Hn. cbv zeta.
    rewrite Hfilter by (intros x Hx; apply Hok, in_or_app; right; assumption).
    cbn [List.length Nat.ltb Nat.leb bind].
    rewrite expandBenchmarks_absent.
    - cbn [bind]. apply IH. intros j Hj. apply Hsub. right; assumption.
    - intros name Hname. apply Habsent; [apply Hsub; left; reflexivity|assumption]. }
  rewrite Hloop by auto. reflexivity.
Qed.

Lemma specsFromOpts_unknown_names_witness :
  specsFromOpts localeCompareAscii Fixture.disk "/repo"
    {| Opts.name := "benhc"; Opts.implementation := "lit";
       Opts.variant := "*"; Opts.packageVersion := [] |}
  = Ok [].
Proof.
  apply (@specsFromOpts_unknown_names localeCompareAscii Fixture.disk "/repo"
           {| Opts.name := "benhc"; Opts.implementation := "lit";
              Opts.variant := "*"; Opts.packageVersion := [] |} [] eq_refl).
  - simpl. discriminate.
  - simpl. discriminate.
  - intros x [E|[E|[]]]; subst x; vm_compute; intuition discriminate.
  - intros i n [E|[]] [E'|[]]. subst i n. reflexivity.
Defined.

(* ================================================================== *)
(** * The versions and the variants of a benchmark in the result *)

(** ** Counting and filtering *)

Lemma filter_permutes (A : Type) (f : A -> bool) (l l' : list A) :
  Permutation l l' -> Permutation (filter f l) (filter f l').
Proof.
  induction 1 as [|x l l' _ IH|x y l|l l' l'' _ IH1 _ IH2]; simpl.
  - apply Permutation_refl.
  - destruct (f x); [apply perm_skip|]; assumption.
  - destruct (f x), (f y); try apply Permutation_refl. apply perm_swap.
  - eapply Permutation_trans; eassumption.
Qed.

Lemma filter_both (A : Type) (f g : A -> bool) (l : list A) :
  filter (fun x => (f x && g x)%bool) l = filter g (filter f l).
Proof.
  induction l as [|x l IH]; simpl; [reflexivity|].
  destruct (f x); simpl; [destruct (g x)|]; congruence.
Qed.

Lemma filter_drops (A : Type) (f : A -> bool) (l : list A) :
  (forall x, In x l -> f x = false) -> filter f l = [].
Proof.
  induction l as [|x l IH]; simpl; intro H; [reflexivity|].
  rewrite (H x (or_introl eq_refl)). apply IH. intros; apply H; right; assumption.
Qed.

Lemma filter_keeps (A : Type) (f : A -> bool) (l : list A) :
  (forall x, In x l -> f x = true) -> filter f l = l.
Proof.
  induction l as [|x l IH]; simpl; intro H; [reflexivity|].
  rewrite (H x (or_introl eq_refl)). f_equal. apply IH. intros; apply H; right; assumption.
Qed.

Lemma filter_empty (A : Type) (f : A -> bool) (l : list A) :
  List.length (filter f l) = 0 -> forall x, In x l -> f x = false.
Proof.
  induction l as [|y l IH]; simpl; intros H x Hin; [destruct Hin|].
  destruct (f y) eqn:E; [discriminate|].
  destruct Hin as [Ex|Hin]; [subst; assumption|auto].
Qed.

Lemma timesIn_absent (x : string) (l : list string) :
  timesIn x l = 0 -> ~ In x l.
Proof.
  unfold timesIn. intros H Hin.
  pose proof (filter_empty _ _ H x Hin) as E. rewrite String.eqb_refl in E. discriminate.
Qed.

Lemma timesIn_kept (x : string) (keep : string -> bool) (l : list string) :
  keep x = true -> timesIn x (filter keep l) = timesIn x l.
Proof.
  unfold timesIn. intro Hk. induction l as [|y l IH]; simpl; [reflexivity|].
  destruct (String.eqb x y) eqn:E.
  - apply String.eqb_eq in E. subst y. rewrite Hk. simpl.
    rewrite String.eqb_refl. simpl. congruence.
  - destruct (keep y); simpl; [rewrite E|]; assumption.
Qed.

Lemma listedOnce_listedIn (disk : Disk) (dir wanted entry : string) :
  listedOnce disk dir wanted entry -> listedIn disk dir wanted entry.
Proof.
  assert (Hin : forall l, timesIn entry l = 1 -> In entry l).
  { unfold timesIn. induction l as [|y l IH]; simpl; [discriminate|].
    destruct (String.eqb entry y) eqn:E; [|auto].
    apply String.eqb_eq in E. auto. }
  unfold listedOnce, listedIn. intros [Hok H]. split; [assumption|].
  destruct (String.eqb wanted "*"); [|auto].
  destruct H as [found [Er Ht]]. exists found. auto.
Qed.

Lemma listedOnce_entries (disk : Disk) (dir wanted entry : string)
      (entries : list string) (bad : list string -> Error) :
  (if String.eqb wanted "*"
   then found <- await (readdir disk dir) ;;
        Ok (filter (fun d => negb (strMem d ignoreFiles)) found)
   else
     let entries := splitOn "," wanted in
     let badNames := filter (fun d => strMem d ignoreFiles) entries in
     if (0 <? List.length badNames)%nat
     then Throw (bad badNames)
     else Ok entries) = Ok entries ->
  listedOnce disk dir wanted entry -> timesIn entry entries = 1.
Proof.
  unfold listedOnce. intros H [Hok Hl]. destruct (String.eqb wanted "*").
  - destruct Hl as [found [Er Ht]]. rewrite Er in H. cbn [await bind] in H.
    inversion H; subst entries.
    rewrite timesIn_kept; [assumption|].
    cbv beta. change (negb (strMem entry ignoreFiles) = true). rewrite Hok. reflexivity.
  - cbv zeta in H. destruct (0 <? _)%nat; [discriminate|].
    inversion H; subst entries. assumption.
Qed.

Lemma isBenchmark_true (name implementation : string) (s : BenchmarkSpec) :
  isBenchmark name implementation s = true
  <-> Spec.name s = name /\ Spec.implementation s = implementation.
Proof.
  unfold isBenchmark. rewrite andb_true_iff, !String.eqb_eq. reflexivity.
Qed.

Lemma filter_isBenchmark_own (name implementation : string)
      (added : list BenchmarkSpec) :
  Forall (fun s => Spec.name s = name /\ Spec.implementation s = implementation)
         added ->
  filter (isBenchmark name implementation) added = added.
Proof.
  intro H. apply filter_keeps. rewrite Forall_forall in H.
  intros s Hs. apply isBenchmark_true. auto.
Qed.

Lemma filter_isBenchmark_other (name implementation name' implementation' : string)
      (added : list BenchmarkSpec) :
  name' <> name \/ implementation' <> implementation ->
  Forall (fun s => Spec.name s = name' /\ Spec.implementation s = implementation')
         added ->
  filter (isBenchmark name implementation) added = [].
Proof.
  intros Hne H. apply filter_drops. rewrite Forall_forall in H.
  intros s Hs. destruct (H s Hs) as [Hn Hi].
  destruct (isBenchmark name implementation s) eqn:E; [|reflexivity].
  apply isBenchmark_true in E. destruct E as [En Ei].
  exfalso. destruct Hne as [Hne|Hne]; apply Hne; congruence.
Qed.

(** ** The turns of the loops for one benchmark *)

Section Once.
Variable disk : Disk.
Variable repoRoot : string.
Variable versions : VersionMap.
Variable opts : Opts.t.
Variables implementation name : string.

Lemma expandBenchmark_added_own (implDir : string) (l added : list BenchmarkSpec) :
  expandBenchmark disk versions opts (requestedVariants opts) implementation implDir
    name l = Ok (l ++ added) ->
  filter (isBenchmark name implementation) added = added.
Proof.
  intro H. destruct (expandBenchmark_adds _ _ _ _ _ _ _ _ H) as [added' [E Hall]].
  apply app_inv_head in E. subst added'. apply filter_isBenchmark_own. assumption.
Qed.

Lemma expandBenchmark_other (implementation' implDir name' : string)
      (l l' : list BenchmarkSpec) :
  name' <> name \/ implementation' <> implementation ->
  expandBenchmark disk versions opts (requestedVariants opts) implementation' implDir
    name' l = Ok l' ->
  filter (isBenchmark name implementation) l'
  = filter (isBenchmark name implementation) l.
Proof.
  intros Hne H. destruct (expandBenchmark_adds _ _ _ _ _ _ _ _ H) as [added [E Hall]].
  subst l'. rewrite filter_app, (filter_isBenchmark_other Hne Hall), app_nil_r.
  reflexivity.
Qed.

Lemma expandBenchmarks_others (implementation' implDir : string)
      (benchmarks : list string) :
  implementation' <> implementation \/ timesIn name benchmarks = 0 ->
  forall specs specs',
    expandBenchmarks disk versions opts (requestedVariants opts) implementation'
      implDir benchmarks specs = Ok specs' ->
    filter (isBenchmark name implementation) specs'
    = filter (isBenchmark name implementation) specs.
Proof.
  intros Hne specs specs' H.
  apply (@expandBenchmarks_each disk versions opts
           (fun l => filter (isBenchmark name implementation) l
                     = filter (isBenchmark name implementation) specs)
           implementation' implDir benchmarks) with (specs := specs);
    [|exact H|reflexivity].
  intros name' l l' Hin E Hl. rewrite <- Hl.
  apply expandBenchmark_other with (implementation' := implementation')
                                   (implDir := implDir) (name' := name');
    [|exact E].
  destruct Hne as [Hne|Hne]; [right; assumption|left].
  intro En. subst name'. exact (timesIn_absent _ _ Hne Hin).
Qed.

Lemma expandBenchmarks_once (implDir : string) (benchmarks : list string) :
  timesIn name benchmarks = 1 ->
  forall specs specs',
    expandBenchmarks disk versions opts (requestedVariants opts) implementation
      implDir benchmarks specs = Ok specs' ->
    exists l added,
      expandBenchmark disk versions opts (requestedVariants opts) implementation
        implDir name l = Ok (l ++ added)
      /\ filter (isBenchmark name implementation) specs'
         = filter (isBenchmark name implementation) specs ++ added.
Proof.
  induction benchmarks as [|b rest IH]; intros Hc specs specs' H; [discriminate|].
  cbn [expandBenchmarks] in H.
  destruct (expandBenchmark _ _ _ _ _ _ _ _) as [s1|e] eqn:E; cbn [bind] in H;
    [|discriminate].
  unfold timesIn in Hc. cbn [filter] in Hc.
  destruct (String.eqb name b) eqn:Eb.
  - apply String.eqb_eq in Eb. subst b. cbn [List.length] in Hc.
    assert (H0 : timesIn name rest = 0) by (unfold timesIn; lia).
    destruct (expandBenchmark_adds _ _ _ _ _ _ _ _ E) as [added [E1 Hall]].
    subst s1. exists specs, added. split; [assumption|].
    rewrite (@expandBenchmarks_others implementation implDir rest (or_intror H0)
               _ _ H).
    rewrite filter_app, (filter_isBenchmark_own Hall). reflexivity.
  - apply String.eqb_neq in Eb.
    destruct (IH Hc _ _ H) as [l [added [Et Hf]]].
    exists l, added. split; [assumption|]. rewrite Hf. f_equal.
    apply expandBenchmark_other with (implementation' := implementation)
                                     (implDir := implDir) (name' := b);
      [left; congruence|assumption].
Qed.

Lemma expandImplementation_other (implementation' : string)
      (l l' : list BenchmarkSpec) :
  implementation' <> implementation ->
  expandImplementation disk repoRoot versions opts (requestedVariants opts)
    implementation' l = Ok l' ->
  filter (isBenchmark name implementation) l'
  = filter (isBenchmark name implementation) l.
Proof.
  intros Hne H. unfold expandImplementation in H.
  match type of H with
  | bind ?m _ = _ => destruct m as [benchmarks|e]; cbn [bind] in H; [|discriminate]
  end.
  eapply expandBenchmarks_others; [left; exact Hne|exact H].
Qed.

Lemma expandImplementation_once (l l' : list BenchmarkSpec) :
  let implDir := path_join [repoRoot; "benchmarks"; implementation] in
  listedOnce disk implDir (Opts.name opts) name ->
  expandImplementation disk repoRoot versions opts (requestedVariants opts)
    implementation l = Ok l' ->
  exists l0 added,
    expandBenchmark disk versions opts (requestedVariants opts) implementation
      implDir name l0 = Ok (l0 ++ added)
    /\ filter (isBenchmark name implementation) l'
       = filter (isBenchmark name implementation) l ++ added.
Proof.
  intros implDir Hn H. unfold expandImplementation in H.
  match type of H with
  | bind ?m _ = _ => destruct m as [benchmarks|e] eqn:Eb; cbn [bind] in H; [|discriminate]
  end.
  pose proof (@listedOnce_entries _ _ _ _ _ ReservedBenchmark Eb Hn) as Hc.
  exact (expandBenchmarks_once _ _ Hc _ H).
Qed.

Lemma expandImplementations_others (impls : list string) :
  timesIn implementation impls = 0 ->
  forall specs specs',
    expandImplementations disk repoRoot versions opts (requestedVariants opts)
      impls specs = Ok specs' ->
    filter (isBenchmark name implementation) specs'
    = filter (isBenchmark name implementation) specs.
Proof.
  intros Hc specs specs' H.
  apply (@expandImplementations_each disk repoRoot versions opts
           (fun l => filter (isBenchmark name implementation) l
                     = filter (isBenchmark name implementation) specs) impls)
    with (specs := specs); [|exact H|reflexivity].
  intros i l l' Hin E Hl. rewrite <- Hl.
  apply expandImplementation_other with (implementation' := i); [|exact E].
  intro Ei. subst i. exact (timesIn_absent _ _ Hc Hin).
Qed.

Lemma expandImplementations_once (impls : list string) :
  let implDir := path_join [repoRoot; "benchmarks"; implementation] in
  timesIn implementation impls = 1 ->
  listedOnce disk implDir (Opts.name opts) name ->
  forall specs specs',
    expandImplementations disk repoRoot versions opts (requestedVariants opts)
      impls specs = Ok specs' ->
    exists l added,
      expandBenchmark disk versions opts (requestedVariants opts) implementation
        implDir name l = Ok (l ++ added)
      /\ filter (isBenchmark name implementation) specs'
         = filter (isBenchmark name implementation) specs ++ added.
Proof.
  intros implDir Hc Hn.
  induction impls as [|i rest IH]; intros specs specs' H; [discriminate|].
  cbn [expandImplementations] in H.
  destruct (expandImplementation _ _ _ _ _ _ _) as [s1|e] eqn:E; cbn [bind] in H;
    [|discriminate].
  unfold timesIn in Hc. cbn [filter] in Hc.
  destruct (String.eqb implementation i) eqn:Ei.
  - apply String.eqb_eq in Ei. subst i. cbn [List.length] in Hc.
    assert (H0 : timesIn implementation rest = 0) by (unfold timesIn; lia).
    destruct (expandImplementation_once _ Hn E) as [l [added [Et Hf]]].
    exists l, added. split; [assumption|].
    rewrite (expandImplementations_others _ H0 _ H). assumption.
  - apply String.eqb_neq in Ei.
    destruct (IH Hc _ _ H) as [l [added [Et Hf]]].
    exists l, added. split; [assumption|]. rewrite Hf. f_equal.
    apply expandImplementation_other with (implementation' := i);
      [congruence|assumption].
Qed.
End Once.

Lemma collectSpecs_once (disk : Disk) (repoRoot : string) (opts : Opts.t)
      (versions : VersionMap) (collected : list BenchmarkSpec)
      (implementation name : string) :
  parsePackageVersions (Opts.packageVersion opts) = Ok versions ->
  collectSpecs disk repoRoot opts = Ok collected ->
  let implDir := path_join [repoRoot; "benchmarks"; implementation] in
  listedOnce disk (path_join [repoRoot; "benchmarks"]) (Opts.implementation opts)
             implementation ->
  listedOnce disk implDir (Opts.name opts) name ->
  exists l added,
    expandBenchmark disk versions opts (requestedVariants opts) implementation implDir
      name l = Ok (l ++ added)
    /\ filter (isBenchmark name implementation) collected = added.
Proof.
  intros Hv H implDir Hi Hn. unfold collectSpecs in H. rewrite Hv in H. cbn [bind] in H.
  match type of H with
  | bind ?m _ = _ => destruct m as [impls|e] eqn:Ei; cbn [bind] in H; [|discriminate]
  end.
  pose proof (@listedOnce_entries _ _ _ _ _ ReservedImplementation Ei Hi) as Hc.
  destruct (@expandImplementations_once disk repoRoot versions opts implementation
              name impls Hc Hn _ _ H) as [l [added [Et Hf]]].
  exists l, added. split; assumption.
Qed.

Lemma specsFromOpts_once (localeCompare : string -> string -> Z) (disk : Disk)
      (repoRoot : string) (opts : Opts.t) (versions : VersionMap)
      (specs : list BenchmarkSpec) (implementation name : string) :
  parsePackageVersions (Opts.packageVersion opts) = Ok versions ->
  specsFromOpts localeCompare disk repoRoot opts = Ok specs ->
  let implDir := path_join [repoRoot; "benchmarks"; implementation] in
  listedOnce disk (path_join [repoRoot; "benchmarks"]) (Opts.implementation opts)
             implementation ->
  listedOnce disk implDir (Opts.name opts) name ->
  exists l added,
    expandBenchmark disk versions opts (requestedVariants opts) implementation implDir
      name l = Ok (l ++ added)
    /\ Permutation (filter (isBenchmark name implementation) specs) added.
Proof.
  intros Hv H implDir Hi Hn. unfold specsFromOpts in H.
  destruct (collectSpecs disk repoRoot opts) as [collected|] eqn:Ec; [|discriminate].
  cbn [bind] in H. inversion H; subst specs; clear H.
  destruct (@collectSpecs_once disk repoRoot opts versions collected implementation
              name Hv Ec Hi Hn) as [l [added [Et Hf]]].
  exists l, added. split; [assumption|]. rewrite <- Hf.
  apply filter_permutes, arraySort_permutes.
Qed.

(** ** The specs a turn adds for one variant *)

Lemma filter_isSelection_pushed (name implementation variant n : string)
      (config : JsVal) (implVersions : list PackageVersion) :
  filter (isSelection name implementation variant)
         (map (fun version => Spec.mk name implementation version n config)
              implVersions)
  = if String.eqb n variant
    then map (fun version => Spec.mk name implementation version n config) implVersions
    else [].
Proof.
  destruct (String.eqb n variant) eqn:E.
  - apply filter_keeps. intros s Hs. apply in_map_iff in Hs.
    destruct Hs as [version [Es _]]. subst s.
    unfold isSelection, isBenchmark. cbn [Spec.name Spec.implementation Spec.variant].
    rewrite !String.eqb_refl, E. reflexivity.
  - apply filter_drops. intros s Hs. apply in_map_iff in Hs.
    destruct Hs as [version [Es _]]. subst s.
    unfold isSelection. cbn [Spec.variant]. rewrite E. apply andb_false_r.
Qed.

Lemma pushVariants_selection (name implementation n : string)
      (requested : list string) (implVersions : list PackageVersion) :
  n <> EmptyString ->
  (strMem "*" requested || strMem n requested)%bool = true ->
  forall declared specs,
    filter (isSelection name implementation n)
           (pushVariants name implementation requested implVersions declared specs)
    = filter (isSelection name implementation n) specs
      ++ flat_map (fun d =>
                     if namedVariant n d
                     then map (fun version =>
                                 Spec.mk name implementation version n (variantConfig d))
                              implVersions
                     else [])
                  declared.
Proof.
  intros Hne Hreq. induction declared as [|d rest IH]; intro specs.
  - cbn [pushVariants flat_map]. rewrite app_nil_r. reflexivity.
  - cbn [pushVariants flat_map]. rewrite IH. unfold namedVariant at 2.
    destruct (vname d) as [n'|] eqn:En; [|reflexivity].
    destruct (String.eqb n' n) eqn:E.
    + apply String.eqb_eq in E. subst n'.
      replace (negb (String.eqb n EmptyString)) with true
        by (symmetry; apply negb_true_iff, String.eqb_neq; assumption).
      rewrite Hreq. cbn [andb]. unfold pushVersions.
      rewrite filter_app, <- app_assoc. f_equal. f_equal.
      fold (variantConfig d).
      rewrite filter_isSelection_pushed, String.eqb_refl. reflexivity.
    + cbn [app]. f_equal.
      destruct (negb (String.eqb n' EmptyString)
                && (strMem "*" requested || strMem n' requested))%bool;
        [|reflexivity].
      unfold pushVersions. rewrite filter_app, filter_isSelection_pushed, E.
      apply app_nil_r.
Qed.

Lemma declared_once (A : Type) (n : string) (block : Variant -> list A)
      (declared : list Variant) (d : Variant) :
  In d declared ->
  namedVariant n d = true ->
  List.length (filter (namedVariant n) declared) <= 1 ->
  flat_map (fun d => if namedVariant n d then block d else []) declared = block d.
Proof.
  induction declared as [|v rest IH]; intros Hd Hn Hc; [destruct Hd|].
  cbn [flat_map filter] in *.
  assert (Hrest : List.length (filter (namedVariant n) rest) = 0 ->
                  flat_map (fun d => if namedVariant n d then block d else []) rest = []).
  { intro H0. clear - H0. induction rest as [|x rest IH]; [reflexivity|].
    cbn [flat_map filter] in *. destruct (namedVariant n x); [discriminate|].
    apply IH. assumption. }
  destruct (namedVariant n v) eqn:Ev.
  - cbn [List.length] in Hc.
    assert (H0 : List.length (filter (namedVariant n) rest) = 0) by lia.
    rewrite (Hrest H0), app_nil_r. destruct Hd as [E|Hd]; [subst; reflexivity|].
    rewrite (filter_empty _ _ H0 d Hd) in Hn. discriminate.
  - destruct Hd as [E|Hd]; [subst v; congruence|].
    cbn [app]. apply IH; assumption.
Qed.

Section OneSelection.
Variable disk : Disk.
Variable versions : VersionMap.
Variable opts : Opts.t.
Variables implementation implDir name : string.

(** What a turn adds for the variant of a spec [s] that is selected. *)
Lemma expandBenchmark_selection (s : BenchmarkSpec) (l added : list BenchmarkSpec) :
  let benchDir := path_join [implDir; name] in
  let configFile := path_join [benchDir; "benchmarks.json"] in
  Spec.name s = name ->
  Spec.implementation s = implementation ->
  pathExists disk benchDir = true ->
  variantOf disk opts benchDir s ->
  declaredAtMostOnce disk configFile (Spec.variant s) ->
  expandBenchmark disk versions opts (requestedVariants opts) implementation implDir
    name l = Ok (l ++ added) ->
  filter (isSelection name implementation (Spec.variant s)) added
  = map (withVersion s) (implVersionsOf versions implementation).
Proof.
  intros benchDir configFile Hname Himpl Hex Hvar Honce H.
  assert (Hmap : forall variant config,
             Spec.variant s = variant -> Spec.config s = config ->
             map (fun version => Spec.mk name implementation version variant config)
                 (implVersionsOf versions implementation)
             = map (withVersion s) (implVersionsOf versions implementation)).
  { intros variant config Ev Ec. apply map_ext. intro version.
    unfold withVersion. congruence. }
  unfold variantOf in Hvar. fold configFile in Hvar.
  destruct Hvar as [[Hvn [Hc [Hstar [config [Hcfg Hno]]]]]
                   |[Hne [Hreq [declared [d [Hread [Hd [Hdn Hdc]]]]]]]].
  - rewrite (@expandBenchmark_no_variants disk versions opts implementation implDir
               name config l Hcfg Hno) in H.
    fold benchDir in H. rewrite Hex, Hstar in H. cbn [andb String.eqb Ascii.eqb Bool.eqb] in H.
    unfold pushVersions in H. injection H as H. apply app_inv_head in H. subst added.
    rewrite filter_isSelection_pushed, Hvn, (Hmap EmptyString (JObj []) Hvn Hc).
    reflexivity.
  - unfold expandBenchmark in H. fold benchDir in H. rewrite Hex in H.
    cbn [negb] in H. fold configFile in H. rewrite Hread in H.
    cbn [awaitUnlessMissing bind] in H.
    destruct declared as [|v vs]; [destruct Hd|].
    assert (H' : pushVariants name implementation (requestedVariants opts)
                   (implVersionsOf versions implementation) (v :: vs) l
                 = l ++ added) by (injection H; auto).
    clear H. rename H' into H.
    assert (Hf : filter (isSelection name implementation (Spec.variant s)) (l ++ added)
                 = filter (isSelection name implementation (Spec.variant s)) l
                   ++ map (withVersion s) (implVersionsOf versions implementation)).
    { rewrite <- H, (pushVariants_selection name implementation _ _ Hne Hreq).
      f_equal.
      rewrite (@declared_once _ (Spec.variant s)
                 (fun d => map (fun version =>
                                  Spec.mk name implementation version (Spec.variant s)
                                          (variantConfig d))
                               (implVersionsOf versions implementation))
                 (v :: vs) d Hd).
      - apply Hmap; [reflexivity|assumption].
      - unfold namedVariant. rewrite Hdn. apply String.eqb_refl.
      - apply Honce. assumption. }
    rewrite filter_app in Hf. apply app_inv_head in Hf. assumption.
Qed.
End OneSelection.

(** ** What is selected is returned, once for each version *)

Lemma specsFromOpts_returns_selected (localeCompare : string -> string -> Z)
      (disk : Disk) (repoRoot : string) (opts : Opts.t) (versions : VersionMap)
      (specs : list BenchmarkSpec) (s : BenchmarkSpec) :
  parsePackageVersions (Opts.packageVersion opts) = Ok versions ->
  specsFromOpts localeCompare disk repoRoot opts = Ok specs ->
  selected disk repoRoot opts versions s -> In s specs.
Proof.
  intros Hv H [Hi [Hn [Hex [Hver Hvar]]]]. unfold specsFromOpts in H.
  destruct (collectSpecs disk repoRoot opts) as [collected|] eqn:Ec; [|discriminate].
  cbn [bind] in H. inversion H; subst specs; clear H.
  apply In_arraySort.
  destruct (@collectSpecs_reaches disk repoRoot opts versions collected
              (Spec.implementation s) (Spec.name s) Hv Ec Hi Hn) as [l [l' [E Hincl]]].
  apply Hincl. unfold expandBenchmark in E. rewrite Hex in E. cbn [negb] in E.
  unfold variantOf in Hvar.
  destruct Hvar as [[Hvn [Hc [Hstar [config [Hcfg Hno]]]]]
                   |[Hne [Hreq [declared [d [Hread [Hd [Hdn Hdc]]]]]]]].
  - rewrite Hcfg in E. cbn [bind] in E. apply String.eqb_eq in Hstar.
    assert (Hl' : l' = pushVersions (Spec.name s) (Spec.implementation s) EmptyString
                         (JObj [])
                         (implVersionsOf versions (Spec.implementation s)) l).
    { destruct config as [[[[|v vs]|]]|]; cbn [declaresNoVariants variants] in Hno;
        try (rewrite Hstar in E; inversion E; reflexivity).
      destruct Hno as [Hno|Hno]; discriminate. }
    rewrite Hl'. unfold pushVersions. apply in_or_app. right.
    apply in_map_iff. exists (Spec.version s). split; [|assumption].
    destruct s as [n i ver var cfg]. cbn in *. congruence.
  - rewrite Hread in E. cbn [awaitUnlessMissing bind] in E.
    destruct declared as [|v vs]; [destruct Hd|].
    assert (Hl' : l' = pushVariants (Spec.name s) (Spec.implementation s)
                         (requestedVariants opts)
                         (implVersionsOf versions (Spec.implementation s)) (v :: vs) l)
      by (injection E; auto).
    rewrite Hl'.
    replace s with (Spec.mk (Spec.name s) (Spec.implementation s) (Spec.version s)
                            (Spec.variant s) (variantConfig d))
      by (destruct s as [n i ver var cfg]; cbn in *; congruence).
    cbn [Spec.name Spec.implementation].
    apply pushVariants_pushes; assumption.
Qed.

(** C7.  In the list returned by [specsFromOpts], the versions of the
    specs of an implementation are those of the list parsed from the
    flags for that very implementation, when there is one: each spec
    has one of them, and stands beside the same spec at each of the
    others.  When the flags name no version for the implementation, be
    there flags for other implementations or not, its specs have the
    implicit version [{label: 'default', dependencyOverrides: {}}].

    And the list is used: for a benchmark directory that exists and a
    variant that is selected, of a listed implementation and a listed
    name, the result holds the spec at every version of the list parsed
    for the implementation, and at the implicit version when none was
    parsed.  When the implementation and the name are listed once and
    the variant is declared once, the specs of that benchmark and
    variant in the result are exactly these, one for each version of
    the list. *)
Theorem specsFromOpts_versions_per_implementation
        (localeCompare : string -> string -> Z) (disk : Disk) (repoRoot : string)
        (opts : Opts.t) (versions : VersionMap) (specs : list BenchmarkSpec) :
  parsePackageVersions (Opts.packageVersion opts) = Ok versions ->
  specsFromOpts localeCompare disk repoRoot opts = Ok specs ->
  (forall s, In s specs ->
     match mapGet (Spec.implementation s) versions with
     | Some parsed =>
         In (Spec.version s) parsed
         /\ forall v, In v parsed -> In (withVersion s v) specs
     | None => Spec.version s = defaultVersion
     end)
  /\ forall s,
       let implDir := path_join [repoRoot; "benchmarks"; Spec.implementation s] in
       let benchDir := path_join [implDir; Spec.name s] in
       let configFile := path_join [benchDir; "benchmarks.json"] in
       let used := match mapGet (Spec.implementation s) versions with
                   | Some parsed => parsed
                   | None => [defaultVersion]
                   end in
       pathExists disk benchDir = true ->
       variantOf disk opts benchDir s ->
       (listedIn disk (path_join [repoRoot; "benchmarks"]) (Opts.implementation opts)
                 (Spec.implementation s) ->
        listedIn disk implDir (Opts.name opts) (Spec.name s) ->
        forall v, In v used -> In (withVersion s v) specs)
       /\ (listedOnce disk (path_join [repoRoot; "benchmarks"])
                      (Opts.implementation opts) (Spec.implementation s) ->
           listedOnce disk implDir (Opts.name opts) (Spec.name s) ->
           declaredAtMostOnce disk configFile (Spec.variant s) ->
           Permutation
             (filter (isSelection (Spec.name s) (Spec.implementation s)
                                  (Spec.variant s)) specs)
             (map (withVersion s) used)).
Proof.
  intros Hv H. split.
  - intros s Hin. unfold specsFromOpts in H.
    destruct (collectSpecs disk repoRoot opts) as [l|e] eqn:E; simpl in H;
      [|discriminate].
    inversion H; subst; clear H.
    assert (Hu : usesVersions versions l).
    { eapply (@collectSpecs_preserves disk repoRoot opts versions l
                (usesVersions versions)); eauto.
      - intros; apply pushVersions_usesVersions; assumption.
      - intros x []. }
    apply In_arraySort in Hin. destruct (Hu s Hin) as [H1 H2].
    unfold implVersionsOf in H1, H2.
    destruct (mapGet (Spec.implementation s) versions) as [parsed|].
    + split; [assumption|]. intros v Hin'. apply In_arraySort. auto.
    + destruct H1 as [H1|[]]. symmetry; assumption.
  - intros s implDir benchDir configFile used Hex Hvar.
    change used with (implVersionsOf versions (Spec.implementation s)).
    split.
    + intros Hi Hn v Hin.
      apply (@specsFromOpts_returns_selected localeCompare disk repoRoot opts versions
               specs (withVersion s v) Hv H).
      unfold selected. cbn [withVersion Spec.name Spec.implementation Spec.version].
      repeat (split; [assumption|]). exact Hvar.
    + intros Hi Hn Honce.
      destruct (@specsFromOpts_once localeCompare disk repoRoot opts versions specs
                  (Spec.implementation s) (Spec.name s) Hv H Hi Hn)
        as [l [added [Et Hp]]].
      rewrite <- (@expandBenchmark_selection disk versions opts
                    (Spec.implementation s) implDir (Spec.name s) s l added
                    eq_refl eq_refl Hex Hvar Honce Et).
      unfold isSelection. rewrite !filter_both.
      rewrite (@expandBenchmark_added_own _ _ _ _ _ _ _ _ Et).
      apply filter_permutes. assumption.
Qed.

Lemma specsFromOpts_versions_per_implementation_witness :
  exists specs,
    specsFromOpts localeCompareAscii Trees.shared "/repo" Trees.oneFlagOpts = Ok specs
    /\ (forall s, In s specs -> Spec.implementation s = "lit" ->
                  Spec.version s = Fixture.v "old" "0.9.0")
    /\ (forall s, In s specs -> Spec.implementation s = "preact" ->
                  Spec.version s = defaultVersion)
    /\ Permutation
         (filter (isSelection "bench" "preact" EmptyString) specs)
         [Spec.mk "bench" "preact" defaultVersion EmptyString (JObj [])]
    /\ Permutation
         (filter (isSelection "bench" "lit" EmptyString) specs)
         [Spec.mk "bench" "lit" (Fixture.v "old" "0.9.0") EmptyString (JObj [])].
Proof.
  eexists. split; [vm_compute; reflexivity|].
  destruct (@specsFromOpts_versions_per_implementation localeCompareAscii Trees.shared
              "/repo" Trees.oneFlagOpts
              [("lit", [Fixture.v "old" "0.9.0"])] _ eq_refl eq_refl)
    as [Hversions Hused].
  assert (Hnone : forall implementation,
             variantOf Trees.shared Trees.oneFlagOpts
               (path_join [path_join ["/repo"; "benchmarks"; implementation]; "bench"])
               (Spec.mk "bench" implementation defaultVersion EmptyString (JObj []))).
  { intro implementation. left. repeat (split; [reflexivity|]).
    exists None. split; [reflexivity|exact I]. }
  assert (Honce : forall dir configFile,
             listedOnce Trees.shared "/repo/benchmarks" "lit,preact" "lit"
             /\ listedOnce Trees.shared "/repo/benchmarks" "lit,preact" "preact"
             /\ listedOnce Trees.shared dir "bench" "bench"
             /\ declaredAtMostOnce Trees.shared configFile EmptyString).
  { intros dir configFile. repeat split; try reflexivity. intros declared Hread. discriminate. }
  split; [|split; [|split]].
  - intros s Hs Hi. specialize (Hversions s Hs). rewrite Hi in Hversions.
    destruct Hversions as [[E|[]] _]. symmetry; assumption.
  - intros s Hs Hi. specialize (Hversions s Hs). rewrite Hi in Hversions.
    exact Hversions.
  - destruct (Honce "/repo/benchmarks/preact"
                "/repo/benchmarks/preact/bench/benchmarks.json") as [_ [Hi [Hn Hd]]].
    exact (proj2 (Hused (Spec.mk "bench" "preact" defaultVersion EmptyString (JObj []))
                    eq_refl (Hnone "preact")) Hi Hn Hd).
  - destruct (Honce "/repo/benchmarks/lit"
                "/repo/benchmarks/lit/bench/benchmarks.json") as [Hi [_ [Hn Hd]]].
    exact (proj2 (Hused (Spec.mk "bench" "lit" defaultVersion EmptyString (JObj []))
                    eq_refl (Hnone "lit")) Hi Hn Hd).
Defined.

(** C8.  For one benchmark of one implementation, read at its place
    under the repository root.  When its config declares variants and
    the requested names hold neither [*] nor a declared name, the turn
    of the loop for the benchmark adds no spec and raises no error, and
    the result of [specsFromOpts] holds no spec of the benchmark.  When
    it declares no variant (no config file, no [variants], or an empty
    list), the turn for the benchmark, if its directory exists, adds
    one spec per version, with empty variant name and empty config, if
    the [variant] option is [*], and nothing if not (the version list is
    never empty, so specs are added exactly when the option is [*];
    this is a fact of the parser of [src/versions.ts], taken for the
    [./versions] that [specs.ts] imports, and the only one used here).
    In the result of [specsFromOpts], every spec of the benchmark has
    an empty variant name and an empty config, and is there only if the
    option is [*]; and if the option is [*] and the directory of the
    benchmark exists, the result holds the spec of every version when
    the implementation and the name are listed, and when they are
    listed once its specs of the benchmark are exactly these, one for
    each version. *)
Theorem specsFromOpts_variant_selection (localeCompare : string -> string -> Z)
        (disk : Disk) (repoRoot : string) (opts : Opts.t) (versions : VersionMap)
        (implementation name : string) :
  parsePackageVersions (Opts.packageVersion opts) = Ok versions ->
  let implDir := path_join [repoRoot; "benchmarks"; implementation] in
  let configFile := path_join [path_join [implDir; name]; "benchmarks.json"] in
  let turn := expandBenchmark disk versions opts (requestedVariants opts)
                implementation implDir name in
  let ofBenchmark := fun s => Spec.name s = name
                              /\ Spec.implementation s = implementation in
  let perVersion := map (fun version =>
                           Spec.mk name implementation version EmptyString (JObj []))
                        (implVersionsOf versions implementation) in
  (forall v vs,
      readConfigJson disk configFile = Done {| variants := Some (v :: vs) |} ->
      strMem "*" (requestedVariants opts) = false ->
      (forall d n, In d (v :: vs) -> vname d = Some n ->
                   strMem n (requestedVariants opts) = false) ->
      (forall specs, turn specs = Ok specs)
      /\ forall specs,
           specsFromOpts localeCompare disk repoRoot opts = Ok specs ->
           forall s, In s specs -> ~ ofBenchmark s)
  /\ (forall config,
         awaitUnlessMissing (readConfigJson disk configFile) = Ok config ->
         declaresNoVariants config ->
         (pathExists disk (path_join [implDir; name]) = true ->
          forall specs,
          exists added,
            turn specs = Ok (specs ++ added)
            /\ added = (if String.eqb (Opts.variant opts) "*" then perVersion else [])
            /\ (added <> [] <-> Opts.variant opts = "*"))
         /\ forall specs,
              specsFromOpts localeCompare disk repoRoot opts = Ok specs ->
              (forall s, In s specs -> ofBenchmark s ->
                         Spec.variant s = EmptyString /\ Spec.config s = JObj []
                         /\ Opts.variant opts = "*")
              /\ (pathExists disk (path_join [implDir; name]) = true ->
                  Opts.variant opts = "*" ->
                  (listedIn disk (path_join [repoRoot; "benchmarks"])
                            (Opts.implementation opts) implementation ->
                   listedIn disk implDir (Opts.name opts) name ->
                   forall s, In s perVersion -> In s specs)
                  /\ (listedOnce disk (path_join [repoRoot; "benchmarks"])
                                 (Opts.implementation opts) implementation ->
                      listedOnce disk implDir (Opts.name opts) name ->
                      Permutation (filter (isBenchmark name implementation) specs)
                                  perVersion))).
Proof.
  intros Hv. cbv zeta. split.
  - intros v vs Hcfg Hstar Habs. split.
    + intro specs. apply expandBenchmark_none_requested with (v := v) (vs := vs);
        assumption.
    + intros specs H s Hin [Hn Hi]. unfold specsFromOpts in H.
      destruct (collectSpecs disk repoRoot opts) as [l|e] eqn:E; simpl in H;
        [|discriminate].
      inversion H; subst specs; clear H. apply In_arraySort in Hin.
      apply (@collectSpecs_benchmark disk repoRoot opts implementation name l
               (fun _ => False)) with (s := s); try assumption.
      intros versions' l0 l' Hstep s0 Hs0.
      rewrite (@expandBenchmark_none_requested disk versions' opts implementation
                 _ name v vs l0 Hcfg Hstar Habs) in Hstep.
      inversion Hstep; subst. left; assumption.
  - intros config Hcfg Hno. split.
    + intros Hex specs.
      rewrite (@expandBenchmark_no_variants disk versions opts implementation _ name
                 config specs Hcfg Hno).
      rewrite Hex. cbn [andb].
      pose proof (@implVersionsOf_nonEmpty _ _ implementation Hv) as Hne.
      destruct (String.eqb (Opts.variant opts) "*") eqn:E.
      * eexists. split; [reflexivity|]. split; [reflexivity|].
        apply String.eqb_eq in E. split; [intros _; exact E|].
        intros _ Hmap. apply Hne.
        destruct (implVersionsOf versions implementation); [reflexivity|discriminate].
      * exists []. rewrite app_nil_r. split; [reflexivity|]. split; [reflexivity|].
        apply String.eqb_neq in E. split; [intro H; contradiction H; reflexivity|].
        intro H; contradiction.
    + intros specs H. split; [|intros Hex Hstar; split].
      * intros s Hin [Hn Hi]. unfold specsFromOpts in H.
        destruct (collectSpecs disk repoRoot opts) as [l|e] eqn:E; simpl in H;
          [|discriminate].
        inversion H; subst specs; clear H. apply In_arraySort in Hin.
        apply (@collectSpecs_benchmark disk repoRoot opts implementation name l
                 (fun s => Spec.variant s = EmptyString /\ Spec.config s = JObj []
                           /\ Opts.variant opts = "*")) with (s := s);
          try assumption.
        intros versions' l0 l' Hstep s0 Hs0.
        rewrite (@expandBenchmark_no_variants disk versions' opts implementation _ name
                   config l0 Hcfg Hno) in Hstep.
        inversion Hstep; subst l'; clear Hstep.
        destruct (pathExists disk _ && String.eqb (Opts.variant opts) "*")%bool eqn:Eb;
          [|left; assumption].
        apply andb_true_iff in Eb. destruct Eb as [_ Eb]. apply String.eqb_eq in Eb.
        unfold pushVersions in Hs0. apply in_app_or in Hs0.
        destruct Hs0 as [Hs0|Hs0]; [left; assumption|right].
        apply in_map_iff in Hs0. destruct Hs0 as [ver [Es _]]. subst s0. auto.
      * intros Hi Hn s Hs. apply in_map_iff in Hs. destruct Hs as [version [Es Hver]].
        subst s.
        apply (@specsFromOpts_returns_selected localeCompare disk repoRoot opts versions
                 specs _ Hv H).
        unfold selected. cbn [Spec.name Spec.implementation Spec.version].
        repeat (split; [assumption|]).
        left. cbn [Spec.variant Spec.config]. repeat (split; [reflexivity || assumption|]).
        exists config. split; assumption.
      * intros Hi Hn.
        destruct (@specsFromOpts_once localeCompare disk repoRoot opts versions specs
                    implementation name Hv H Hi Hn) as [l [added [Et Hp]]].
        rewrite (@expandBenchmark_no_variants disk versions opts implementation _ name
                   config l Hcfg Hno) in Et.
        rewrite Hex, Hstar in Et. cbn [andb String.eqb Ascii.eqb Bool.eqb] in Et.
        unfold pushVersions in Et. injection Et as Et. apply app_inv_head in Et.
        rewrite Et. assumption.
Qed.

Lemma specsFromOpts_variant_selection_witness :
  (exists specs,
      specsFromOpts localeCompareAscii Fixture.disk "/repo" Fixture.absentVariantOpts
      = Ok specs
      /\ expandBenchmark Fixture.disk [] Fixture.absentVariantOpts
           (requestedVariants Fixture.absentVariantOpts) "lit" "/repo/benchmarks/lit"
           "bench" specs
         = Ok specs
      /\ forall s,
           In s specs -> ~ (Spec.name s = "bench" /\ Spec.implementation s = "lit"))
  /\ exists specs,
       specsFromOpts localeCompareAscii Fixture.disk "/repo" Fixture.allOpts = Ok specs
       /\ In (Spec.mk "Zeta" "lit" defaultVersion EmptyString (JObj [])) specs
       /\ Permutation (filter (isBenchmark "Zeta" "lit") specs)
                      [Spec.mk "Zeta" "lit" defaultVersion EmptyString (JObj [])].
Proof.
  split.
  - eexists. split; [vm_compute; reflexivity|].
    destruct (proj1 (@specsFromOpts_variant_selection localeCompareAscii Fixture.disk
                       "/repo" Fixture.absentVariantOpts [] "lit" "bench" eq_refl)
                    {| vname := Some "v1"; vconfig := Some (JObj [("size", JNum 10)]) |}
                    [ {| vname := Some "v2"; vconfig := None |} ]
                    eq_refl eq_refl) as [Hturn Hresult].
    + intros d n [E|[E|[]]] Hn; subst d; inversion Hn; reflexivity.
    + split; [apply Hturn|]. apply Hresult. vm_compute. reflexivity.
  - eexists. split; [vm_compute; reflexivity|].
    destruct (proj2 (@specsFromOpts_variant_selection localeCompareAscii Fixture.disk
                       "/repo" Fixture.allOpts [] "lit" "Zeta" eq_refl)
                    None eq_refl I) as [_ Hresult].
    destruct (Hresult _ eq_refl) as [_ Hthere].
    destruct (Hthere eq_refl eq_refl) as [Hin Honce].
    split.
    + apply Hin.
      * split; [reflexivity|]. exists ["common"; "lit"]. split; [reflexivity|].
        right; left; reflexivity.
      * split; [reflexivity|].
        exists ["Zeta"; "bench"; "node_modules"; "package.json"].
        split; [reflexivity|]. left; reflexivity.
      * left; reflexivity.
    + apply Honce.
      * split; [reflexivity|]. exists ["common"; "lit"]. split; reflexivity.
      * split; [reflexivity|].
        exists ["Zeta"; "bench"; "node_modules"; "package.json"].
        split; reflexivity.
Defined.
